(** * OpenCC: the double-array trie dictionary backend

    A shallow embedding of [src/dictionary/opencc_dictionary_datrie.c]:
    the memory provider ([load_mmap], [load_allocate]), the parser
    ([load_dict]), teardown ([unload_dict], [dict_datrie_close]), the
    entry point [dict_datrie_open] and the three trie walks
    ([datrie_match], [dict_datrie_match_longest],
    [dict_datrie_get_all_match_lengths]).

    The target is the one the file is written for: a POSIX system with
    64-bit [size_t], 32-bit [int] and [wchar_t], little-endian. *)

From Stdlib Require Import ZArith Lia Strings.Byte String.
From stdpp Require Import base numbers list option sorting.

Open Scope Z_scope.

(** ** Outcomes of a C call *)

(** A call either returns, or leaves the defined part of C (a read outside
    every live object, a [free] of something [malloc] never gave), or, for
    the one loop that is modelled with a budget of iterations, runs out of
    that budget. *)
Inductive outcome (A : Type) : Type :=
| Ret (a : A)
| Undefined
| Exhausted.
Arguments Ret {A} a.
Arguments Undefined {A}.
Arguments Exhausted {A}.

#[global] Instance outcome_ret : MRet outcome := fun A a => Ret a.
#[global] Instance outcome_bind : MBind outcome := fun A B f m =>
  match m with
  | Ret a => f a
  | Undefined => Undefined
  | Exhausted => Exhausted
  end.

(** A read that has no object to read from is undefined. *)
Definition defined {A : Type} (o : option A) : outcome A :=
  match o with
  | Some a => Ret a
  | None => Undefined
  end.

(** ** Machine integers *)

Definition sizeof_char : Z := 1.
Definition sizeof_int : Z := 4.
Definition sizeof_wchar_t : Z := 4.
Definition sizeof_size_t : Z := 8.

(** Conversion to [size_t]: reduction modulo 2^64. *)
Definition to_size_t (z : Z) : Z := z mod 2 ^ 64.

(** Conversion to [int]: the two's complement value of the low 32 bits. *)
Definition to_int (z : Z) : Z := (z + 2 ^ 31) mod 2 ^ 32 - 2 ^ 31.

Definition INT_MIN : Z := - 2 ^ 31.
Definition INT_MAX : Z := 2 ^ 31 - 1.

(** [a + b] on [int]. The sum wraps, as the target's add instruction does. *)
Definition int_add (a b : Z) : Z := to_int (a + b).

(** [a + b] and [a * b] on [size_t]. *)
Definition size_add (a b : Z) : Z := to_size_t (a + b).
Definition size_mul (a b : Z) : Z := to_size_t (a * b).

(** ** Bytes in memory *)

Definition byte_val (b : byte) : Z := Z.of_N (Byte.to_N b).

(** The unsigned value of a little-endian run of bytes. *)
Fixpoint le_unsigned (bs : list byte) : Z :=
  match bs with
  | [] => 0
  | b :: rest => byte_val b + 256 * le_unsigned rest
  end.

Definition decode_size_t (bs : list byte) : Z := le_unsigned bs.
Definition decode_int (bs : list byte) : Z := to_int (le_unsigned bs).

(** ** Pointers

    A pointer is an integer converted to a pointer ([NULL], [MAP_FAILED],
    [(dict_ptr) -1]) or an offset into a block that [malloc] or [mmap]
    handed out. *)
Inductive ptr : Type :=
| Pint (n : Z)
| Pblk (b : nat) (ofs : Z).

Definition NULL : ptr := Pint 0.
Definition MAP_FAILED : ptr := Pint (to_size_t (-1)).

Definition ptr_eqb (p q : ptr) : bool :=
  match p, q with
  | Pint n, Pint m => n =? m
  | Pblk b o, Pblk c r => (b =? c)%nat && (o =? r)
  | _, _ => false
  end.

(** [p + d] on [char *] (and on [void *], which the file uses the same
    way). *)
Definition ptr_add (p : ptr) (d : Z) : ptr :=
  match p with
  | Pint n => Pint (to_size_t (n + d))
  | Pblk b ofs => Pblk b (ofs + d)
  end.

(** ** The dictionary structure *)

(** [memory_type] is a C enumeration: an [int] with two named values. *)
Definition memory_type : Type := Z.
Definition MEMORY_TYPE_MMAP : memory_type := 0.
Definition MEMORY_TYPE_ALLOCATE : memory_type := 1.

Record datrie_dictionary : Type := {
  dat : ptr;
  dat_item_count : Z;
  lexicon : ptr;
  lexicon_length : Z;
  dic_memory : ptr;
  dic_size : Z;
  dic_memory_type : memory_type
}.

Definition set_dat (v : ptr) (d : datrie_dictionary) : datrie_dictionary :=
  {| dat := v; dat_item_count := dat_item_count d; lexicon := lexicon d;
     lexicon_length := lexicon_length d; dic_memory := dic_memory d;
     dic_size := dic_size d; dic_memory_type := dic_memory_type d |}.

Definition set_dat_item_count (v : Z) (d : datrie_dictionary) : datrie_dictionary :=
  {| dat := dat d; dat_item_count := v; lexicon := lexicon d;
     lexicon_length := lexicon_length d; dic_memory := dic_memory d;
     dic_size := dic_size d; dic_memory_type := dic_memory_type d |}.

Definition set_lexicon (v : ptr) (d : datrie_dictionary) : datrie_dictionary :=
  {| dat := dat d; dat_item_count := dat_item_count d; lexicon := v;
     lexicon_length := lexicon_length d; dic_memory := dic_memory d;
     dic_size := dic_size d; dic_memory_type := dic_memory_type d |}.

Definition set_lexicon_length (v : Z) (d : datrie_dictionary) : datrie_dictionary :=
  {| dat := dat d; dat_item_count := dat_item_count d; lexicon := lexicon d;
     lexicon_length := v; dic_memory := dic_memory d;
     dic_size := dic_size d; dic_memory_type := dic_memory_type d |}.

Definition set_dic_memory (v : ptr) (d : datrie_dictionary) : datrie_dictionary :=
  {| dat := dat d; dat_item_count := dat_item_count d; lexicon := lexicon d;
     lexicon_length := lexicon_length d; dic_memory := v;
     dic_size := dic_size d; dic_memory_type := dic_memory_type d |}.

Definition set_dic_size (v : Z) (d : datrie_dictionary) : datrie_dictionary :=
  {| dat := dat d; dat_item_count := dat_item_count d; lexicon := lexicon d;
     lexicon_length := lexicon_length d; dic_memory := dic_memory d;
     dic_size := v; dic_memory_type := dic_memory_type d |}.

Definition set_dic_memory_type (v : memory_type) (d : datrie_dictionary) : datrie_dictionary :=
  {| dat := dat d; dat_item_count := dat_item_count d; lexicon := lexicon d;
     lexicon_length := lexicon_length d; dic_memory := dic_memory d;
     dic_size := dic_size d; dic_memory_type := v |}.

(** Modelled from the spec: the record type [DoubleArrayTrieItem] is
    declared in [opencc_dictionary_datrie.h], which is not part of the
    sources. The spec gives it three signed integer fields, in this order,
    laid out one after the other. *)
Record DoubleArrayTrieItem : Type := {
  base : Z;
  parent : Z;
  word : Z
}.

Definition sizeof_item : Z := 3 * sizeof_int.

Definition decode_item (bs : list byte) : DoubleArrayTrieItem :=
  {| base := decode_int (take 4 bs);
     parent := decode_int (take 4 (drop 4 bs));
     word := decode_int (take 4 (drop 8 bs)) |}.

(** ** The world: live blocks and open streams *)

Inductive origin : Type := ByMalloc | ByMmap.

Inductive cell : Type :=
| Bytes (bs : list byte)
| Dict (dd : datrie_dictionary).

(** [heap] lists every block ever handed out; a released block leaves
    [None] behind, so a block number is never used twice. [streams]
    counts the [FILE] streams that are open. *)
Record world : Type := {
  heap : list (option (origin * cell));
  streams : nat
}.

Definition with_heap (h : list (option (origin * cell))) (w : world) : world :=
  {| heap := h; streams := streams w |}.

Definition live (w : world) (b : nat) : option (origin * cell) :=
  match heap w !! b with
  | Some c => c
  | None => None
  end.

(** The bytes [p .. p + n) when they all lie in one live block of bytes. *)
Definition load_bytes (w : world) (p : ptr) (n : nat) : option (list byte) :=
  match p with
  | Pint _ => None
  | Pblk b ofs =>
    match live w b with
    | Some (_, Bytes bs) =>
      if (0 <=? ofs) && (ofs + Z.of_nat n <=? Z.of_nat (length bs))
      then Some (take n (drop (Z.to_nat ofs) bs))
      else None
    | _ => None
    end
  end.

(** The structure a [datrie_dictionary *] points at. *)
Definition dict_at (w : world) (p : ptr) : option datrie_dictionary :=
  match p with
  | Pblk b 0 =>
    match live w b with
    | Some (_, Dict dd) => Some dd
    | _ => None
    end
  | _ => None
  end.

(** ** Calls that change the world *)

Definition M (A : Type) : Type := world -> outcome (A * world).

Definition ret {A : Type} (a : A) : M A := fun w => Ret (a, w).

Definition bind {A B : Type} (m : M A) (k : A -> M B) : M B := fun w =>
  match m w with
  | Ret (a, w') => k a w'
  | Undefined => Undefined
  | Exhausted => Exhausted
  end.

Declare Scope world_scope.
Delimit Scope world_scope with world.
Notation "'do' x <- m ; k" := (bind m (fun x => k))
  (at level 10, x name, m at level 100, k at level 200) : world_scope.
Notation "'run' m ; k" := (bind m (fun _ => k))
  (at level 10, m at level 100, k at level 200) : world_scope.
Open Scope world_scope.

Definition undefined {A : Type} : M A := fun _ => Undefined.

Definition alloc (o : origin) (c : cell) : M ptr := fun w =>
  Ret (Pblk (length (heap w)) 0, with_heap (heap w ++ [Some (o, c)]) w).

Definition release (b : nat) : M unit := fun w =>
  Ret (tt, with_heap (<[b := None]> (heap w)) w).

Definition get_dict (p : ptr) : M datrie_dictionary := fun w =>
  match dict_at w p with
  | Some dd => Ret (dd, w)
  | None => Undefined
  end.

(** [dd->field = v]: the structure is read, changed and written back. *)
Definition modify_dict (p : ptr) (f : datrie_dictionary -> datrie_dictionary)
  : M unit := fun w =>
  match p with
  | Pblk b 0 =>
    match live w b with
    | Some (o, Dict dd) => Ret (tt, with_heap (<[b := Some (o, Dict (f dd))]> (heap w)) w)
    | _ => Undefined
    end
  | _ => Undefined
  end.

(** [free(p)]: nothing for [NULL], the end of a block [malloc] gave, and
    undefined for anything else. *)
Definition free (p : ptr) : M unit := fun w =>
  match p with
  | Pint n => if n =? 0 then Ret (tt, w) else Undefined
  | Pblk b ofs =>
    match live w b with
    | Some (ByMalloc, _) => if ofs =? 0 then release b w else Undefined
    | _ => Undefined
    end
  end.

(** ** The operating system and the C library

    What the calls of one [dict_datrie_open] or [dict_datrie_close] meet
    outside the program: which files exist and what they hold, whether
    [malloc] and [mmap] succeed, what a fresh block holds before it is
    written, how many bytes one [read] transfers, whether [munmap]
    succeeds. *)
Record os : Type := {
  files : string -> option (list byte);
  malloc_dict : option datrie_dictionary;
  mmap_ok : bool;
  malloc_ok : bool;
  malloc_junk : nat -> byte;
  read_limit : nat;
  munmap_ok : bool
}.

(** A [FILE *] is [NULL] or a stream on a file with the given bytes; a
    descriptor stands for the same bytes. *)
Definition FILE : Type := list byte.

Definition fopen (o : os) (filename : string) : M (option FILE) := fun w =>
  match files o filename with
  | Some bs => Ret (Some bs, {| heap := heap w; streams := S (streams w) |})
  | None => Ret (None, w)
  end.

Definition fclose (fp : option FILE) : M unit := fun w =>
  match fp with
  | Some _ => Ret (tt, {| heap := heap w; streams := pred (streams w) |})
  | None => Undefined
  end.

(** [fileno(fp)] reads the stream object: there is none behind [NULL]. *)
Definition fileno (fp : option FILE) : M FILE :=
  match fp with
  | Some fd => ret fd
  | None => undefined
  end.

(** [malloc(sizeof(datrie_dictionary))]. *)
Definition malloc_datrie_dictionary (o : os) : M ptr :=
  match malloc_dict o with
  | Some junk => alloc ByMalloc (Dict junk)
  | None => ret NULL
  end.

(** [malloc(size)] for a buffer of bytes. *)
Definition malloc (o : os) (size : Z) : M ptr :=
  if malloc_ok o
  then alloc ByMalloc (Bytes (map (malloc_junk o) (seq 0 (Z.to_nat size))))
  else ret NULL.

(** [mmap(NULL, size, PROT_READ, MAP_PRIVATE, fd, 0)]. The block holds the
    bytes of the file. A mapping is made of whole pages, and the rest of
    its last page reads as zero; these bytes are left out, so that a read
    past the end of the file is outside the block. Where a theorem
    concludes that such a read is undefined, it is stated for copies. *)
Definition mmap (o : os) (size : Z) (fd : FILE) : M ptr :=
  if mmap_ok o
  then alloc ByMmap (Bytes (take (Z.to_nat size) fd))
  else ret MAP_FAILED.

(** [munmap(addr, size)]: 0 or -1. *)
Definition munmap (o : os) (addr : ptr) (size : Z) : M Z := fun w =>
  if munmap_ok o then
    match addr with
    | Pblk b 0 =>
      match live w b with
      | Some (ByMmap, _) => Ret (0, with_heap (<[b := None]> (heap w)) w)
      | _ => Ret (0, w)
      end
    | _ => Ret (0, w)
    end
  else Ret (-1, w).

(** [lseek(fd, 0, SEEK_SET); read(fd, buf, size)]: the first bytes of the
    file replace the first bytes of the buffer, as many as the call
    transfers. The count [read] returns is not looked at. *)
Definition read (o : os) (fd : FILE) (buf : ptr) (size : Z) : M unit := fun w =>
  match buf with
  | Pblk b 0 =>
    match live w b with
    | Some (og, Bytes old) =>
      if Z.of_nat (length old) <? size then Undefined
      else
        let n := Nat.min (Nat.min (Z.to_nat size) (length fd)) (read_limit o) in
        Ret (tt, with_heap (<[b := Some (og, Bytes (take n fd ++ drop n old))]> (heap w)) w)
    | _ => Undefined
    end
  | _ => Undefined
  end.

Definition load_byte (w : world) (p : ptr) : option byte :=
  bs ← load_bytes w p 1; head bs.

Definition load_size_t (w : world) (p : ptr) : option Z :=
  decode_size_t <$> load_bytes w p 8.

Definition reading {A : Type} (f : world -> outcome A) : M A := fun w =>
  match f w with
  | Ret a => Ret (a, w)
  | Undefined => Undefined
  | Exhausted => Exhausted
  end.

(** [strlen] of a string literal [s]; the literal ends in a NUL that the
    list leaves out. *)
Fixpoint strlen (s : list byte) : Z :=
  match s with
  | [] => 0
  | c :: rest => if byte_val c =? 0 then 0 else 1 + strlen rest
  end.

(** [strncmp(s1, s2, n)] with [s1] in memory and [s2] a literal. *)
Fixpoint strncmp (w : world) (s1 : ptr) (s2 : list byte) (n : nat) : outcome Z :=
  match n with
  | O => Ret 0
  | S n' =>
    c1 ← defined (load_byte w s1);
    let c2 := match s2 with [] => x00 | c :: _ => c end in
    if negb (byte_val c1 =? byte_val c2) then Ret (byte_val c1 - byte_val c2)
    else if byte_val c1 =? 0 then Ret 0
    else strncmp w (ptr_add s1 1) (tail s2) n'
  end.

#[global] Instance byte_eq_decision : EqDecision byte := Byte.byte_eq_dec.

Section Datrie.

(** The two macros of [opencc_dictionary_datrie.h] that the file uses: the
    magic string every dictionary file starts with and the [base] of a node
    without children. *)
Variable OPENCC_DICHEADER : list byte.
Variable DATRIE_UNUSED : Z.

(** ** Memory provider *)

Definition load_allocate (o : os) (dd : ptr) (fd : FILE) : M Z :=
  run modify_dict dd (set_dic_memory_type MEMORY_TYPE_ALLOCATE);
  do d <- get_dict dd;
  do m <- malloc o (dic_size d);
  run modify_dict dd (set_dic_memory m);
  if ptr_eqb m NULL then ret (-1)
  else
    run read o fd m (dic_size d);
    ret 0.

Definition load_mmap (o : os) (dd : ptr) (fd : FILE) : M Z :=
  run modify_dict dd (set_dic_memory_type MEMORY_TYPE_MMAP);
  do d <- get_dict dd;
  do m <- mmap o (dic_size d) fd;
  run modify_dict dd (set_dic_memory m);
  if ptr_eqb m MAP_FAILED then
    run modify_dict dd (set_dic_memory NULL);
    ret (-1)
  else ret 0.

(** ** Parser *)

(** The part of [load_dict] after the memory is there. *)
Definition load_dict_parse (dd : ptr) : M Z :=
  let header_len := strlen OPENCC_DICHEADER in
  do d <- get_dict dd;
  do c <- reading (fun w => strncmp w (dic_memory d) OPENCC_DICHEADER (Z.to_nat header_len));
  if negb (c =? 0) then ret (-1)
  else
    let offset := 0 in
    let offset := size_add offset (size_mul header_len sizeof_char) in
    do n <- reading (fun w => defined (load_size_t w (ptr_add (dic_memory d) offset)));
    run modify_dict dd (set_lexicon_length n);
    let offset := size_add offset sizeof_size_t in
    do c <- reading (fun w => defined (load_size_t w (ptr_add (dic_memory d) offset)));
    run modify_dict dd (set_dat_item_count c);
    let offset := size_add offset sizeof_size_t in
    let lexicon_size := size_mul n sizeof_wchar_t in
    run modify_dict dd (set_lexicon (ptr_add (dic_memory d) offset));
    let offset := size_add offset lexicon_size in
    run modify_dict dd (set_dat (ptr_add (dic_memory d) offset));
    ret 0.

Definition load_dict (o : os) (dd : ptr) (fp : option FILE) : M Z :=
  do fd <- fileno fp;
  run modify_dict dd (set_dic_size (Z.of_nat (length fd)));
  do r <- load_mmap o dd fd;
  do acquired <- (if r =? -1 then load_allocate o dd fd else ret 0);
  if acquired =? -1 then ret (-1)
  else load_dict_parse dd.

(** ** Teardown *)

Definition unload_dict (o : os) (dd : ptr) : M Z :=
  do d <- get_dict dd;
  if negb (ptr_eqb (dic_memory d) NULL) then
    if MEMORY_TYPE_MMAP =? dic_memory_type d then
      munmap o (dic_memory d) (dic_size d)
    else if MEMORY_TYPE_ALLOCATE =? dic_memory_type d then
      run free (dic_memory d);
      ret 0
    else ret (-1)
  else ret 0.

Definition dict_datrie_close (o : os) (dp : ptr) : M Z :=
  let dd := dp in
  do r <- unload_dict o dd;
  if r =? -1 then
    run free dd;
    ret (-1)
  else
    run free dd;
    ret 0.

(** ** Entry point *)

Definition dict_datrie_open (o : os) (filename : string) : M ptr :=
  do dd <- malloc_datrie_dictionary o;
  run modify_dict dd (set_dat NULL);
  run modify_dict dd (set_lexicon NULL);
  do fp <- fopen o filename;
  do r <- load_dict o dd fp;
  if r =? -1 then
    run dict_datrie_close o dd;
    ret (Pint (to_size_t (-1)))
  else
    run fclose fp;
    ret dd.

(** ** Trie matcher *)

(** [dd->dat[i]], [dd->dat_item_count] and [dd->lexicon] for a
    [datrie_dictionary *dd]. An item is read as a whole, where the program
    reads one field at a time: an item that lies partly outside its block
    cannot be read here. Where a theorem concludes that a read leaves the
    block, it says which field lies outside. *)
Definition item_at (w : world) (dd : ptr) (i : Z) : option DoubleArrayTrieItem :=
  d ← dict_at w dd;
  decode_item <$> load_bytes w (ptr_add (dat d) (sizeof_item * i)) 12.

Definition count_at (w : world) (dd : ptr) : option Z :=
  dat_item_count <$> dict_at w dd.

Definition lexicon_at (w : world) (dd : ptr) : option ptr :=
  lexicon <$> dict_at w dd.

Definition encode_char (ch : Z) : Z := to_int ch.

(** The loop of [datrie_match], entered at node [i] and position [p] with
    [rest] the input from [p] on. The input is a wide string: it ends at
    its first 0, or where the list ends (the terminator is left out of the
    list). [p] counts characters of that string, so it stays far below
    2^64 and [p ++] never wraps. *)
Fixpoint datrie_match_from (w : world) (dd : ptr) (limit : Z) (rest : list Z)
    (i p : Z) : outcome (Z * Z) :=
  match rest with
  | [] => Ret (p, i)
  | c :: rest' =>
    if c =? 0 then Ret (p, i)
    else if negb ((limit =? 0) || (p <? limit)) then Ret (p, i)
    else
      it ← defined (item_at w dd i);
      if base it =? DATRIE_UNUSED then Ret (p, i)
      else
        let k := encode_char c in
        let j := int_add (base it) k in
        if j <? 0 then Ret (p, i)
        else
          n ← defined (count_at w dd);
          if to_size_t j >=? n then Ret (p, i)
          else
            itj ← defined (item_at w dd j);
            if negb (to_size_t (parent itj) =? i) then Ret (p, i)
            else datrie_match_from w dd limit rest' (to_size_t j) (p + 1)
  end.

(** [datrie_match]: the pair is [( *match_pos, *id )]; both callers pass
    the two addresses. *)
Definition datrie_match (w : world) (dd : ptr) (input : list Z) (limit : Z)
  : outcome (Z * Z) :=
  datrie_match_from w dd limit input 0 0.

(** The [while] loop of [dict_datrie_match_longest], with a budget of
    iterations. *)
Fixpoint match_longest_loop (fuel : nat) (w : world) (dd : ptr) (input : list Z)
    (pos item : Z) : outcome (Z * Z) :=
  it ← defined (item_at w dd item);
  if (word it =? -1) && (pos >? 1) then
    match fuel with
    | O => Exhausted
    | S fuel' =>
      r ← datrie_match w dd input (pos - 1);
      match_longest_loop fuel' w dd input (fst r) (snd r)
    end
  else Ret (pos, item).

Definition match_longest_with (fuel : nat) (w : world) (dp : ptr)
    (input : list Z) (length : Z) : outcome ptr :=
  let dd := dp in
  r ← datrie_match w dd input length;
  r ← match_longest_loop fuel w dd input (fst r) (snd r);
  let pos := fst r in
  let item := snd r in
  if pos =? 0 then Ret NULL
  else
    it ← defined (item_at w dd item);
    if word it =? -1 then Ret NULL
    else
      lex ← defined (lexicon_at w dd);
      Ret (ptr_add lex (sizeof_wchar_t * word it)).

(** [dict_datrie_match_longest]: one iteration for every character of the
    input is a budget the loop never uses up
    ([match_longest_loop_terminates]). *)
Definition dict_datrie_match_longest (w : world) (dp : ptr) (input : list Z)
    (length : Z) : outcome ptr :=
  match_longest_with (List.length input) w dp input length.

(** [match_length[rscnt] = v] in a buffer of [length match_length] slots. *)
Definition store (match_length : list Z) (rscnt : Z) (v : Z) : option (list Z) :=
  if (0 <=? rscnt) && (rscnt <? Z.of_nat (length match_length))
  then Some (<[Z.to_nat rscnt := v]> match_length)
  else None.

(** The loop of [dict_datrie_get_all_match_lengths]. *)
Fixpoint all_match_lengths_from (w : world) (dd : ptr) (rest : list Z)
    (i p : Z) (match_length : list Z) (rscnt : Z) : outcome (Z * list Z) :=
  match rest with
  | [] => Ret (rscnt, match_length)
  | c :: rest' =>
    if c =? 0 then Ret (rscnt, match_length)
    else
      it ← defined (item_at w dd i);
      if base it =? DATRIE_UNUSED then Ret (rscnt, match_length)
      else
        let k := encode_char c in
        let j := int_add (base it) k in
        if j <? 0 then Ret (rscnt, match_length)
        else
          n ← defined (count_at w dd);
          if to_size_t j >=? n then Ret (rscnt, match_length)
          else
            itj ← defined (item_at w dd j);
            if negb (to_size_t (parent itj) =? i) then Ret (rscnt, match_length)
            else
              let i := to_size_t j in
              iti ← defined (item_at w dd i);
              if negb (word iti =? -1) then
                buf ← defined (store match_length rscnt (p + 1));
                all_match_lengths_from w dd rest' i (p + 1) buf (rscnt + 1)
              else all_match_lengths_from w dd rest' i (p + 1) match_length rscnt
  end.

(** [dict_datrie_get_all_match_lengths]: the count returned and the
    caller's buffer as the call leaves it. *)
Definition dict_datrie_get_all_match_lengths (w : world) (dp : ptr)
    (input : list Z) (match_length : list Z) : outcome (Z * list Z) :=
  let dd := dp in
  all_match_lengths_from w dd input 0 0 match_length 0.

(** [dict_datrie_get_lexicon] has no body yet. *)
Definition dict_datrie_get_lexicon (dp : ptr) : Z := 0.

(** ** Vocabulary of the specification *)

(** No object is larger than this many bytes. *)
Definition PTRDIFF_MAX : Z := 2 ^ 63 - 1.

(** The table of [dd] lies in live memory: the structure is live, the table
    has a root, every index below [dat_item_count] can be read, and the
    table is no larger than an object can be. *)
Definition table_in_memory (w : world) (dd : ptr) : Prop :=
  ∃ d, dict_at w dd = Some d
       ∧ 0 < dat_item_count d
       ∧ sizeof_item * dat_item_count d ≤ PTRDIFF_MAX
       ∧ ∀ j, 0 ≤ j < dat_item_count d → is_Some (item_at w dd j).

(** A node is terminal when its [word] is not the "no entry" mark. *)
Definition terminal (it : DoubleArrayTrieItem) : Prop := word it ≠ -1.

(** The transition from node [i] via character code [k], as the data model
    defines it: the candidate [j = items[i].base + k] (an [int] sum) is the
    child when [0 ≤ j < item_count] and [items[j].parent = i]. *)
Definition transition (w : world) (dd : ptr) (i k : Z) : option Z :=
  it ← item_at w dd i;
  n ← count_at w dd;
  let j := int_add (base it) (encode_char k) in
  if decide (0 ≤ j < n) then
    itj ← item_at w dd j;
    if decide (parent itj = i) then Some j else None
  else None.

(** The node that the characters of [key] lead to from node [i]: every
    character is a character (not the terminator), is read at a node that
    has children, and is a valid transition. *)
Fixpoint node_of (w : world) (dd : ptr) (key : list Z) (i : Z) : option Z :=
  match key with
  | [] => Some i
  | c :: key' =>
    if decide (c = 0) then None
    else
      it ← item_at w dd i;
      if decide (base it = DATRIE_UNUSED) then None
      else j ← transition w dd i c; node_of w dd key' j
  end.

(** [key] is an entry of the dictionary whose [word] offset is [off]. *)
Definition entry (w : world) (dd : ptr) (key : list Z) (off : Z) : Prop :=
  ∃ i it, node_of w dd key 0 = Some i ∧ item_at w dd i = Some it
          ∧ terminal it ∧ off = word it.

(** Two worlds that no query tells apart: the same bytes everywhere and,
    behind every pointer, structures with the same views. *)
Definition views (d : datrie_dictionary) : ptr * Z * ptr * Z :=
  (dat d, dat_item_count d, lexicon d, lexicon_length d).

Definition same_for_queries (w1 w2 : world) : Prop :=
  (∀ p n, load_bytes w1 p n = load_bytes w2 p n)
  ∧ (∀ p, views <$> dict_at w1 p = views <$> dict_at w2 p).

(** ** Vocabulary of the proofs *)

Definition in_table (d : datrie_dictionary) (i : Z) : Prop :=
  0 ≤ i < dat_item_count d.

(** Why the walk is at its end after [n] characters of [rest]: the input
    has no further character, the limit is reached, or the next character
    leads nowhere. *)
Definition walk_ends (w : world) (dd : ptr) (limit : Z) (rest : list Z)
    (i p : Z) (n : nat) : Prop :=
  n = length rest
  ∨ (limit ≠ 0 ∧ limit ≤ p + Z.of_nat n)
  ∨ node_of w dd (take (S n) rest) i = None.

(** The prefix of [m] characters of [rest] leads from [i] to a terminal
    node. *)
Definition terminal_after (w : world) (dd : ptr) (rest : list Z) (i : Z)
    (m : nat) : Prop :=
  ∃ i' it, node_of w dd (take m rest) i = Some i'
           ∧ item_at w dd i' = Some it ∧ terminal it.

(** The tests of one iteration of a walk at node [i] with the character
    [c]: the node to go on from, if there is one. *)
Definition walk_step (w : world) (dd : ptr) (c i : Z) : outcome (option Z) :=
  if c =? 0 then Ret None
  else
    it ← defined (item_at w dd i);
    if base it =? DATRIE_UNUSED then Ret None
    else
      let j := int_add (base it) (encode_char c) in
      if j <? 0 then Ret None
      else
        n ← defined (count_at w dd);
        if to_size_t j >=? n then Ret None
        else
          itj ← defined (item_at w dd j);
          if negb (to_size_t (parent itj) =? i) then Ret None
          else Ret (Some (to_size_t j)).

(** The structure after a successful parse of the bytes [bs] mapped or
    copied at [mem]. *)
Definition parsed (mem : ptr) (bs : list byte) (d : datrie_dictionary)
  : datrie_dictionary :=
  let hl := strlen OPENCC_DICHEADER in
  let n := decode_size_t (take 8 (drop (Z.to_nat hl) bs)) in
  let c := decode_size_t (take 8 (drop (Z.to_nat (hl + 8)) bs)) in
  set_dat (ptr_add mem (size_add (hl + 16) (size_mul n sizeof_wchar_t)))
    (set_lexicon (ptr_add mem (hl + 16))
       (set_dat_item_count c (set_lexicon_length n d))).

(** The region begins with the magic header. *)
Definition header_matches (bs : list byte) : Prop :=
  take (Z.to_nat (strlen OPENCC_DICHEADER)) bs
  = take (Z.to_nat (strlen OPENCC_DICHEADER)) OPENCC_DICHEADER.

#[global] Instance header_matches_dec bs : Decision (header_matches bs).
Proof. unfold header_matches. apply _. Defined.

End Datrie.

(** ** Worlds, as the proofs describe them *)

(** A world seen from one block: [h] with block [b] holding [x], followed
    by the blocks [extra] handed out since, and [s] open streams. *)
Definition shape (h : list (option (origin * cell))) (b : nat)
    (x : option (origin * cell)) (extra : list (option (origin * cell)))
    (s : nat) : world :=
  {| heap := <[b := x]> h ++ extra; streams := s |}.

(** The handle can be closed: its storage came from [malloc], and so did
    the region when the handle says so. *)
Definition closable (w : world) (dp : ptr) (d : datrie_dictionary) : Prop :=
  ∃ hb, dp = Pblk hb 0 ∧ live w hb = Some (ByMalloc, Dict d)
        ∧ (dic_memory d ≠ NULL → dic_memory_type d = MEMORY_TYPE_ALLOCATE →
           ∃ rb bs, dic_memory d = Pblk rb 0
                    ∧ live w rb = Some (ByMalloc, Bytes bs)).

(** What [unload_dict] returns. *)
Definition unload_result (o : os) (d : datrie_dictionary) : Z :=
  if ptr_eqb (dic_memory d) NULL then 0
  else if MEMORY_TYPE_MMAP =? dic_memory_type d
       then (if munmap_ok o then 0 else -1)
       else if MEMORY_TYPE_ALLOCATE =? dic_memory_type d then 0 else -1.

(** What the memory provider obtains for a file that holds [bs]: where the
    region comes from and what it holds. A copy holds the bytes that [read]
    transferred, followed by what [malloc] left there. *)
Definition acquire (o : os) (bs : list byte) : option (origin * list byte) :=
  if mmap_ok o then Some (ByMmap, bs)
  else if malloc_ok o then
    Some (ByMalloc,
          let n := Nat.min (length bs) (read_limit o) in
          take n bs ++ drop n (map (malloc_junk o) (seq 0 (length bs))))
  else None.

(** The structure once the memory provider is done. *)
Definition acquired_dict (mem : ptr) (ty : memory_type) (size : Z)
    (d : datrie_dictionary) : datrie_dictionary :=
  {| dat := dat d; dat_item_count := dat_item_count d; lexicon := lexicon d;
     lexicon_length := lexicon_length d; dic_memory := mem;
     dic_size := size; dic_memory_type := ty |}.

Definition memory_type_of (r : origin) : memory_type :=
  match r with
  | ByMmap => MEMORY_TYPE_MMAP
  | ByMalloc => MEMORY_TYPE_ALLOCATE
  end.

(** The world in which [dict_datrie_open] calls [load_dict]: the fresh
    structure with its two views cleared, and one more open stream. *)
Definition world_at_load (w : world) (junk : datrie_dictionary) : world :=
  {| heap := heap w ++ [Some (ByMalloc, Dict (set_lexicon NULL (set_dat NULL junk)))];
     streams := S (streams w) |}.

(** The structure of an open dictionary whose region, obtained the way [r]
    says, is block [rb] and holds [content], for a file of [size] bytes. *)
Definition opened_dict (header : list byte) (rb : nat) (r : origin)
    (content : list byte) (size : Z) : datrie_dictionary :=
  let hl := strlen header in
  let n := decode_size_t (take 8 (drop (Z.to_nat hl) content)) in
  {| dat := Pblk rb (0 + size_add (hl + 16) (size_mul n sizeof_wchar_t));
     dat_item_count := decode_size_t (take 8 (drop (Z.to_nat (hl + 8)) content));
     lexicon := Pblk rb (0 + (hl + 16));
     lexicon_length := n;
     dic_memory := Pblk rb 0;
     dic_size := size;
     dic_memory_type := memory_type_of r |}.

(** The world after a successful [dict_datrie_open] in [w]: two more
    blocks, the structure and the region, and the stream closed again. *)
Definition opened_world (header : list byte) (w : world) (r : origin)
    (content : list byte) (size : Z) : world :=
  {| heap := heap w
             ++ [Some (ByMalloc,
                       Dict (opened_dict header (S (length (heap w))) r content size));
                 Some (r, Bytes content)];
     streams := streams w |}.

(** The test a caller makes on the result of [dict_datrie_open]. *)
Definition is_null (p : ptr) : bool := ptr_eqb p NULL.

(** One call of a sequence, in a world of known shape; the rules are the
    lemmas on [shape]. *)
Create Rewrite HintDb world_run.
Ltac run_step := unfold bind at 1; autorewrite with world_run.

(** Case analysis along the tests of a loop body. *)
Ltac loop_cases :=
  repeat match goal with
  | |- context [defined ?o ≫= _] => destruct o; simpl
  | |- context [if ?b then _ else _] => destruct b eqn:?; simpl
  end.

(** ** What a caller reads through a returned [const wchar_t *] *)

Fixpoint wide_string_at (n : nat) (w : world) (p : ptr) : outcome (list Z) :=
  match n with
  | O => Exhausted
  | S n' =>
    c ← defined (decode_int <$> load_bytes w p 4);
    if c =? 0 then Ret []
    else
      rest ← wide_string_at n' w (ptr_add p sizeof_wchar_t);
      Ret (c :: rest)
  end.

(** ** Dictionary files for tests

    The layout the dictionary builder writes: the header, the two counts,
    the lexicon, the table. *)

Definition byte_of (z : Z) : byte :=
  match Byte.of_N (Z.to_N (z mod 256)) with
  | Some b => b
  | None => x00
  end.

Fixpoint encode_le (n : nat) (z : Z) : list byte :=
  match n with
  | O => []
  | S n' => byte_of z :: encode_le n' (z / 256)
  end.

Definition encode_item (it : DoubleArrayTrieItem) : list byte :=
  encode_le 4 (base it) ++ encode_le 4 (parent it) ++ encode_le 4 (word it).

Definition dictionary_file (header : list byte) (lex : list Z)
    (items : list DoubleArrayTrieItem) : list byte :=
  header ++ encode_le 8 (Z.of_nat (length lex))
         ++ encode_le 8 (Z.of_nat (length items))
         ++ flat_map (encode_le 4) lex
         ++ flat_map encode_item items.

Definition test_header : list byte := list_byte_of_string "OPENCCDATRIE".
Definition test_unused : Z := -1.

Definition item (b p wd : Z) : DoubleArrayTrieItem :=
  {| base := b; parent := p; word := wd |}.

Definition chr (s : string) : Z :=
  match list_byte_of_string s with
  | c :: _ => byte_val c
  | [] => 0
  end.

Definition wide (s : string) : list Z := map byte_val (list_byte_of_string s).

(** The keys AB and ABC. Nodes: 0 the root, 1 after A, 2 after AB, 3 after
    ABC. The lexicon holds the two entries, each followed by its
    terminator. *)
Definition ab_abc_lexicon : list Z := wide "AB" ++ [0] ++ wide "ABC" ++ [0].

Definition ab_abc_items : list DoubleArrayTrieItem :=
  [ item (1 - chr "A") (-1) (-1);
    item (2 - chr "B") 0 (-1);
    item (3 - chr "C") 1 0;
    item test_unused 2 3 ].

Definition ab_abc_file : list byte :=
  dictionary_file test_header ab_abc_lexicon ab_abc_items.

Definition junk_dict : datrie_dictionary :=
  {| dat := Pint 7; dat_item_count := 99; lexicon := Pint 5; lexicon_length := 3;
     dic_memory := Pint 1; dic_size := 11; dic_memory_type := 5 |}.

(** A system on which [name] holds [bs], with [mmap] working or not. *)
Definition test_os (name : string) (bs : list byte) (can_mmap : bool) : os :=
  {| files := fun f => if String.eqb f name then Some bs else None;
     malloc_dict := Some junk_dict;
     mmap_ok := can_mmap;
     malloc_ok := true;
     malloc_junk := fun _ => "U"%byte;
     read_limit := length bs;
     munmap_ok := true |}.

Definition empty_world : world := {| heap := []; streams := 0 |}.

Definition world_of {A : Type} (r : outcome (A * world)) : world :=
  match r with
  | Ret (_, w) => w
  | _ => empty_world
  end.

Definition ab_abc_open (can_mmap : bool) : outcome (ptr * world) :=
  dict_datrie_open test_header (test_os "ab_abc.ocd" ab_abc_file can_mmap)
    "ab_abc.ocd" empty_world.

Definition ab_abc_world : world := world_of (ab_abc_open true).
Definition ab_abc_handle : ptr := Pblk 0 0.

(** The structure of the handle on that file. *)
Definition ab_abc_dict : datrie_dictionary :=
  {| dat := Pblk 1 56; dat_item_count := 4; lexicon := Pblk 1 28;
     lexicon_length := 7; dic_memory := Pblk 1 0; dic_size := 104;
     dic_memory_type := MEMORY_TYPE_MMAP |}.

(** A file whose header declares a lexicon and a table that are not
    there. *)
Definition truncated_file : list byte :=
  test_header ++ encode_le 8 1000 ++ encode_le 8 1000.

(** A file with another header. *)
Definition bad_file : list byte :=
  list_byte_of_string "OPENCCDATRIX" ++ encode_le 8 0 ++ encode_le 8 0.

(** A file that ends inside the header. *)
Definition short_file : list byte := list_byte_of_string "OPENCC".

(** The test dictionary opened a second time, beside the first handle. *)
Definition two_handles_world : world :=
  world_of (dict_datrie_open test_header (test_os "ab_abc.ocd" ab_abc_file true)
              "ab_abc.ocd" ab_abc_world).
Definition second_handle : ptr := Pblk 2 0.
Definition second_dict : datrie_dictionary :=
  {| dat := Pblk 3 56; dat_item_count := 4; lexicon := Pblk 3 28;
     lexicon_length := 7; dic_memory := Pblk 3 0; dic_size := 104;
     dic_memory_type := MEMORY_TYPE_MMAP |}.

(** * Properties *)

(** ** Machine integers *)

Lemma to_size_t_id z : 0 ≤ z < 2 ^ 64 → to_size_t z = z.
Proof. intros H. unfold to_size_t. apply Z.mod_small. lia. Qed.

Lemma to_int_id z : INT_MIN ≤ z ≤ INT_MAX → to_int z = z.
Proof.
  unfold to_int, INT_MIN, INT_MAX. intros H.
  rewrite Z.mod_small; lia.
Qed.

Lemma to_int_range z : INT_MIN ≤ to_int z ≤ INT_MAX.
Proof.
  unfold to_int, INT_MIN, INT_MAX.
  pose proof (Z.mod_pos_bound (z + 2 ^ 31) (2 ^ 32) ltac:(lia)). lia.
Qed.

Lemma decode_int_range bs : INT_MIN ≤ decode_int bs ≤ INT_MAX.
Proof. apply to_int_range. Qed.

Lemma decode_item_parent_range bs :
  INT_MIN ≤ parent (decode_item bs) ≤ INT_MAX.
Proof. apply decode_int_range. Qed.

(** An [int] converted to [size_t] equals an index below 2^63 exactly when
    the two are the same number. *)
Lemma parent_compare (par i : Z) :
  INT_MIN ≤ par ≤ INT_MAX → 0 ≤ i ≤ PTRDIFF_MAX →
  (to_size_t par =? i) = true ↔ par = i.
Proof.
  unfold INT_MIN, INT_MAX, PTRDIFF_MAX, to_size_t. intros Hp Hi.
  rewrite Z.eqb_eq. split.
  - intros H. destruct (Z_lt_le_dec par 0) as [Hn | Hn].
    + assert (E : par + 2 ^ 64 = par mod 2 ^ 64)
        by (apply Z.mod_unique with (-1); lia).
      lia.
    + rewrite Z.mod_small in H; lia.
  - intros ->. apply Z.mod_small. lia.
Qed.

#[local] Arguments datrie_match : simpl never.

Section Matcher.

Variable DATRIE_UNUSED : Z.

Local Abbreviation datrie_match_from := (datrie_match_from DATRIE_UNUSED).
Local Abbreviation datrie_match := (datrie_match DATRIE_UNUSED).
Local Abbreviation node_of := (node_of DATRIE_UNUSED).
Local Abbreviation entry := (entry DATRIE_UNUSED).
Local Abbreviation walk_ends := (walk_ends DATRIE_UNUSED).
Local Abbreviation match_longest_loop := (match_longest_loop DATRIE_UNUSED).
Local Abbreviation match_longest_with := (match_longest_with DATRIE_UNUSED).
Local Abbreviation dict_datrie_match_longest := (dict_datrie_match_longest DATRIE_UNUSED).
Local Abbreviation all_match_lengths_from := (all_match_lengths_from DATRIE_UNUSED).
Local Abbreviation dict_datrie_get_all_match_lengths :=
  (dict_datrie_get_all_match_lengths DATRIE_UNUSED).

(** ** Reading the table *)

Lemma item_at_parent_range w dd i it :
  item_at w dd i = Some it → INT_MIN ≤ parent it ≤ INT_MAX.
Proof.
  unfold item_at. destruct (dict_at w dd) as [d|]; simpl; [|done].
  destruct (load_bytes _ _ _); simpl; [|done].
  intros [= <-]. apply decode_item_parent_range.
Qed.

Lemma count_at_dict w dd d : dict_at w dd = Some d → count_at w dd = Some (dat_item_count d).
Proof. unfold count_at. by intros ->. Qed.

Lemma in_table_bound d i :
  sizeof_item * dat_item_count d ≤ PTRDIFF_MAX → in_table d i → 0 ≤ i ≤ PTRDIFF_MAX.
Proof. unfold in_table, sizeof_item, sizeof_int. lia. Qed.

Lemma int_add_range a b : INT_MIN ≤ int_add a b ≤ INT_MAX.
Proof. apply to_int_range. Qed.

(** ** Positions of the walk, for every handle *)

(** The walk never moves back, consumes at most what is left of the input,
    and, when it moves at all, does not pass a limit that is set. *)
Lemma datrie_match_from_bounds w dd limit rest : ∀ i p r,
  datrie_match_from w dd limit rest i p = Ret r →
  p ≤ r.1 ≤ p + Z.of_nat (length rest) ∧ (r.1 = p ∨ limit = 0 ∨ r.1 ≤ limit).
Proof.
  induction rest as [|c rest IH]; intros i p r; simpl.
  - intros [= <-]. simpl. lia.
  - loop_cases; try (intros [= <-]; simpl; lia); try done.
    intros Hr. apply IH in Hr.
    match goal with H : negb _ = false |- _ =>
      apply negb_false_iff, orb_true_iff in H; destruct H as [H | H];
      [apply Z.eqb_eq in H | apply Z.ltb_lt in H] end; lia.
Qed.

(** The walk has no budget to run out of. *)
Lemma datrie_match_from_returns w dd limit rest : ∀ i p,
  datrie_match_from w dd limit rest i p ≠ Exhausted.
Proof.
  induction rest as [|c rest IH]; intros i p; simpl; [done|].
  loop_cases; done.
Qed.

(** ** One iteration of the walk *)

Section Loaded.

Variables (w : world) (dd : ptr) (d : datrie_dictionary).
Hypothesis Hdict : dict_at w dd = Some d.
Hypothesis Hroot : 0 < dat_item_count d.
Hypothesis Hsize : sizeof_item * dat_item_count d ≤ PTRDIFF_MAX.
Hypothesis Hread : ∀ j, 0 ≤ j < dat_item_count d → is_Some (item_at w dd j).

Lemma transition_in_table i k j : transition w dd i k = Some j → in_table d j.
Proof.
  unfold transition. rewrite (count_at_dict _ _ _ Hdict).
  destruct (item_at w dd i) as [it|]; simpl; [|done].
  case_decide as Hj; [|done].
  destruct (item_at w dd _) as [itj|]; simpl; [|done].
  case_decide; [|done]. intros [= <-]. exact Hj.
Qed.

(** The test the loop makes is the transition of the data model. *)
Lemma loop_body limit c rest i p it :
  in_table d i → c ≠ 0 → limit = 0 ∨ p < limit →
  item_at w dd i = Some it → base it ≠ DATRIE_UNUSED →
  datrie_match_from w dd limit (c :: rest) i p =
    match transition w dd i c with
    | Some j => datrie_match_from w dd limit rest j (p + 1)
    | None => Ret (p, i)
    end.
Proof.
  intros Hi Hc Hl Hit Hb. simpl.
  destruct (Z.eqb_spec c 0) as [|_]; [done|].
  assert (Hg : (limit =? 0) || (p <? limit) = true).
  { destruct Hl as [-> | Hl]; [done|].
    apply orb_true_iff. right. by apply Z.ltb_lt. }
  rewrite Hg. simpl. rewrite Hit. simpl.
  destruct (Z.eqb_spec (base it) DATRIE_UNUSED) as [|_]; [done|].
  unfold transition. rewrite Hit, (count_at_dict _ _ _ Hdict). simpl.
  set (j := int_add (base it) (encode_char c)).
  pose proof (int_add_range (base it) (encode_char c)) as Hj. fold j in Hj.
  destruct (Z.ltb_spec j 0) as [Hneg | Hpos].
  { case_decide; [lia | done]. }
  assert (Ej : to_size_t j = j).
  { apply to_size_t_id. unfold INT_MAX in Hj. lia. }
  rewrite Ej.
  destruct (Z.geb_spec j (dat_item_count d)) as [Hge | Hlt].
  { case_decide; [lia | done]. }
  case_decide as Hin; [|lia].
  destruct (Hread j Hin) as [itj Hitj]. rewrite Hitj. simpl.
  pose proof (parent_compare (parent itj) i
                (item_at_parent_range _ _ _ _ Hitj)
                (in_table_bound _ _ Hsize Hi)) as Hcmp.
  destruct (Z.eqb_spec (to_size_t (parent itj)) i) as [He | Hne]; simpl.
  - case_decide as Hp; [done|]. exfalso. apply Hp. by apply Hcmp.
  - case_decide as Hp; [|done]. apply Hcmp in Hp. discriminate.
Qed.

Lemma node_of_app w' dd' key1 key2 i :
  node_of w' dd' (key1 ++ key2) i = (node_of w' dd' key1 i ≫= node_of w' dd' key2).
Proof.
  revert i. induction key1 as [|c key1 IH]; intros i; simpl; [done|].
  case_decide; [done|].
  destruct (item_at w' dd' i) as [it|]; simpl; [|done].
  case_decide; [done|].
  destruct (transition w' dd' i c) as [j|]; simpl; [|done].
  apply IH.
Qed.

Lemma node_of_in_table key i j :
  in_table d i → node_of w dd key i = Some j → in_table d j.
Proof.
  revert i. induction key as [|c key IH]; intros i Hi; simpl.
  - by intros [= <-].
  - case_decide; [done|].
    destruct (item_at w dd i) as [it|]; simpl; [|done].
    case_decide; [done|].
    destruct (transition w dd i c) as [k|] eqn:Hk; simpl; [|done].
    apply IH. by eapply transition_in_table.
Qed.

(** The loop from [(i, p)] consumes some [n] characters of [rest]: they
    lead from [i] to the node returned, no step passes the limit, and the
    walk is at its end there. *)
Lemma datrie_match_from_walk limit rest : ∀ i p,
  in_table d i →
  ∃ (n : nat) (i' : Z),
    datrie_match_from w dd limit rest i p = Ret (p + Z.of_nat n, i')
    ∧ (n ≤ length rest)%nat
    ∧ node_of w dd (take n rest) i = Some i'
    ∧ (n = 0%nat ∨ limit = 0 ∨ p + Z.of_nat n ≤ limit)
    ∧ walk_ends w dd limit rest i p n.
Proof.
  induction rest as [|c rest IH]; intros i p Hi.
  { exists 0%nat, i. simpl. rewrite Z.add_0_r.
    repeat split; [lia | by left | by left]. }
  assert (Hstop : ∀ P : Prop, P →
    (P → datrie_match_from w dd limit (c :: rest) i p = Ret (p, i)) →
    (P → (limit ≠ 0 ∧ limit ≤ p) ∨ node_of w dd [c] i = None) →
    ∃ (n : nat) (i' : Z),
      datrie_match_from w dd limit (c :: rest) i p = Ret (p + Z.of_nat n, i')
      ∧ (n ≤ length (c :: rest))%nat
      ∧ node_of w dd (take n (c :: rest)) i = Some i'
      ∧ (n = 0%nat ∨ limit = 0 ∨ p + Z.of_nat n ≤ limit)
      ∧ walk_ends w dd limit (c :: rest) i p n).
  { intros P HP Hret Hwhy. exists 0%nat, i. rewrite Z.add_0_r.
    repeat split; [by apply Hret | simpl; lia | by left |].
    unfold walk_ends. rewrite Z.add_0_r. right.
    destruct (Hwhy HP) as [? | ?]; [by left | right].
    change (take 1 (c :: rest)) with (c :: take 0 rest). by rewrite take_0. }
  destruct (decide (c = 0)) as [Hc0 | Hc].
  { apply (Hstop (c = 0) Hc0).
    - intros ->. done.
    - intros _. right. simpl. by rewrite decide_True. }
  destruct (decide (limit = 0 ∨ p < limit)) as [Hl | Hl]; cycle 1.
  { apply (Hstop _ Hl).
    - intros _. simpl. destruct (Z.eqb_spec c 0); [done|].
      destruct (Z.eqb_spec limit 0); [exfalso; apply Hl; by left|].
      destruct (Z.ltb_spec p limit); [exfalso; apply Hl; by right|]. done.
    - intros _. left. split; [intros ->; apply Hl; by left | lia]. }
  destruct (Hread i Hi) as [it Hit].
  destruct (decide (base it = DATRIE_UNUSED)) as [Hb | Hb].
  { apply (Hstop _ Hb).
    - intros _. simpl. destruct (Z.eqb_spec c 0); [done|].
      replace ((limit =? 0) || (p <? limit)) with true; cycle 1.
      { symmetry. destruct Hl as [-> | Hl']; [done|].
        apply orb_true_iff. right. by apply Z.ltb_lt. }
      simpl. rewrite Hit. simpl. by rewrite Hb, Z.eqb_refl.
    - intros _. right. simpl. case_decide; [done|]. rewrite Hit. simpl.
      by case_decide. }
  pose proof (loop_body limit c rest i p it Hi Hc Hl Hit Hb) as Hbody.
  destruct (transition w dd i c) as [j|] eqn:Hj; cycle 1.
  { apply (Hstop True I).
    - intros _. exact Hbody.
    - intros _. right. simpl. case_decide; [done|]. rewrite Hit. simpl.
      case_decide; [done|]. by rewrite Hj. }
  destruct (IH j (p + 1) (transition_in_table _ _ _ Hj))
    as (n & i' & Hrun & Hlen & Hnode & Hlim & Hend).
  assert (Hkey : ∀ m, node_of w dd (take (S m) (c :: rest)) i
                      = node_of w dd (take m rest) j).
  { intros m. simpl. case_decide; [done|]. rewrite Hit. simpl.
    case_decide; [done|]. by rewrite Hj. }
  exists (S n), i'. rewrite Hbody, Hrun.
  repeat split.
  - f_equal. f_equal. lia.
  - simpl. lia.
  - by rewrite Hkey.
  - right. destruct Hlim as [-> | [? | ?]]; [|by left|right; lia].
    destruct Hl as [? | ?]; [by left | right; lia].
  - unfold walk_ends in *. destruct Hend as [-> | [[? ?] | Hnone]].
    + by left.
    + right. left. split; [done | lia].
    + right. right. by rewrite Hkey.
Qed.

(** A key that leads somewhere leads somewhere after each of its
    prefixes. *)
Lemma node_of_prefix key i j (m : nat) :
  node_of w dd key i = Some j → is_Some (node_of w dd (take m key) i).
Proof.
  intros H. rewrite <- (take_drop m key), node_of_app in H.
  destruct (node_of w dd (take m key) i); [by eexists | done].
Qed.

Lemma node_of_take_prefix input (n m : nat) i j :
  (m ≤ n)%nat → node_of w dd (take n input) i = Some j →
  is_Some (node_of w dd (take m input) i).
Proof.
  intros Hmn H. apply (node_of_prefix _ _ _ m) in H.
  by rewrite take_take, Nat.min_l in H.
Qed.

(** One more character: the step from the node reached so far. *)
Lemma node_of_take_S input (n : nat) c i :
  input !! n = Some c →
  node_of w dd (take (S n) input) i = (node_of w dd (take n input) i ≫= node_of w dd [c]).
Proof.
  intros Hc. by rewrite (take_S_r _ _ _ Hc), node_of_app.
Qed.

Lemma node_of_one c i :
  node_of w dd [c] i =
    if decide (c = 0) then None
    else it ← item_at w dd i;
         if decide (base it = DATRIE_UNUSED) then None else transition w dd i c.
Proof.
  simpl. case_decide; [done|].
  destruct (item_at w dd i) as [it|]; simpl; [|done].
  case_decide; [done|]. by destruct (transition w dd i c).
Qed.

(** The walk goes at least as far as any prefix that leads somewhere and is
    within the limit. *)
Lemma walk_reaches limit input (n q : nat) i :
  walk_ends w dd limit input 0 0 n → (n ≤ length input)%nat →
  (q ≤ length input)%nat → limit = 0 ∨ Z.of_nat q ≤ limit →
  node_of w dd (take q input) 0 = Some i → (q ≤ n)%nat.
Proof.
  intros Hend Hn Hq Hl Hnode.
  destruct (Nat.le_gt_cases q n) as [|Hlt]; [done|]. exfalso.
  destruct Hend as [-> | [[? ?] | Hnone]]; [lia | lia |].
  destruct (node_of_take_prefix input q (S n) 0 i ltac:(lia) Hnode) as [? E].
  congruence.
Qed.

(** Walking again with a limit inside what was already walked ends exactly
    at that limit, at the node the shorter prefix leads to. *)
Lemma datrie_match_again input (q : nat) iq :
  (0 < q ≤ length input)%nat →
  node_of w dd (take q input) 0 = Some iq →
  datrie_match w dd input (Z.of_nat q) = Ret (Z.of_nat q, iq).
Proof.
  intros Hq Hnode. unfold datrie_match.
  destruct (datrie_match_from_walk (Z.of_nat q) input 0 0 ltac:(unfold in_table; lia))
    as (n & i' & Hrun & Hlen & Hn & Hlim & Hend).
  rewrite Hrun. simpl.
  pose proof (walk_reaches _ _ _ q _ Hend Hlen ltac:(lia) ltac:(lia) Hnode) as Hge.
  assert (n = q) as -> by lia.
  by rewrite Hn in Hnode; injection Hnode as ->.
Qed.

Lemma root_in_table : in_table d 0.
Proof. unfold in_table. lia. Qed.

Lemma entry_at input (q : nat) i it off :
  node_of w dd (take q input) 0 = Some i → item_at w dd i = Some it →
  entry w dd (take q input) off ↔ word it ≠ -1 ∧ off = word it.
Proof.
  intros Hn Hit. unfold entry, terminal. split.
  - intros (i' & it' & Hn' & Hit' & Ht & ->).
    rewrite Hn in Hn'. injection Hn' as <-.
    rewrite Hit in Hit'. by injection Hit' as <-.
  - intros [Ht ->]. by exists i, it.
Qed.

(** The [while] loop started after [n] characters, at the node they lead
    to: it comes back with the longest prefix of at most [n] characters
    that is an entry, or with at most one character when there is none. *)
Lemma match_longest_loop_walk input : ∀ (n fuel : nat) iq,
  (n ≤ fuel)%nat → (n ≤ length input)%nat →
  node_of w dd (take n input) 0 = Some iq →
  ∃ (q : nat) (i : Z),
    match_longest_loop fuel w dd input (Z.of_nat n) iq = Ret (Z.of_nat q, i)
    ∧ (q ≤ n)%nat
    ∧ node_of w dd (take q input) 0 = Some i
    ∧ (∀ (q' : nat) off, (q < q' ≤ n)%nat → ¬ entry w dd (take q' input) off)
    ∧ ((q ≤ 1)%nat ∨ ∃ it, item_at w dd i = Some it ∧ terminal it).
Proof.
  induction n as [|n IH]; intros fuel iq Hfuel Hlen Hnode.
  - exists 0%nat, iq.
    destruct (Hread iq (node_of_in_table _ _ _ root_in_table Hnode)) as [it Hit].
    destruct fuel; simpl; rewrite Hit; simpl;
      rewrite andb_false_r; repeat split; try done; try lia; by left.
  - destruct (Hread iq (node_of_in_table _ _ _ root_in_table Hnode)) as [it Hit].
    destruct (decide (word it = -1 ∧ (0 < n)%nat)) as [[Hw Hn] | Hstay].
    + destruct fuel as [|fuel]; [lia|].
      destruct (node_of_take_prefix input (S n) n 0 iq ltac:(lia) Hnode) as [i1 Hi1].
      destruct (IH fuel i1 ltac:(lia) ltac:(lia) Hi1)
        as (q & i & Hrun & Hq & Hqn & Hnone & Hterm).
      exists q, i. simpl. rewrite Hit. simpl.
      replace (word it =? -1) with true by (symmetry; by apply Z.eqb_eq).
      replace (Z.of_nat (S n) >? 1) with true by (symmetry; apply Z.gtb_lt; lia).
      replace (Z.of_nat (S n) - 1) with (Z.of_nat n) by lia.
      rewrite (datrie_match_again input n i1 ltac:(lia) Hi1). simpl.
      repeat split; [done | lia | done | | done].
      intros q' off Hq'. destruct (decide (q' = S n)) as [-> | Hne].
      * rewrite (entry_at _ _ _ _ _ Hnode Hit). tauto.
      * apply Hnone. lia.
    + exists (S n), iq.
      assert (Hcond : (word it =? -1) && (Z.of_nat (S n) >? 1) = false).
      { apply andb_false_iff.
        destruct (Z.eqb_spec (word it) (-1)) as [Hw | Hw]; [right | by left].
        destruct (Z.gtb_spec (Z.of_nat (S n)) 1); [|done].
        exfalso. apply Hstay. split; [done | lia]. }
      repeat split.
      * destruct fuel; simpl match_longest_loop; rewrite Hit; simpl;
          change (Z.pos (Pos.of_succ_nat n)) with (Z.of_nat (S n));
          by rewrite Hcond.
      * lia.
      * done.
      * intros q' off Hq'. lia.
      * destruct (decide (word it = -1)) as [Hw | Hw].
        -- left. destruct n; [lia|]. exfalso. apply Hstay. split; [done | lia].
        -- right. by exists it.
Qed.

End Loaded.

(** ** The backtracking loop ends *)

Lemma match_longest_loop_ends w dd input : ∀ (fuel : nat) pos item,
  pos ≤ Z.of_nat fuel →
  match_longest_loop fuel w dd input pos item ≠ Exhausted.
Proof.
  induction fuel as [|fuel IH]; intros pos item Hfuel; simpl.
  - destruct (item_at w dd item) as [it|]; simpl; try done.
    destruct (Z.eqb_spec (word it) (-1)); simpl; [|done].
    destruct (Z.gtb_spec pos 1); [lia | done].
  - destruct (item_at w dd item) as [it|]; simpl; try done.
    destruct ((word it =? -1) && (pos >? 1)) eqn:Hc; [|done].
    apply andb_true_iff in Hc. destruct Hc as [_ Hpos].
    apply Z.gtb_lt in Hpos.
    destruct (datrie_match w dd input (pos - 1)) as [r| |] eqn:Hr; simpl; try done.
    + apply IH. apply datrie_match_from_bounds in Hr. lia.
    + by apply datrie_match_from_returns in Hr.
Qed.

(** With enough budget the result of the loop does not depend on it. *)
Lemma match_longest_loop_budget w dd input : ∀ (fuel fuel' : nat) pos item,
  pos ≤ Z.of_nat fuel → pos ≤ Z.of_nat fuel' →
  match_longest_loop fuel w dd input pos item
  = match_longest_loop fuel' w dd input pos item.
Proof.
  induction fuel as [|fuel IH]; intros fuel' pos item Hf Hf'.
  - destruct fuel'; simpl; destruct (item_at w dd item) as [it|]; simpl; try done.
    destruct (Z.eqb_spec (word it) (-1)); simpl; [|done].
    destruct (Z.gtb_spec pos 1); [lia | done].
  - destruct fuel' as [|fuel']; simpl;
      destruct (item_at w dd item) as [it|]; simpl; try done;
      destruct ((word it =? -1) && (pos >? 1)) eqn:Hc; try done;
      apply andb_true_iff in Hc; destruct Hc as [_ Hpos];
      apply Z.gtb_lt in Hpos; [lia|].
    destruct (datrie_match w dd input (pos - 1)) as [r| |] eqn:Hr; simpl; try done.
    apply datrie_match_from_bounds in Hr. apply IH; lia.
Qed.

(** Every step of a key that leads somewhere is a character, read at a
    node that has children, and a valid transition. *)
Lemma node_of_steps w dd key i :
  node_of w dd key 0 = Some i →
  ∀ q : nat, (q < length key)%nat →
  ∃ c iq it jq,
    key !! q = Some c ∧ c ≠ 0
    ∧ node_of w dd (take q key) 0 = Some iq
    ∧ item_at w dd iq = Some it ∧ base it ≠ DATRIE_UNUSED
    ∧ transition w dd iq c = Some jq
    ∧ node_of w dd (take (S q) key) 0 = Some jq.
Proof.
  intros Hkey q Hq.
  destruct (lookup_lt_is_Some_2 key q Hq) as [c Hc].
  destruct (node_of_prefix w dd key 0 i (S q) Hkey) as [jq Hjq].
  pose proof Hjq as Hstep.
  rewrite (node_of_take_S w dd key q c 0 Hc) in Hstep.
  destruct (node_of w dd (take q key) 0) as [iq|]; [|done].
  change (node_of w dd [c] iq = Some jq) in Hstep.
  rewrite node_of_one in Hstep.
  case_decide; [done|].
  destruct (item_at w dd iq) as [it|] eqn:Hit; simpl in Hstep; [|done].
  case_decide; [done|].
  exists c, iq, it, jq. repeat split; done.
Qed.

(** ** The claims about the trie matcher *)

(** C1. In the walk, at node [i] with a character [k] that the loop
    condition lets through, the candidate is [j = items[i].base + k]. The
    transition is followed (the walk goes on from [j], one position
    further) if and only if [0 <= j < item_count] and
    [items[j].parent = i]; a [j] out of range, or in range with another
    parent, is rejected and the walk returns [(p, i)]. [j] is the [int]
    the program computes, and is the sum itself whenever the sum is an
    [int]. *)
Theorem transition_followed_iff_valid w dd n limit k rest i p iti :
  table_in_memory w dd → count_at w dd = Some n →
  0 ≤ i < n → item_at w dd i = Some iti →
  k ≠ 0 → limit = 0 ∨ p < limit → base iti ≠ DATRIE_UNUSED →
  let j := int_add (base iti) (encode_char k) in
  let valid := 0 ≤ j < n ∧ ∃ itj, item_at w dd j = Some itj ∧ parent itj = i in
  (valid → datrie_match_from w dd limit (k :: rest) i p
           = datrie_match_from w dd limit rest j (p + 1))
  ∧ (¬ valid → datrie_match_from w dd limit (k :: rest) i p = Ret (p, i))
  ∧ (∀ r, datrie_match_from w dd limit (k :: rest) i p = Ret r → p < r.1 ↔ valid)
  ∧ (INT_MIN ≤ k ≤ INT_MAX → INT_MIN ≤ base iti + k ≤ INT_MAX → j = base iti + k).
Proof.
  intros (d & Hdict & Hroot & Hsize & Hread) Hn Hi Hit Hk Hl Hb j valid.
  rewrite (count_at_dict _ _ _ Hdict) in Hn. injection Hn as <-.
  pose proof (loop_body w dd d Hdict Hsize Hread limit k rest i p iti Hi Hk Hl Hit Hb)
    as Hbody.
  assert (Htr : valid ↔ transition w dd i k = Some j).
  { unfold valid, transition. rewrite Hit, (count_at_dict _ _ _ Hdict). simpl.
    fold j. split.
    - intros [Hj (itj & Hitj & Hp)]. rewrite decide_True by done.
      rewrite Hitj. simpl. by rewrite decide_True.
    - case_decide as Hj; [|done].
      destruct (item_at w dd j) as [itj|] eqn:Hitj; simpl; [|done].
      case_decide; [|done]. intros _. split; [done|]. by exists itj. }
  assert (Hnone : ¬ valid → transition w dd i k = None).
  { intros Hnv. destruct (transition w dd i k) as [j'|] eqn:Hj'; [|done].
    exfalso. apply Hnv, Htr. f_equal.
    unfold transition in Hj'. rewrite Hit, (count_at_dict _ _ _ Hdict) in Hj'.
    simpl in Hj'. fold j in Hj'. case_decide; [|done].
    destruct (item_at w dd j); simpl in Hj'; [|done].
    case_decide; [|done]. by injection Hj'. }
  split; [|split; [|split]].
  - intros Hv. apply Htr in Hv. by rewrite Hbody, Hv.
  - intros Hnv. by rewrite Hbody, (Hnone Hnv).
  - intros r Hr. split.
    + intros Hlt. destruct (transition w dd i k) as [j'|] eqn:Hj'.
      * apply Htr. f_equal. unfold transition in Hj'.
        rewrite Hit, (count_at_dict _ _ _ Hdict) in Hj'. simpl in Hj'.
        fold j in Hj'. case_decide; [|done].
        destruct (item_at w dd j); simpl in Hj'; [|done].
        case_decide; [|done]. by injection Hj'.
      * rewrite Hbody in Hr. injection Hr as <-. simpl in Hlt. lia.
    + intros Hv. apply Htr in Hv.
      rewrite Hbody, Hv in Hr. apply datrie_match_from_bounds in Hr. lia.
  - intros Hk' Hs. unfold j, int_add, encode_char.
    by rewrite (to_int_id k), to_int_id.
Qed.

(** C3. The bounded step match returns [(p, i)] where [p] counts the
    characters consumed and [i] is the node they lead to. It advanced at
    each position [q < p]: the input has a character there, the limit
    allows it (0 for no limit, or [q < limit]), the node reached has
    children ([base] is not [DATRIE_UNUSED]) and the transition is valid.
    And it stops at [p] without advancing: the input has no character at
    [p], or the limit is reached, or the node has no children, or the
    transition via the character at [p] is not valid. *)
Theorem datrie_match_bounded_walk w dd input limit :
  table_in_memory w dd → 0 ≤ limit →
  ∃ (p : nat) (i : Z),
    datrie_match w dd input limit = Ret (Z.of_nat p, i)
    ∧ (p ≤ length input)%nat
    ∧ node_of w dd (take p input) 0 = Some i
    ∧ (∀ q : nat, (q < p)%nat →
         ∃ c iq it jq,
           input !! q = Some c ∧ c ≠ 0
           ∧ (limit = 0 ∨ Z.of_nat q < limit)
           ∧ node_of w dd (take q input) 0 = Some iq
           ∧ item_at w dd iq = Some it ∧ base it ≠ DATRIE_UNUSED
           ∧ transition w dd iq c = Some jq
           ∧ node_of w dd (take (S q) input) 0 = Some jq)
    ∧ (input !! p = None ∨ input !! p = Some 0
       ∨ (limit ≠ 0 ∧ Z.of_nat p = limit)
       ∨ (∃ it, item_at w dd i = Some it ∧ base it = DATRIE_UNUSED)
       ∨ (∃ c, input !! p = Some c ∧ transition w dd i c = None)).
Proof.
  intros (d & Hdict & Hroot & Hsize & Hread) Hlimit.
  destruct (datrie_match_from_walk w dd d Hdict Hsize Hread limit input 0 0
              (root_in_table d Hroot))
    as (p & i & Hrun & Hlen & Hnode & Hlim & Hend).
  exists p, i. unfold datrie_match. rewrite Hrun.
  split; [done|]. split; [done|]. split; [done|]. split.
  - intros q Hq.
    assert (Hq' : (q < length (take p input))%nat) by (rewrite length_take; lia).
    destruct (node_of_steps w dd (take p input) i Hnode q Hq')
      as (c & iq & it & jq & Hc & Hc0 & Hiq & Hit & Hb & Htr & Hjq).
    rewrite take_take in Hiq, Hjq. rewrite Nat.min_l in Hiq, Hjq by lia.
    rewrite lookup_take_lt in Hc by lia.
    exists c, iq, it, jq. repeat split; try done.
    destruct Hlim as [-> | [? | ?]]; [lia | by left | right; lia].
  - destruct Hend as [-> | [[? ?] | Hnone]].
    + left. apply lookup_ge_None. lia.
    + right. right. left. split; [done|].
      destruct Hlim as [-> | [? | ?]]; lia.
    + destruct (input !! p) as [c|] eqn:Hc; [|by left].
      rewrite (node_of_take_S w dd input p c 0 Hc), Hnode in Hnone.
      change (node_of w dd [c] i = None) in Hnone.
      rewrite node_of_one in Hnone.
      case_decide as Hc0; [right; left; by rewrite Hc0|].
      assert (Hi : in_table d i)
        by (eapply node_of_in_table; eauto using root_in_table).
      destruct (Hread i Hi) as [it Hit]. rewrite Hit in Hnone. simpl in Hnone.
      case_decide as Hb.
      * right. right. right. left. by exists it.
      * right. right. right. right. by exists c.
Qed.

(** What the longest match finds, in terms of the first walk. *)
Lemma match_longest_finds w dd d input limit :
  table_in_memory w dd → dict_at w dd = Some d →
  ∃ (n : nat) (i0 : Z),
    datrie_match w dd input limit = Ret (Z.of_nat n, i0)
    ∧ (n ≤ length input)%nat
    ∧ (n = 0%nat ∨ limit = 0 ∨ Z.of_nat n ≤ limit)
    ∧ (∀ (q : nat) i, (q ≤ length input)%nat → limit = 0 ∨ Z.of_nat q ≤ limit →
         node_of w dd (take q input) 0 = Some i → (q ≤ n)%nat)
    ∧ (∀ (q : nat) iq, (0 < q ≤ n)%nat →
         node_of w dd (take q input) 0 = Some iq →
         datrie_match w dd input (Z.of_nat q) = Ret (Z.of_nat q, iq))
    ∧ ((∃ (q : nat) off,
          (0 < q ≤ n)%nat ∧ entry w dd (take q input) off
          ∧ (∀ (q' : nat) off', (q < q' ≤ n)%nat → ¬ entry w dd (take q' input) off')
          ∧ dict_datrie_match_longest w dd input limit
            = Ret (ptr_add (lexicon d) (sizeof_wchar_t * off)))
       ∨ ((∀ (q' : nat) off', (0 < q' ≤ n)%nat → ¬ entry w dd (take q' input) off')
          ∧ dict_datrie_match_longest w dd input limit = Ret NULL)).
Proof.
  intros (d' & Hdict & Hroot & Hsize & Hread) Hd.
  rewrite Hdict in Hd. injection Hd as ->.
  destruct (datrie_match_from_walk w dd d Hdict Hsize Hread limit input 0 0
              (root_in_table d Hroot))
    as (n & i0 & Hrun & Hlen & Hnode & Hlim & Hend).
  exists n, i0. change (0 + Z.of_nat n) with (Z.of_nat n) in *.
  split; [exact Hrun|]. split; [done|]. split; [done|]. split.
  { intros q i Hq Hl Hi. by eapply walk_reaches. }
  split.
  { intros q iq Hq Hiq.
    eapply datrie_match_again; eauto. lia. }
  destruct (match_longest_loop_walk w dd d Hdict Hroot Hsize Hread input
              n (length input) i0 Hlen Hlen Hnode)
    as (q & i & Hloop & Hq & Hqn & Hnone & Hterm).
  unfold dict_datrie_match_longest, match_longest_with.
  change (datrie_match w dd input limit = Ret (Z.of_nat n, i0)) in Hrun.
  rewrite Hrun. simpl.
  rewrite Hloop. simpl.
  assert (Hi : in_table d i)
    by (eapply node_of_in_table; eauto using root_in_table).
  destruct (Hread i Hi) as [it Hit].
  destruct (Z.eqb_spec (Z.of_nat q) 0) as [Hq0 | Hq0].
  { right. split; [|done]. intros q' off' Hq'. apply Hnone. lia. }
  rewrite Hit. simpl.
  destruct (Z.eqb_spec (word it) (-1)) as [Hw | Hw].
  - right. split; [|done]. intros q' off' Hq'.
    destruct Hterm as [Hq1 | (it' & Hit' & Ht)].
    + destruct (decide (q' = q)) as [-> | Hne]; [|apply Hnone; lia].
      rewrite (entry_at w dd _ _ _ _ _ Hqn Hit). tauto.
    + rewrite Hit in Hit'. injection Hit' as <-. by destruct Ht.
  - left. exists q, (word it). split; [lia|]. split.
    { by apply (entry_at w dd _ _ _ _ _ Hqn Hit). }
    split; [done|].
    unfold lexicon_at. by rewrite Hdict.
Qed.

(** C2. Longest match first runs the bounded step match with the given
    length as the limit, reaching position [n]. Each retry with a limit
    [q] inside [1 .. n] stops exactly at [q], at the node the first [q]
    characters lead to. The result is the lexicon entry at the [word]
    offset of the terminal node of the longest prefix, of at most [n]
    characters and at least one, that is an entry; when there is none the
    result is [NULL], which is a return value like any other. So when a
    prefix of the input is an entry and no longer prefix within the length
    is (AB and ABC are entries and the input is ABCD: the prefix is ABC;
    the input is ABX: the prefix is AB), the result is that entry. *)
Theorem match_longest_correct w dd d input limit :
  table_in_memory w dd → dict_at w dd = Some d →
  (∃ (n : nat) (i0 : Z),
    datrie_match w dd input limit = Ret (Z.of_nat n, i0)
    ∧ (∀ (q : nat) iq, (0 < q ≤ n)%nat →
         node_of w dd (take q input) 0 = Some iq →
         datrie_match w dd input (Z.of_nat q) = Ret (Z.of_nat q, iq))
    ∧ ((∃ (q : nat) off,
          (0 < q ≤ n)%nat ∧ entry w dd (take q input) off
          ∧ (∀ (q' : nat) off', (q < q' ≤ n)%nat → ¬ entry w dd (take q' input) off')
          ∧ dict_datrie_match_longest w dd input limit
            = Ret (ptr_add (lexicon d) (sizeof_wchar_t * off)))
       ∨ ((∀ (q' : nat) off', (0 < q' ≤ n)%nat → ¬ entry w dd (take q' input) off')
          ∧ dict_datrie_match_longest w dd input limit = Ret NULL)))
  ∧ (∀ (q : nat) off,
       (0 < q ≤ length input)%nat → limit = 0 ∨ Z.of_nat q ≤ limit →
       entry w dd (take q input) off →
       (∀ (q' : nat) off', (q < q' ≤ length input)%nat →
          limit = 0 ∨ Z.of_nat q' ≤ limit → ¬ entry w dd (take q' input) off') →
       dict_datrie_match_longest w dd input limit
       = Ret (ptr_add (lexicon d) (sizeof_wchar_t * off)))
  ∧ ((∀ (q : nat) off, (0 < q ≤ length input)%nat →
        limit = 0 ∨ Z.of_nat q ≤ limit → ¬ entry w dd (take q input) off) →
     dict_datrie_match_longest w dd input limit = Ret NULL).
Proof.
  intros Htable Hd.
  destruct (match_longest_finds w dd d input limit Htable Hd)
    as (n & i0 & Hrun & Hlen & Hlim & Hmax & Hagain & Hres).
  assert (Hwithin : ∀ q : nat, (0 < q ≤ n)%nat → limit = 0 ∨ Z.of_nat q ≤ limit).
  { intros q Hq. destruct Hlim as [-> | [? | ?]]; [lia | by left | right; lia]. }
  split; [by exists n, i0|]. split.
  - intros q off Hq Hl Hentry Hlonger.
    pose proof Hentry as (i & it & Hi & Hit & Ht & Hoff).
    pose proof (Hmax q i ltac:(lia) Hl Hi) as Hqn.
    destruct Hres as [(q1 & off1 & Hq1 & He1 & Hno1 & Hret) | [Hno Hret]].
    + destruct (Nat.lt_trichotomy q q1) as [Hlt | [<- | Hgt]].
      * exfalso. apply (Hlonger q1 off1); [lia | apply Hwithin; lia | done].
      * rewrite Hret. destruct He1 as (i1 & it1 & Hi1 & Hit1 & _ & ->).
        rewrite Hi in Hi1. injection Hi1 as <-.
        rewrite Hit in Hit1. injection Hit1 as <-. by rewrite Hoff.
      * exfalso. apply (Hno1 q off); [lia | done].
    + exfalso. apply (Hno q off); [lia | done].
  - intros Hnone.
    destruct Hres as [(q1 & off1 & Hq1 & He1 & _ & _) | [_ Hret]]; [|done].
    exfalso. apply (Hnone q1 off1); [lia | apply Hwithin; lia | done].
Qed.

(** C9. The backtracking loop of longest match always ends. A bounded
    step match with a limit above 0 returns a position that is at most the
    limit; so a retry with limit [pos - 1], made only when [1 < pos], has a
    limit that is not 0 and returns a position below [pos]. A budget of
    [pos] iterations is therefore never used up, any two budgets of at
    least [pos] give the same result, and [dict_datrie_match_longest],
    whose budget is the length of the input, never runs out. *)
Theorem match_longest_loop_terminates w dd input :
  (∀ limit r, 0 < limit → datrie_match w dd input limit = Ret r → r.1 ≤ limit)
  ∧ (∀ pos r, 1 < pos → datrie_match w dd input (pos - 1) = Ret r →
       pos - 1 ≠ 0 ∧ r.1 < pos)
  ∧ (∀ (fuel : nat) pos item, pos ≤ Z.of_nat fuel →
       match_longest_loop fuel w dd input pos item ≠ Exhausted)
  ∧ (∀ (fuel fuel' : nat) pos item,
       pos ≤ Z.of_nat fuel → pos ≤ Z.of_nat fuel' →
       match_longest_loop fuel w dd input pos item
       = match_longest_loop fuel' w dd input pos item)
  ∧ (∀ limit, dict_datrie_match_longest w dd input limit ≠ Exhausted).
Proof.
  split; [|split; [|split; [|split]]].
  - intros limit r Hl Hr. apply datrie_match_from_bounds in Hr. lia.
  - intros pos r Hpos Hr. apply datrie_match_from_bounds in Hr. lia.
  - apply match_longest_loop_ends.
  - apply match_longest_loop_budget.
  - intros limit.
    unfold dict_datrie_match_longest, match_longest_with.
    destruct (datrie_match w dd input limit) as [r| |] eqn:Hr; simpl; try done.
    + pose proof (match_longest_loop_ends w dd input (length input) r.1 r.2) as Hloop.
      apply datrie_match_from_bounds in Hr.
      destruct (match_longest_loop (length input) w dd input r.1 r.2) as [r'| |];
        simpl; [| done | exfalso; apply Hloop; [lia | done]].
      destruct (r'.1 =? 0); [done|].
      destruct (item_at w dd r'.2) as [it|]; simpl; [|done].
      destruct (word it =? -1); [done|].
      by destruct (lexicon_at w dd).
    + by apply datrie_match_from_returns in Hr.
Qed.

End Matcher.

Section Enumeration.

Variable DATRIE_UNUSED : Z.
Local Abbreviation node_of := (node_of DATRIE_UNUSED).
Local Abbreviation entry := (entry DATRIE_UNUSED).
Local Abbreviation terminal_after := (terminal_after DATRIE_UNUSED).
Local Abbreviation all_match_lengths_from := (all_match_lengths_from DATRIE_UNUSED).
Local Abbreviation dict_datrie_get_all_match_lengths :=
  (dict_datrie_get_all_match_lengths DATRIE_UNUSED).

Section LoadedTable.

Variables (w : world) (dd : ptr) (d : datrie_dictionary).
Hypothesis Hdict : dict_at w dd = Some d.
Hypothesis Hroot : 0 < dat_item_count d.
Hypothesis Hsize : sizeof_item * dat_item_count d ≤ PTRDIFF_MAX.
Hypothesis Hread : ∀ j, 0 ≤ j < dat_item_count d → is_Some (item_at w dd j).

Lemma store_in_range (buf : list Z) (r : nat) v :
  (r < length buf)%nat → store buf (Z.of_nat r) v = Some (<[r := v]> buf).
Proof.
  intros Hr. unfold store.
  destruct (Z.leb_spec 0 (Z.of_nat r)); [|lia].
  destruct (Z.ltb_spec (Z.of_nat r) (Z.of_nat (length buf))); [|lia].
  simpl. by rewrite Nat2Z.id.
Qed.

(** The loop of all-match-lengths from [(i, p)], with [r] lengths written
    so far: it writes, after them, the lengths [p + m] of the prefixes of
    [rest] that lead from [i] to a terminal node, in increasing order, and
    touches nothing else. *)
Lemma all_match_lengths_from_walk rest : ∀ i p (buf : list Z) (r : nat),
  in_table d i → (r + length rest ≤ length buf)%nat →
  ∃ lens : list Z,
    all_match_lengths_from w dd rest i p buf (Z.of_nat r)
    = Ret (Z.of_nat (r + length lens),
           take r buf ++ lens ++ drop (r + length lens) buf)
    ∧ (length lens ≤ length rest)%nat
    ∧ StronglySorted Z.lt lens
    ∧ ∀ L, L ∈ lens ↔
           ∃ m : nat, L = p + Z.of_nat m ∧ (0 < m ≤ length rest)%nat
                      ∧ terminal_after w dd rest i m.
Proof.
  induction rest as [|c rest IH]; intros i p buf r Hi Hcap.
  { exists []. simpl. rewrite Nat.add_0_r, take_drop.
    repeat split; [lia | constructor | by intros ?%elem_of_nil |].
    intros (m & _ & Hm & _). simpl in Hm. lia. }
  assert (Hstop :
    all_match_lengths_from w dd (c :: rest) i p buf (Z.of_nat r)
      = Ret (Z.of_nat r, buf) →
    node_of w dd [c] i = None →
    ∃ lens : list Z,
      all_match_lengths_from w dd (c :: rest) i p buf (Z.of_nat r)
      = Ret (Z.of_nat (r + length lens),
             take r buf ++ lens ++ drop (r + length lens) buf)
      ∧ (length lens ≤ length (c :: rest))%nat
      ∧ StronglySorted Z.lt lens
      ∧ ∀ L, L ∈ lens ↔
             ∃ m : nat, L = p + Z.of_nat m ∧ (0 < m ≤ length (c :: rest))%nat
                        ∧ terminal_after w dd (c :: rest) i m).
  { intros Hret Hnone. exists []. simpl length. rewrite Nat.add_0_r.
    simpl app. rewrite take_drop.
    repeat split; [done | lia | constructor | by intros ?%elem_of_nil |].
    intros (m & _ & Hm & i' & it & Hnode & _). exfalso.
    destruct m as [|m]; [lia|].
    change (take (S m) (c :: rest)) with ([c] ++ take m rest) in Hnode.
    rewrite node_of_app, Hnone in Hnode. done. }
  destruct (decide (c = 0)) as [-> | Hc].
  { apply Hstop; done. }
  destruct (Hread i Hi) as [it Hit].
  destruct (decide (base it = DATRIE_UNUSED)) as [Hb | Hb].
  { apply Hstop.
    - simpl. destruct (Z.eqb_spec c 0); [done|]. rewrite Hit. simpl.
      by rewrite Hb, Z.eqb_refl.
    - rewrite node_of_one, decide_False, Hit by done. simpl.
      by rewrite decide_True. }
  assert (Hbody :
    all_match_lengths_from w dd (c :: rest) i p buf (Z.of_nat r) =
      match transition w dd i c with
      | Some j =>
        iti ← defined (item_at w dd j);
        if negb (word iti =? -1) then
          b ← defined (store buf (Z.of_nat r) (p + 1));
          all_match_lengths_from w dd rest j (p + 1) b (Z.of_nat r + 1)
        else all_match_lengths_from w dd rest j (p + 1) buf (Z.of_nat r)
      | None => Ret (Z.of_nat r, buf)
      end).
  { simpl. destruct (Z.eqb_spec c 0) as [|_]; [done|].
    rewrite Hit. simpl.
    destruct (Z.eqb_spec (base it) DATRIE_UNUSED) as [|_]; [done|].
    unfold transition. rewrite Hit, (count_at_dict _ _ _ Hdict). simpl.
    set (j := int_add (base it) (encode_char c)).
    pose proof (int_add_range (base it) (encode_char c)) as Hj. fold j in Hj.
    destruct (Z.ltb_spec j 0) as [Hneg | Hpos].
    { case_decide; [lia | done]. }
    assert (Ej : to_size_t j = j).
    { apply to_size_t_id. unfold INT_MAX in Hj. lia. }
    rewrite Ej.
    destruct (Z.geb_spec j (dat_item_count d)) as [Hge | Hlt].
    { case_decide; [lia | done]. }
    case_decide as Hin; [|lia].
    destruct (Hread j Hin) as [itj Hitj]. rewrite Hitj. simpl.
    pose proof (parent_compare (parent itj) i
                  (item_at_parent_range _ _ _ _ Hitj)
                  (in_table_bound _ _ Hsize Hi)) as Hcmp.
    destruct (Z.eqb_spec (to_size_t (parent itj)) i) as [He | Hne]; simpl.
    - case_decide as Hp; [by rewrite Hitj|]. exfalso. apply Hp. by apply Hcmp.
    - case_decide as Hp; [|done]. apply Hcmp in Hp. discriminate. }
  destruct (transition w dd i c) as [j|] eqn:Hj; cycle 1.
  { apply Hstop; [done|].
    rewrite node_of_one, decide_False, Hit by done. simpl.
    by rewrite decide_False, Hj. }
  pose proof (transition_in_table w dd d Hdict i c j Hj) as Hjt.
  destruct (Hread j Hjt) as [itj Hitj].
  simpl in Hcap.
  assert (Hkey : ∀ m, node_of w dd (take (S m) (c :: rest)) i
                      = node_of w dd (take m rest) j).
  { intros m. simpl. rewrite decide_False, Hit by done. simpl.
    by rewrite decide_False, Hj. }
  assert (Hafter : ∀ m, terminal_after w dd (c :: rest) i (S m) ↔ terminal_after w dd rest j m).
  { intros m. unfold terminal_after. by rewrite Hkey. }
  destruct (decide (word itj = -1)) as [Hw | Hw].
  - assert (Hskip :
      all_match_lengths_from w dd (c :: rest) i p buf (Z.of_nat r)
      = all_match_lengths_from w dd rest j (p + 1) buf (Z.of_nat r)).
    { rewrite Hbody, Hitj. simpl. by rewrite Hw. }
    destruct (IH j (p + 1) buf r Hjt ltac:(lia))
      as (lens & Hrun & Hlen & Hsorted & Hmem).
    exists lens. rewrite Hskip. repeat split; [done | simpl; lia | done | |].
    + intros HL. apply Hmem in HL. destruct HL as (m & -> & Hm & Hterm).
      exists (S m). split; [lia|]. split; [simpl; lia|]. by apply Hafter.
    + intros (m & -> & Hm & Hterm). destruct m as [|m]; [lia|].
      apply Hafter in Hterm. apply Hmem.
      destruct m as [|m].
      * exfalso. destruct Hterm as (i' & it' & Hn & Hit' & Ht).
        simpl in Hn. injection Hn as <-. rewrite Hitj in Hit'.
        injection Hit' as <-. by apply Ht.
      * exists (S m). split; [lia|]. split; [simpl in Hm; lia | done].
  - assert (Hwrite :
      all_match_lengths_from w dd (c :: rest) i p buf (Z.of_nat r)
      = all_match_lengths_from w dd rest j (p + 1) (<[r := p + 1]> buf)
          (Z.of_nat (S r))).
    { rewrite Hbody, Hitj. simpl.
      destruct (Z.eqb_spec (word itj) (-1)); [done|]. simpl.
      rewrite (store_in_range buf r (p + 1)) by lia. simpl.
      f_equal. lia. }
    destruct (IH j (p + 1) (<[r := p + 1]> buf) (S r) Hjt
                ltac:(rewrite length_insert; lia))
      as (lens & Hrun & Hlen & Hsorted & Hmem).
    exists ((p + 1) :: lens). rewrite Hwrite, Hrun. repeat split.
    + f_equal. f_equal; [simpl; lia|].
      rewrite (take_S_r _ _ (p + 1)) by (apply list_lookup_insert_eq; lia).
      rewrite take_insert_ge by lia.
      rewrite drop_insert_lt by lia.
      rewrite <- app_assoc. simpl. do 3 f_equal.
      by rewrite Nat.add_succ_r.
    + simpl. lia.
    + constructor; [done|]. apply Forall_forall. intros L HL.
      apply Hmem in HL. destruct HL as (m & -> & Hm & _). lia.
    + intros HL. apply elem_of_cons in HL. destruct HL as [-> | HL].
      * exists 1%nat. split; [lia|]. split; [simpl; lia|].
        apply Hafter. exists j, itj. by repeat split.
      * apply Hmem in HL. destruct HL as (m & -> & Hm & Hterm).
        exists (S m). split; [lia|]. split; [simpl; lia|]. by apply Hafter.
    + intros (m & -> & Hm & Hterm). destruct m as [|m]; [lia|].
      apply Hafter in Hterm. apply elem_of_cons.
      destruct m as [|m]; [left; lia | right].
      apply Hmem. exists (S m). split; [lia|]. split; [simpl in Hm; lia | done].
Qed.

End LoadedTable.

(** C4. All-match-length enumeration walks once from the root with no
    limit. It writes into the buffer, from its first slot on, the numbers
    [q] of characters consumed (counted from 1) at which the node reached
    is terminal, and only those: [q] is written exactly when the first [q]
    characters lead from the root, by valid transitions, to a terminal
    node. The walk stops at the end of the input or at the first character
    with no valid transition, so no longer prefix qualifies. It returns
    how many lengths it wrote; they are strictly increasing, and the rest
    of the buffer is as it was. *)
Theorem all_match_lengths_increasing w dd input (match_length : list Z) :
  table_in_memory w dd → (length input ≤ length match_length)%nat →
  ∃ lens : list Z,
    dict_datrie_get_all_match_lengths w dd input match_length
    = Ret (Z.of_nat (length lens), lens ++ drop (length lens) match_length)
    ∧ StronglySorted Z.lt lens
    ∧ ∀ L, L ∈ lens ↔
           ∃ q : nat, L = Z.of_nat q ∧ (0 < q ≤ length input)%nat
                      ∧ ∃ off, entry w dd (take q input) off.
Proof.
  intros (d & Hdict & Hroot & Hsize & Hread) Hcap.
  destruct (all_match_lengths_from_walk w dd d Hdict Hsize Hread input 0 0
              match_length 0 (root_in_table d Hroot) ltac:(simpl; lia))
    as (lens & Hrun & Hlen & Hsorted & Hmem).
  exists lens. split; [exact Hrun|]. split; [done|].
  intros L. rewrite Hmem. split.
  - intros (m & -> & Hm & i' & it & Hn & Hit & Ht).
    exists m. repeat split; [lia.. |]. exists (word it), i', it. by repeat split.
  - intros (q & -> & Hq & off & i' & it & Hn & Hit & Ht & _).
    exists q. repeat split; [lia.. |]. by exists i', it.
Qed.

End Enumeration.

(** ** Worlds *)

Section Shape.

Variables (h : list (option (origin * cell))) (b : nat).
Hypothesis Hb : (b < length h)%nat.

Lemma shape_live_here x extra s : live (shape h b x extra s) b = x.
Proof.
  unfold live, shape. simpl.
  rewrite lookup_app_l by (rewrite length_insert; lia).
  by rewrite list_lookup_insert_eq.
Qed.

Lemma shape_live_extra x extra s (k : nat) :
  live (shape h b x extra s) (length h + k) = default None (extra !! k).
Proof.
  unfold live, shape. simpl.
  rewrite lookup_app_r by (rewrite length_insert; lia).
  rewrite length_insert.
  replace (length h + k - length h)%nat with k by lia.
  by destruct (extra !! k).
Qed.

Lemma shape_live_other x extra s (b' : nat) :
  (b' < length h)%nat → b' ≠ b →
  live (shape h b x extra s) b' = default None (h !! b').
Proof.
  intros Hlt Hne. unfold live, shape. simpl.
  rewrite lookup_app_l by (rewrite length_insert; lia).
  rewrite list_lookup_insert_ne by done.
  by destruct (h !! b').
Qed.

Lemma shape_dict_at og d extra s :
  dict_at (shape h b (Some (og, Dict d)) extra s) (Pblk b 0) = Some d.
Proof. unfold dict_at. by rewrite shape_live_here. Qed.

Lemma shape_get_dict og d extra s :
  get_dict (Pblk b 0) (shape h b (Some (og, Dict d)) extra s)
  = Ret (d, shape h b (Some (og, Dict d)) extra s).
Proof. unfold get_dict. by rewrite shape_dict_at. Qed.

Lemma shape_modify_dict f og d extra s :
  modify_dict (Pblk b 0) f (shape h b (Some (og, Dict d)) extra s)
  = Ret (tt, shape h b (Some (og, Dict (f d))) extra s).
Proof.
  unfold modify_dict. rewrite shape_live_here.
  unfold with_heap, shape. simpl. do 3 f_equal.
  rewrite insert_app_l by (rewrite length_insert; lia).
  by rewrite list_insert_insert_eq.
Qed.

Lemma shape_alloc o c x extra s :
  alloc o c (shape h b x extra s)
  = Ret (Pblk (length h + length extra) 0,
         shape h b x (extra ++ [Some (o, c)]) s).
Proof.
  unfold alloc, with_heap, shape. simpl.
  rewrite length_app, length_insert. by rewrite <- app_assoc.
Qed.

Lemma shape_free_here c extra s :
  free (Pblk b 0) (shape h b (Some (ByMalloc, c)) extra s)
  = Ret (tt, shape h b None extra s).
Proof.
  unfold free. rewrite shape_live_here. simpl.
  unfold release, with_heap, shape. simpl. do 3 f_equal.
  rewrite insert_app_l by (rewrite length_insert; lia).
  by rewrite list_insert_insert_eq.
Qed.

(** The block handed out first after [h] is the only one in [extra]. *)
Lemma shape_set_extra x y z s :
  with_heap (<[length h := z]> (heap (shape h b x [y] s))) (shape h b x [y] s)
  = shape h b x [z] s.
Proof.
  unfold with_heap, shape. simpl. f_equal.
  rewrite insert_app_r_alt by (rewrite length_insert; lia).
  rewrite length_insert. by rewrite Nat.sub_diag.
Qed.

Lemma shape_live_first x y s : live (shape h b x [y] s) (length h) = y.
Proof.
  pose proof (shape_live_extra x [y] s 0) as H.
  by rewrite Nat.add_0_r in H.
Qed.

Lemma shape_free_first x c s :
  free (Pblk (length h) 0) (shape h b x [Some (ByMalloc, c)] s)
  = Ret (tt, shape h b x [None] s).
Proof.
  unfold free. rewrite shape_live_first. simpl.
  unfold release. by rewrite shape_set_extra.
Qed.

Lemma shape_munmap_first o x c s size :
  munmap o (Pblk (length h) 0) size (shape h b x [Some (ByMmap, c)] s)
  = if munmap_ok o then Ret (0, shape h b x [None] s)
    else Ret (-1, shape h b x [Some (ByMmap, c)] s).
Proof.
  unfold munmap. destruct (munmap_ok o); [|done].
  rewrite shape_live_first. by rewrite shape_set_extra.
Qed.

Lemma shape_read_first o fd x og old s size :
  Z.of_nat (length old) = size →
  read o fd (Pblk (length h) 0) size (shape h b x [Some (og, Bytes old)] s)
  = Ret (tt, shape h b x
               [Some (og, Bytes
                  (let n := Nat.min (Nat.min (Z.to_nat size) (length fd)) (read_limit o)
                   in take n fd ++ drop n old))] s).
Proof.
  intros Hsize. unfold read. rewrite shape_live_first.
  destruct (Z.ltb_spec (Z.of_nat (length old)) size); [lia|].
  by rewrite shape_set_extra.
Qed.

Lemma shape_load_bytes_first x og bs s ofs (n : nat) :
  0 ≤ ofs → ofs + Z.of_nat n ≤ Z.of_nat (length bs) →
  load_bytes (shape h b x [Some (og, Bytes bs)] s) (Pblk (length h) ofs) n
  = Some (take n (drop (Z.to_nat ofs) bs)).
Proof.
  intros Hofs Hn. unfold load_bytes. rewrite shape_live_first.
  destruct (Z.leb_spec 0 ofs); [|lia].
  destruct (Z.leb_spec (ofs + Z.of_nat n) (Z.of_nat (length bs))); [|lia].
  done.
Qed.

End Shape.

(** Every world with a live structure has this shape. *)
Lemma shape_of_world w b og d :
  live w b = Some (og, Dict d) →
  w = shape (heap w) b (Some (og, Dict d)) [] (streams w)
  ∧ (b < length (heap w))%nat.
Proof.
  unfold live. intros H.
  destruct (heap w !! b) as [c|] eqn:Hc; [|done]. subst c.
  split; [|by eapply lookup_lt_Some].
  unfold shape. rewrite app_nil_r, list_insert_id by done. by destruct w.
Qed.

#[local] Arguments load_bytes : simpl never.
#[local] Arguments live : simpl never.

#[global] Hint Rewrite shape_modify_dict shape_get_dict shape_alloc
  shape_free_here shape_free_first using done : world_run.

(** ** The header *)

Lemma byte_val_inj c1 c2 : byte_val c1 = byte_val c2 → c1 = c2.
Proof.
  unfold byte_val. intros H. apply N2Z.inj in H.
  pose proof (Byte.of_to_N c1) as H1. pose proof (Byte.of_to_N c2) as H2.
  rewrite H in H1. rewrite H1 in H2. by injection H2.
Qed.

Lemma strlen_bounds s : 0 ≤ strlen s ≤ Z.of_nat (length s).
Proof.
  induction s as [|c s IH]; simpl; [lia|].
  destruct (byte_val c =? 0); lia.
Qed.

(** The characters that [strlen] counts are not NUL. *)
Lemma strlen_nonzero s :
  Forall (λ c, byte_val c ≠ 0) (take (Z.to_nat (strlen s)) s).
Proof.
  induction s as [|c s IH]; simpl; [constructor|].
  destruct (Z.eqb_spec (byte_val c) 0) as [|Hc]; [constructor|].
  pose proof (strlen_bounds s).
  replace (Z.to_nat (1 + strlen s)) with (S (Z.to_nat (strlen s))) by lia.
  simpl. by constructor.
Qed.

(** [strncmp] over [n] characters that lie in a block, against a literal
    with no NUL among its first [n] characters: 0 exactly when the two runs
    of [n] bytes are the same. *)
Lemma strncmp_block w blk og bs (n : nat) : ∀ (s2 : list byte) ofs,
  live w blk = Some (og, Bytes bs) →
  0 ≤ ofs → ofs + Z.of_nat n ≤ Z.of_nat (length bs) →
  (n ≤ length s2)%nat → Forall (λ c, byte_val c ≠ 0) (take n s2) →
  ∃ z, strncmp w (Pblk blk ofs) s2 n = Ret z
       ∧ (z = 0 ↔ take n (drop (Z.to_nat ofs) bs) = take n s2).
Proof.
  induction n as [|n IH]; intros s2 ofs Hlive Hofs Hlen Hs2 Hnz.
  { exists 0. by rewrite !take_0. }
  destruct s2 as [|c2 s2]; [simpl in Hs2; lia|].
  destruct (lookup_lt_is_Some_2 bs (Z.to_nat ofs) ltac:(lia)) as [c1 Hc1].
  assert (Hload : load_byte w (Pblk blk ofs) = Some c1).
  { unfold load_byte, load_bytes. rewrite Hlive.
    destruct (Z.leb_spec 0 ofs); [|lia].
    destruct (Z.leb_spec (ofs + Z.of_nat 1) (Z.of_nat (length bs))); [|lia].
    simpl. by rewrite (drop_S _ _ _ Hc1). }
  simpl strncmp. rewrite Hload. simpl.
  rewrite (drop_S _ _ _ Hc1). simpl take.
  change (take (S n) (c2 :: s2)) with (c2 :: take n s2) in Hnz.
  inversion Hnz as [|? ? Hc2 Hnz']; subst. clear Hnz. rename Hnz' into Hnz.
  destruct (Z.eqb_spec (byte_val c1) (byte_val c2)) as [He | Hne]; simpl.
  - apply byte_val_inj in He. subst c2.
    destruct (Z.eqb_spec (byte_val c1) 0) as [|_]; [done|].
    destruct (IH s2 (ofs + 1) Hlive ltac:(lia) ltac:(lia)
                ltac:(simpl in Hs2; lia) Hnz) as (z & Hrun & Hz).
    exists z. split; [done|]. rewrite Hz.
    replace (Z.to_nat (ofs + 1)) with (S (Z.to_nat ofs)) by lia.
    split; [by intros -> | by intros [= ->]].
  - exists (byte_val c1 - byte_val c2). split; [done|]. split; [lia|].
    intros [= ->]. done.
Qed.

Section Provider.

Variables (h : list (option (origin * cell))) (b : nat).
Hypothesis Hb : (b < length h)%nat.

Lemma load_mmap_run o og d s fd :
  load_mmap o (Pblk b 0) fd (shape h b (Some (og, Dict d)) [] s)
  = if mmap_ok o then
      Ret (0, shape h b
                (Some (og, Dict (set_dic_memory (Pblk (length h) 0)
                                   (set_dic_memory_type MEMORY_TYPE_MMAP d))))
                [Some (ByMmap, Bytes (take (Z.to_nat (dic_size d)) fd))] s)
    else
      Ret (-1, shape h b
                 (Some (og, Dict (set_dic_memory NULL
                                   (set_dic_memory MAP_FAILED
                                      (set_dic_memory_type MEMORY_TYPE_MMAP d)))))
                 [] s).
Proof.
  unfold load_mmap. do 2 run_step. unfold bind at 1, mmap.
  destruct (mmap_ok o).
  - rewrite shape_alloc. simpl length. rewrite Nat.add_0_r.
    run_step. simpl. done.
  - unfold ret at 1. run_step. simpl. run_step. done.
Qed.

Lemma load_allocate_run o og d s fd :
  0 ≤ dic_size d →
  load_allocate o (Pblk b 0) fd (shape h b (Some (og, Dict d)) [] s)
  = if malloc_ok o then
      Ret (0, shape h b
                (Some (og, Dict (set_dic_memory (Pblk (length h) 0)
                                   (set_dic_memory_type MEMORY_TYPE_ALLOCATE d))))
                [Some (ByMalloc, Bytes
                   (let n := Nat.min (Nat.min (Z.to_nat (dic_size d)) (length fd))
                                     (read_limit o) in
                    take n fd
                    ++ drop n (map (malloc_junk o) (seq 0 (Z.to_nat (dic_size d))))))] s)
    else
      Ret (-1, shape h b
                 (Some (og, Dict (set_dic_memory NULL
                                   (set_dic_memory_type MEMORY_TYPE_ALLOCATE d))))
                 [] s).
Proof.
  intros Hsize. unfold load_allocate. do 2 run_step. unfold bind at 1, malloc.
  destruct (malloc_ok o).
  - rewrite shape_alloc. simpl length. rewrite Nat.add_0_r.
    run_step. simpl. unfold bind at 1.
    rewrite shape_read_first; [done | done |].
    rewrite length_map, length_seq. lia.
  - unfold ret at 1. run_step. done.
Qed.

Variable OPENCC_DICHEADER : list byte.
Local Abbreviation parsed := (parsed OPENCC_DICHEADER).
Local Abbreviation header_matches := (header_matches OPENCC_DICHEADER).

Lemma load_dict_parse_run og d r bs s :
  dic_memory d = Pblk (length h) 0 →
  Z.of_nat (length bs) ≤ PTRDIFF_MAX →
  strlen OPENCC_DICHEADER + 16 ≤ Z.of_nat (length bs) →
  load_dict_parse OPENCC_DICHEADER (Pblk b 0)
    (shape h b (Some (og, Dict d)) [Some (r, Bytes bs)] s)
  = if decide (header_matches bs) then
      Ret (0, shape h b (Some (og, Dict (parsed (dic_memory d) bs d)))
                [Some (r, Bytes bs)] s)
    else
      Ret (-1, shape h b (Some (og, Dict d)) [Some (r, Bytes bs)] s).
Proof.
  intros Hmem Hmax Hlen. pose proof (strlen_bounds OPENCC_DICHEADER) as Hhl.
  unfold load_dict_parse. run_step. rewrite Hmem.
  unfold bind at 1, reading.
  destruct (strncmp_block (shape h b (Some (og, Dict d)) [Some (r, Bytes bs)] s)
              (length h) r bs (Z.to_nat (strlen OPENCC_DICHEADER))
              OPENCC_DICHEADER 0 (shape_live_first h b Hb _ _ _)
              ltac:(lia) ltac:(lia) ltac:(lia) (strlen_nonzero _))
    as (z & Hrun & Hz).
  rewrite Hrun. simpl drop in Hz.
  destruct (Z.eqb_spec z 0) as [Hz0 | Hz0]; simpl.
  2:{ rewrite decide_False; [done|]. unfold header_matches. by rewrite <- Hz. }
  rewrite decide_True by (unfold header_matches; by rewrite <- Hz).
  assert (Eoff : size_add 0 (size_mul (strlen OPENCC_DICHEADER) sizeof_char)
                 = strlen OPENCC_DICHEADER).
  { unfold size_add, size_mul, sizeof_char, PTRDIFF_MAX in *.
    rewrite Z.mul_1_r, Z.add_0_l, !to_size_t_id; [done | lia |].
    rewrite to_size_t_id; lia. }
  rewrite Eoff.
  assert (Eoff8 : size_add (strlen OPENCC_DICHEADER) sizeof_size_t
                  = strlen OPENCC_DICHEADER + 8).
  { unfold size_add, sizeof_size_t, PTRDIFF_MAX in *. apply to_size_t_id. lia. }
  assert (Eoff16 : size_add (strlen OPENCC_DICHEADER + 8) sizeof_size_t
                   = strlen OPENCC_DICHEADER + 16).
  { unfold size_add, sizeof_size_t, PTRDIFF_MAX in *.
    rewrite to_size_t_id; lia. }
  rewrite Eoff8, Eoff16.
  unfold bind at 1, reading, load_size_t. simpl ptr_add.
  rewrite shape_load_bytes_first by (done || lia). simpl.
  run_step.
  unfold bind at 1, reading, load_size_t. cbv beta.
  rewrite shape_load_bytes_first by (done || lia). simpl.
  do 3 run_step. unfold ret. do 4 f_equal.
Qed.

End Provider.

(** ** Releasing blocks *)

Lemma live_release w b b' :
  live (with_heap (<[b := None]> (heap w)) w) b'
  = if decide (b' = b) then None else live w b'.
Proof.
  unfold live, with_heap. simpl. case_decide as He.
  - subst b'. destruct (decide (b < length (heap w))%nat).
    + by rewrite list_lookup_insert_eq.
    + by rewrite list_insert_ge by lia; rewrite lookup_ge_None_2 by lia.
  - by rewrite list_lookup_insert_ne.
Qed.

Lemma free_live w b c :
  live w b = Some (ByMalloc, c) →
  free (Pblk b 0) w = Ret (tt, with_heap (<[b := None]> (heap w)) w).
Proof. intros H. unfold free. by rewrite H. Qed.

Lemma ptr_eqb_NULL p : ptr_eqb p NULL = true ↔ p = NULL.
Proof.
  unfold NULL. destruct p as [n | blk ofs]; simpl; [|done].
  rewrite Z.eqb_eq. split; [by intros -> | by intros [= ->]].
Qed.

Lemma unload_dict_run o w hb d :
  closable w (Pblk hb 0) d →
  ∃ w', unload_dict o (Pblk hb 0) w = Ret (unload_result o d, w')
        ∧ live w' hb = Some (ByMalloc, Dict d)
        ∧ (dic_memory d = NULL → w' = w)
        ∧ streams w' = streams w
        ∧ (∀ b', live w b' = None → live w' b' = None).
Proof.
  intros (hb' & [= <-] & Hlive & Hregion).
  unfold unload_dict, bind, get_dict, dict_at. rewrite Hlive.
  unfold unload_result.
  destruct (ptr_eqb (dic_memory d) NULL) eqn:Hnull; cbn [negb].
  { exists w. repeat split; done. }
  assert (Hnn : dic_memory d ≠ NULL).
  { intros E. apply ptr_eqb_NULL in E. congruence. }
  destruct (Z.eqb_spec MEMORY_TYPE_MMAP (dic_memory_type d)) as [Ht | Ht].
  { unfold munmap.
    destruct (munmap_ok o); [|by (exists w; repeat split)].
    destruct (dic_memory d) as [n | rb ofs]; [by (exists w; repeat split)|].
    destruct ofs; try (by (exists w; repeat split)).
    destruct (live w rb) as [[[] c]|] eqn:Hrb; try (by (exists w; repeat split)).
    eexists. split; [done|]. rewrite live_release.
    repeat split.
    - rewrite decide_False; [done|]. intros ->. congruence.
    - done.
    - intros b' Hb'. rewrite live_release. by case_decide. }
  destruct (Z.eqb_spec MEMORY_TYPE_ALLOCATE (dic_memory_type d)) as [Ha | Ha].
  { destruct (Hregion Hnn ltac:(done)) as (rb & bs & Hmem & Hrb).
    rewrite Hmem. rewrite (free_live _ _ _ Hrb). unfold ret.
    eexists. split; [done|]. rewrite live_release.
    repeat split.
    - rewrite decide_False; [done|]. intros ->. congruence.
    - done.
    - intros b' Hb'. rewrite live_release. by case_decide. }
  by exists w.
Qed.

(** Closing a handle that can be closed: the result is that of
    [unload_dict], -1 or 0, and the storage of the handle is gone. *)
Lemma dict_datrie_close_run o w hb d :
  closable w (Pblk hb 0) d →
  ∃ w', dict_datrie_close o (Pblk hb 0) w
        = Ret (if unload_result o d =? -1 then -1 else 0, w')
        ∧ live w' hb = None
        ∧ streams w' = streams w
        ∧ (∀ b', live w b' = None → live w' b' = None).
Proof.
  intros Hc. destruct (unload_dict_run o w hb d Hc)
    as (w1 & Hrun & Hlive & _ & Hs & Hdead).
  unfold dict_datrie_close, bind. rewrite Hrun.
  destruct (unload_result o d =? -1);
    rewrite (free_live _ _ _ Hlive); unfold ret;
    (eexists; split; [done|]); rewrite live_release, decide_True by done;
    (repeat split; [done|]); intros b' Hb'; rewrite live_release;
    (case_decide; [done | by apply Hdead]).
Qed.

Lemma acquire_length o bs r content :
  acquire o bs = Some (r, content) → length content = length bs.
Proof.
  unfold acquire. destruct (mmap_ok o); [by intros [= _ <-]|].
  destruct (malloc_ok o); [|done]. intros [= _ <-].
  rewrite length_app, length_take, length_drop, length_map, length_seq. lia.
Qed.

Section Loading.

Variables (h : list (option (origin * cell))) (b : nat).
Hypothesis Hb : (b < length h)%nat.
Variable OPENCC_DICHEADER : list byte.

(** The memory provider, as [load_dict] runs it. *)
Lemma load_dict_acquire_run o og d s bs :
  (do fd <- fileno (Some bs);
   run modify_dict (Pblk b 0) (set_dic_size (Z.of_nat (length fd)));
   do r <- load_mmap o (Pblk b 0) fd;
   (if r =? -1 then load_allocate o (Pblk b 0) fd else ret 0))
    (shape h b (Some (og, Dict d)) [] s)
  = match acquire o bs with
    | Some (r, content) =>
      Ret (0, shape h b
                (Some (og, Dict (acquired_dict (Pblk (length h) 0) (memory_type_of r)
                                   (Z.of_nat (length bs)) d)))
                [Some (r, Bytes content)] s)
    | None =>
      Ret (-1, shape h b
                 (Some (og, Dict (acquired_dict NULL MEMORY_TYPE_ALLOCATE
                                    (Z.of_nat (length bs)) d)))
                 [] s)
    end.
Proof.
  unfold fileno. unfold bind at 1, ret at 1. run_step.
  unfold bind at 1. rewrite load_mmap_run by done. unfold acquire.
  destruct (mmap_ok o); simpl.
  { unfold ret. rewrite Nat2Z.id, firstn_all. done. }
  rewrite load_allocate_run by (done || simpl; lia).
  destruct (malloc_ok o); [|done]. simpl.
  rewrite Nat2Z.id, Nat.min_id. done.
Qed.

(** [load_dict]: the memory provider, then the parser. *)
Lemma load_dict_split o dd fp w :
  load_dict OPENCC_DICHEADER o dd fp w
  = (do acquired <-
       (do fd <- fileno fp;
        run modify_dict dd (set_dic_size (Z.of_nat (length fd)));
        do r <- load_mmap o dd fd;
        (if r =? -1 then load_allocate o dd fd else ret 0));
     (if acquired =? -1 then ret (-1)
      else load_dict_parse OPENCC_DICHEADER dd)) w.
Proof.
  unfold load_dict, bind.
  destruct (fileno fp w) as [[fd w1]| |]; [|done..].
  destruct (modify_dict dd _ w1) as [[[] w2]| |]; [|done..].
  destruct (load_mmap o dd fd w2) as [[r w3]| |]; [|done..].
  by destruct ((if r =? -1 then load_allocate o dd fd else ret 0) w3)
    as [[a w4]| |].
Qed.

Lemma load_dict_run o og d s bs :
  Z.of_nat (length bs) ≤ PTRDIFF_MAX →
  strlen OPENCC_DICHEADER + 16 ≤ Z.of_nat (length bs) →
  load_dict OPENCC_DICHEADER o (Pblk b 0) (Some bs)
    (shape h b (Some (og, Dict d)) [] s)
  = match acquire o bs with
    | Some (r, content) =>
      let d1 := acquired_dict (Pblk (length h) 0) (memory_type_of r)
                  (Z.of_nat (length bs)) d in
      if decide (header_matches OPENCC_DICHEADER content) then
        Ret (0, shape h b
                  (Some (og, Dict (parsed OPENCC_DICHEADER (Pblk (length h) 0)
                                     content d1)))
                  [Some (r, Bytes content)] s)
      else Ret (-1, shape h b (Some (og, Dict d1)) [Some (r, Bytes content)] s)
    | None =>
      Ret (-1, shape h b
                 (Some (og, Dict (acquired_dict NULL MEMORY_TYPE_ALLOCATE
                                    (Z.of_nat (length bs)) d)))
                 [] s)
    end.
Proof.
  intros Hmax Hlen. rewrite load_dict_split. unfold bind at 1.
  rewrite load_dict_acquire_run by done.
  destruct (acquire o bs) as [[r content]|] eqn:Hacq; [|done].
  pose proof (acquire_length _ _ _ _ Hacq) as Hcl.
  simpl. rewrite load_dict_parse_run; [| done | done | lia | lia].
  done.
Qed.

End Loading.

(** ** Opening *)

Lemma shape_fresh (l : list (option (origin * cell))) a x extra s :
  shape (l ++ [a]) (length l) x extra s
  = {| heap := l ++ x :: extra; streams := s |}.
Proof.
  unfold shape. f_equal.
  replace (length l) with (length l + 0)%nat by lia.
  rewrite insert_app_r. simpl. by rewrite <- app_assoc.
Qed.

Section OpenSplit.

Variable OPENCC_DICHEADER : list byte.

Lemma dict_datrie_open_split o filename w junk fp :
  malloc_dict o = Some junk → files o filename = fp →
  dict_datrie_open OPENCC_DICHEADER o filename w
  = match fp with
    | Some bs =>
      (do r <- load_dict OPENCC_DICHEADER o (Pblk (length (heap w)) 0) (Some bs);
       if r =? -1 then
         run dict_datrie_close o (Pblk (length (heap w)) 0);
         ret (Pint (to_size_t (-1)))
       else
         run fclose (Some bs);
         ret (Pblk (length (heap w)) 0)) (world_at_load w junk)
    | None => Undefined
    end.
Proof.
  intros Hjunk Hfile. unfold dict_datrie_open, malloc_datrie_dictionary.
  rewrite Hjunk. unfold bind at 1, alloc.
  set (h := heap w ++ [Some (ByMalloc, Dict junk)]).
  assert (Hlt : (length (heap w) < length h)%nat)
    by (unfold h; rewrite length_app; simpl; lia).
  assert (Hw : with_heap h w
               = shape h (length (heap w)) (Some (ByMalloc, Dict junk)) [] (streams w)).
  { unfold h. by rewrite shape_fresh. }
  rewrite Hw. do 2 run_step. unfold bind at 1, fopen. rewrite Hfile.
  destruct fp as [bs|].
  - match goal with |- bind _ _ ?W = _ =>
      assert (HW : W = world_at_load w junk) end.
    { unfold shape, world_at_load, h. simpl. f_equal.
      replace (length (heap w)) with (length (heap w) + 0)%nat at 1 by lia.
      rewrite insert_app_r. simpl. by rewrite app_nil_r. }
    by rewrite HW.
  - unfold bind at 1, load_dict, bind, fileno, undefined. done.
Qed.

End OpenSplit.

#[local] Arguments shape : simpl never.

Section Opening.

Variable OPENCC_DICHEADER : list byte.

Local Abbreviation dict_datrie_open := (dict_datrie_open OPENCC_DICHEADER).
Local Abbreviation load_dict := (load_dict OPENCC_DICHEADER).
Local Abbreviation header_matches := (header_matches OPENCC_DICHEADER).

Section Run.

Variables (o : os) (filename : string) (w : world).
Variables (junk : datrie_dictionary) (bs : list byte).
Hypothesis Hjunk : malloc_dict o = Some junk.
Hypothesis Hfile : files o filename = Some bs.

Local Abbreviation b := (length (heap w)).
Local Abbreviation h := (heap w ++ [Some (ByMalloc, Dict junk)]).
Local Abbreviation d0 := (set_lexicon NULL (set_dat NULL junk)).

Lemma world_at_load_shape :
  world_at_load w junk = shape h b (Some (ByMalloc, Dict d0)) [] (S (streams w))
  ∧ (b < length h)%nat ∧ length h = S b.
Proof.
  unfold world_at_load. rewrite shape_fresh, length_app. simpl.
  repeat split; lia.
Qed.

(** When [load_dict] fails, [dict_datrie_open] frees the structure and
    returns [(dict_ptr) -1]. *)
Lemma open_after_failed_load w_fail :
  load_dict o (Pblk b 0) (Some bs) (world_at_load w junk) = Ret (-1, w_fail) →
  (∃ d, closable w_fail (Pblk b 0) d) →
  ∃ w', dict_datrie_open o filename w = Ret (Pint (to_size_t (-1)), w')
        ∧ live w' b = None ∧ streams w' = streams w_fail.
Proof.
  intros Hload [d Hc].
  rewrite (dict_datrie_open_split _ o filename w junk (Some bs) Hjunk Hfile).
  unfold bind at 1. rewrite Hload. simpl. unfold bind at 1.
  destruct (dict_datrie_close_run o w_fail b d Hc) as (w' & Hrun & Hdead & Hs & _).
  rewrite Hrun. by exists w'.
Qed.

Hypothesis Hmax : Z.of_nat (length bs) ≤ PTRDIFF_MAX.
Hypothesis Hlen : strlen OPENCC_DICHEADER + 16 ≤ Z.of_nat (length bs).

Lemma load_dict_at_open :
  load_dict o (Pblk b 0) (Some bs) (world_at_load w junk)
  = match acquire o bs with
    | Some (r, content) =>
      let d1 := acquired_dict (Pblk (S b) 0) (memory_type_of r)
                  (Z.of_nat (length bs)) d0 in
      if decide (header_matches content) then
        Ret (0, shape h b
                  (Some (ByMalloc,
                         Dict (opened_dict OPENCC_DICHEADER (S b) r content
                                 (Z.of_nat (length bs)))))
                  [Some (r, Bytes content)] (S (streams w)))
      else Ret (-1, shape h b (Some (ByMalloc, Dict d1))
                      [Some (r, Bytes content)] (S (streams w)))
    | None =>
      Ret (-1, shape h b
                 (Some (ByMalloc, Dict (acquired_dict NULL MEMORY_TYPE_ALLOCATE
                                          (Z.of_nat (length bs)) d0)))
                 [] (S (streams w)))
    end.
Proof.
  destruct world_at_load_shape as (-> & Hb & Hh).
  rewrite load_dict_run by done. rewrite Hh.
  destruct (acquire o bs) as [[r content]|]; [|done].
  simpl. by case_decide.
Qed.

Lemma open_succeeds r content :
  acquire o bs = Some (r, content) → header_matches content →
  dict_datrie_open o filename w
  = Ret (Pblk b 0,
         opened_world OPENCC_DICHEADER w r content (Z.of_nat (length bs))).
Proof.
  intros Hacq Hhdr.
  rewrite (dict_datrie_open_split _ o filename w junk (Some bs) Hjunk Hfile).
  unfold bind at 1. rewrite load_dict_at_open, Hacq. simpl.
  rewrite decide_True by done. simpl. unfold bind, fclose, ret.
  unfold opened_world. rewrite shape_fresh. done.
Qed.

Lemma open_fails :
  match acquire o bs with
  | Some (r, content) => ¬ header_matches content
  | None => True
  end →
  ∃ w_fail w',
    load_dict o (Pblk b 0) (Some bs) (world_at_load w junk) = Ret (-1, w_fail)
    ∧ dict_datrie_open o filename w = Ret (Pint (to_size_t (-1)), w')
    ∧ live w' b = None ∧ streams w' = S (streams w).
Proof.
  intros Hwhy. pose proof load_dict_at_open as Hload.
  destruct world_at_load_shape as (_ & Hb & Hh).
  destruct (acquire o bs) as [[r content]|] eqn:Hacq.
  - simpl in Hload. rewrite decide_False in Hload by done.
    eexists. destruct (open_after_failed_load _ Hload) as (w' & Hrun & Hdead & Hs).
    { eexists. exists b. split; [done|]. split; [by apply shape_live_here|].
      simpl. intros _ Hty. exists (S b), content. split; [done|].
      rewrite <- Hh. destruct r; [|done]. by apply shape_live_first. }
    exists w'. by repeat split.
  - eexists. destruct (open_after_failed_load _ Hload) as (w' & Hrun & Hdead & Hs).
    { eexists. exists b. split; [done|]. split; [by apply shape_live_here|].
      simpl. done. }
    exists w'. by repeat split.
Qed.

End Run.

End Opening.

(** ** Queries see bytes and views only *)

Section Same.

Variable DATRIE_UNUSED : Z.
Variables w1 w2 : world.
Hypothesis Hsame : same_for_queries w1 w2.

Lemma item_at_same dd i : item_at w1 dd i = item_at w2 dd i.
Proof.
  destruct Hsame as [Hbytes Hviews]. unfold item_at.
  specialize (Hviews dd).
  destruct (dict_at w1 dd) as [d1|], (dict_at w2 dd) as [d2|]; simpl in *;
    try done.
  injection Hviews as Hdat _ _ _. by rewrite Hdat, Hbytes.
Qed.

Lemma count_at_same dd : count_at w1 dd = count_at w2 dd.
Proof.
  destruct Hsame as [_ Hviews]. unfold count_at. specialize (Hviews dd).
  destruct (dict_at w1 dd) as [d1|], (dict_at w2 dd) as [d2|]; simpl in *;
    try done.
  injection Hviews as _ Hc _ _. by rewrite Hc.
Qed.

Lemma lexicon_at_same dd : lexicon_at w1 dd = lexicon_at w2 dd.
Proof.
  destruct Hsame as [_ Hviews]. unfold lexicon_at. specialize (Hviews dd).
  destruct (dict_at w1 dd) as [d1|], (dict_at w2 dd) as [d2|]; simpl in *;
    try done.
  injection Hviews as _ _ Hl _. by rewrite Hl.
Qed.

Lemma datrie_match_from_same dd limit rest : ∀ i p,
  datrie_match_from DATRIE_UNUSED w1 dd limit rest i p
  = datrie_match_from DATRIE_UNUSED w2 dd limit rest i p.
Proof.
  induction rest as [|c rest IH]; intros i p; simpl; [done|].
  rewrite count_at_same. rewrite !item_at_same.
  destruct (c =? 0); [done|].
  destruct (negb _); [done|].
  destruct (item_at w2 dd i) as [it|]; simpl; [|done].
  destruct (base it =? DATRIE_UNUSED); [done|].
  destruct (_ <? 0); [done|].
  destruct (count_at w2 dd) as [n|]; simpl; [|done].
  destruct (_ >=? n); [done|].
  rewrite item_at_same.
  destruct (item_at w2 dd _) as [itj|]; simpl; [|done].
  destruct (negb _); [done|]. apply IH.
Qed.

Lemma match_longest_loop_same dd input : ∀ (fuel : nat) pos item,
  match_longest_loop DATRIE_UNUSED fuel w1 dd input pos item
  = match_longest_loop DATRIE_UNUSED fuel w2 dd input pos item.
Proof.
  induction fuel as [|fuel IH]; intros pos item; simpl;
    rewrite item_at_same; [done|].
  destruct (item_at w2 dd item) as [it|]; simpl; [|done].
  destruct (_ && _); [|done].
  unfold datrie_match. rewrite datrie_match_from_same.
  destruct (datrie_match_from DATRIE_UNUSED w2 dd (pos - 1) input 0 0) as [r| |];
    simpl; done.
Qed.

Lemma dict_datrie_match_longest_same dp input limit :
  dict_datrie_match_longest DATRIE_UNUSED w1 dp input limit
  = dict_datrie_match_longest DATRIE_UNUSED w2 dp input limit.
Proof.
  unfold dict_datrie_match_longest, match_longest_with, datrie_match.
  rewrite datrie_match_from_same.
  destruct (datrie_match_from DATRIE_UNUSED w2 dp limit input 0 0) as [r| |];
    simpl; try done.
  rewrite match_longest_loop_same.
  destruct (match_longest_loop DATRIE_UNUSED _ w2 dp input r.1 r.2) as [r'| |];
    simpl; try done.
  destruct (r'.1 =? 0); [done|]. rewrite item_at_same.
  destruct (item_at w2 dp r'.2) as [it|]; simpl; [|done].
  destruct (word it =? -1); [done|]. by rewrite lexicon_at_same.
Qed.

Lemma all_match_lengths_from_same dd rest : ∀ i p buf rscnt,
  all_match_lengths_from DATRIE_UNUSED w1 dd rest i p buf rscnt
  = all_match_lengths_from DATRIE_UNUSED w2 dd rest i p buf rscnt.
Proof.
  induction rest as [|c rest IH]; intros i p buf rscnt; simpl; [done|].
  rewrite count_at_same. rewrite !item_at_same.
  destruct (c =? 0); [done|].
  destruct (item_at w2 dd i) as [it|]; simpl; [|done].
  destruct (base it =? DATRIE_UNUSED); [done|].
  destruct (_ <? 0); [done|].
  destruct (count_at w2 dd) as [n|]; simpl; [|done].
  destruct (_ >=? n); [done|].
  rewrite !item_at_same.
  destruct (item_at w2 dd (int_add _ _)) as [itj|]; simpl; [|done].
  destruct (negb (to_size_t _ =? i)); [done|].
  destruct (item_at w2 dd (to_size_t _)) as [iti|]; simpl; [|done].
  destruct (negb _); [|apply IH].
  destruct (store buf rscnt (p + 1)); simpl; [apply IH | done].
Qed.

End Same.

(** A region is the same region for a query whether it was mapped or
    copied. *)
Lemma opened_world_same header w content size :
  same_for_queries (opened_world header w ByMmap content size)
                   (opened_world header w ByMalloc content size).
Proof.
  assert (Hlive : ∀ blk,
    match live (opened_world header w ByMmap content size) blk,
          live (opened_world header w ByMalloc content size) blk with
    | Some (_, Bytes bs1), Some (_, Bytes bs2) => bs1 = bs2
    | Some (_, Dict d1), Some (_, Dict d2) => views d1 = views d2
    | None, None => True
    | _, _ => False
    end).
  { intros blk. unfold live, opened_world. simpl.
    destruct (decide (blk < length (heap w))%nat) as [Hlt | Hge].
    - rewrite !lookup_app_l by done.
      destruct (heap w !! blk) as [[[og []]|]|]; done.
    - rewrite !lookup_app_r by lia.
      destruct (blk - length (heap w))%nat as [|[|k]]; simpl; done. }
  split.
  - intros [n | blk ofs] k; [done|]. unfold load_bytes.
    specialize (Hlive blk).
    destruct (live (opened_world header w ByMmap content size) blk)
      as [[og1 [bs1 | d1]]|],
      (live (opened_world header w ByMalloc content size) blk)
      as [[og2 [bs2 | d2]]|]; try done.
    by subst.
  - intros [n | blk ofs]; [done|]. unfold dict_at.
    specialize (Hlive blk).
    destruct ofs; try done.
    destruct (live (opened_world header w ByMmap content size) blk)
      as [[og1 [bs1 | d1]]|],
      (live (opened_world header w ByMalloc content size) blk)
      as [[og2 [bs2 | d2]]|]; try done.
    simpl. by rewrite Hlive.
Qed.

Section Claims.

Variable OPENCC_DICHEADER : list byte.
Variable DATRIE_UNUSED : Z.

Local Abbreviation dict_datrie_open := (dict_datrie_open OPENCC_DICHEADER).
Local Abbreviation load_dict := (load_dict OPENCC_DICHEADER).
Local Abbreviation load_dict_parse := (load_dict_parse OPENCC_DICHEADER).
Local Abbreviation header_matches := (header_matches OPENCC_DICHEADER).
Local Abbreviation dict_datrie_match_longest := (dict_datrie_match_longest DATRIE_UNUSED).
Local Abbreviation dict_datrie_get_all_match_lengths :=
  (dict_datrie_get_all_match_lengths DATRIE_UNUSED).

(** ** The claims about loading and closing *)

(** A parse that fails has changed nothing. *)
Lemma load_dict_parse_fails dd w w' :
  load_dict_parse dd w = Ret (-1, w') → w' = w.
Proof.
  unfold load_dict_parse, bind, reading, get_dict, ret.
  destruct (dict_at w dd) as [d|]; [|done].
  destruct (strncmp w _ _ _) as [c| |]; [|done..].
  destruct (negb (c =? 0)); [by intros [= <-]|].
  destruct (defined (load_size_t w _)) as [n| |]; [|done..].
  destruct (modify_dict dd _ w) as [[[] w1]| |]; [|done..].
  destruct (defined (load_size_t w1 _)) as [k| |]; [|done..].
  destruct (modify_dict dd _ w1) as [[[] w2]| |]; [|done..].
  destruct (modify_dict dd _ w2) as [[[] w3]| |]; [|done..].
  destruct (modify_dict dd _ w3) as [[[] w4]| |]; done.
Qed.

(** After a failed [load_dict] in [dict_datrie_open] the structure can be
    closed. *)
Lemma failed_load_closable o w junk bs w_fail :
  load_dict o (Pblk (length (heap w)) 0) (Some bs) (world_at_load w junk)
  = Ret (-1, w_fail) →
  ∃ d, closable w_fail (Pblk (length (heap w)) 0) d.
Proof.
  destruct (world_at_load_shape w junk) as (-> & Hb & Hh).
  rewrite load_dict_split. unfold bind at 1.
  rewrite load_dict_acquire_run by done.
  destruct (acquire o bs) as [[r content]|]; simpl.
  - intros Hparse. pose proof (load_dict_parse_fails _ _ _ Hparse) as ->.
    eexists. exists (length (heap w)). split; [done|].
    split; [by apply shape_live_here|]. simpl. intros _ Hty.
    exists (S (length (heap w))), content. rewrite Hh. split; [done|].
    rewrite <- Hh. destruct r; [|done]. by apply shape_live_first.
  - intros [= <-]. eexists. exists (length (heap w)). split; [done|].
    split; [by apply shape_live_here|]. done.
Qed.

(** [dict_datrie_open] with no structure to work on, or no file to read,
    is undefined. *)
Lemma open_undefined o filename w :
  malloc_dict o = None ∨ files o filename = None →
  dict_datrie_open o filename w = Undefined.
Proof.
  destruct (malloc_dict o) as [junk|] eqn:Hjunk.
  - intros [? | Hfile]; [done|].
    by rewrite (dict_datrie_open_split _ o filename w junk None Hjunk Hfile).
  - intros _. unfold dict_datrie_open, malloc_datrie_dictionary.
    by rewrite Hjunk.
Qed.

(** C6. Once the memory is there, [load_dict] fails exactly when the
    region does not begin with the magic header. When it does, the lexicon
    length and the item count are the two [size_t] right after the header,
    the lexicon view starts after them and the table view starts where the
    declared lexicon ends; the size of the region plays no part, so the
    call succeeds whatever the two counts are. *)
Theorem load_dict_checks_header_only o w dd d bs r content :
  dict_at w dd = Some d →
  Z.of_nat (length bs) ≤ PTRDIFF_MAX →
  strlen OPENCC_DICHEADER + 16 ≤ Z.of_nat (length bs) →
  acquire o bs = Some (r, content) →
  let hl := strlen OPENCC_DICHEADER in
  ∃ res w',
    load_dict o dd (Some bs) w = Ret (res, w')
    ∧ (res = -1 ↔ ¬ header_matches content)
    ∧ (header_matches content →
       res = 0
       ∧ ∃ d' rb,
           dict_at w' dd = Some d'
           ∧ dic_memory d' = Pblk rb 0
           ∧ live w' rb = Some (r, Bytes content)
           ∧ lexicon_length d' = decode_size_t (take 8 (drop (Z.to_nat hl) content))
           ∧ dat_item_count d'
             = decode_size_t (take 8 (drop (Z.to_nat (hl + 8)) content))
           ∧ lexicon d' = ptr_add (dic_memory d') (hl + 16)
           ∧ dat d' = ptr_add (dic_memory d')
                        (size_add (hl + 16)
                           (size_mul (lexicon_length d') sizeof_wchar_t))).
Proof.
  intros Hdict Hmax Hlen Hacq hl.
  destruct dd as [n | b ofs]; [done|]. unfold dict_at in Hdict.
  destruct ofs; try done.
  destruct (live w b) as [[og [bs0 | d0]]|] eqn:Hlive; try done.
  injection Hdict as ->.
  destruct (shape_of_world w b og d Hlive) as [Hw Hb].
  rewrite Hw, load_dict_run, Hacq by done. simpl.
  destruct (decide (header_matches content)) as [Hm | Hm].
  - eexists 0, _. split; [done|]. split; [split; [done | by intros ?]|].
    intros _. split; [done|].
    eexists _, (length (heap w)). split; [by apply shape_dict_at|].
    split; [done|]. split; [by apply shape_live_first|]. repeat split.
  - eexists (-1), _. split; [done|]. split; [done | by intros ?].
Qed.

(** C8. Closing a handle whose storage came from [malloc]. When the
    region is [NULL], [unload_dict] does nothing and returns 0. Whatever
    [unload_dict] returns, the storage of the handle is freed: after the
    call the block is dead and the pointer leads to no structure. The call
    returns -1 when [unload_dict] did, which is so when the region was
    mapped and [munmap] fails, and 0 otherwise. *)
Theorem close_frees_handle o w dp d :
  closable w dp d →
  (dic_memory d = NULL → unload_dict o dp w = Ret (0, w))
  ∧ ∃ res w' hb,
      dict_datrie_close o dp w = Ret (res, w')
      ∧ dp = Pblk hb 0 ∧ live w' hb = None ∧ dict_at w' dp = None
      ∧ (res = -1 ∨ res = 0)
      ∧ (res = -1 ↔ unload_result o d = -1)
      ∧ (dic_memory d ≠ NULL → dic_memory_type d = MEMORY_TYPE_MMAP →
         munmap_ok o = false → res = -1).
Proof.
  intros Hc. pose proof Hc as (hb & -> & Hlive & Hregion). split.
  - intros Hnull. destruct (unload_dict_run o w hb d Hc) as (w' & Hrun & _ & Hw & _).
    rewrite Hrun, (Hw Hnull). unfold unload_result.
    replace (ptr_eqb (dic_memory d) NULL) with true; [done|].
    symmetry. by apply ptr_eqb_NULL.
  - destruct (dict_datrie_close_run o w hb d Hc) as (w' & Hrun & Hdead & _).
    eexists _, w', hb. split; [exact Hrun|]. split; [done|]. split; [done|].
    split; [unfold dict_at; by rewrite Hdead|].
    destruct (Z.eqb_spec (unload_result o d) (-1)) as [He | Hne].
    + split; [by left|]. split; [done|]. done.
    + split; [by right|]. split; [split; [done | by intros ?]|].
      intros Hnn Hty Hmun. exfalso. apply Hne. unfold unload_result.
      replace (ptr_eqb (dic_memory d) NULL) with false.
      * by rewrite Hty, Hmun.
      * symmetry. apply not_true_is_false. by rewrite ptr_eqb_NULL.
Qed.

(** C10. When [load_dict] fails, [dict_datrie_open] returns the integer -1
    converted to a pointer, having freed the structure; it does not return
    [NULL], so a caller that compares the result with [NULL] takes the
    failed open for a handle. Whenever [dict_datrie_open] returns, what it
    returns is not [NULL]. *)
Theorem failed_open_returns_minus_one o filename w junk bs w_fail :
  malloc_dict o = Some junk → files o filename = Some bs →
  load_dict o (Pblk (length (heap w)) 0) (Some bs) (world_at_load w junk)
  = Ret (-1, w_fail) →
  (∃ w', dict_datrie_open o filename w = Ret (Pint (to_size_t (-1)), w')
         ∧ Pint (to_size_t (-1)) ≠ NULL
         ∧ is_null (Pint (to_size_t (-1))) = false
         ∧ live w' (length (heap w)) = None)
  ∧ (∀ o' filename' w0 res, dict_datrie_open o' filename' w0 = Ret res →
       is_null res.1 = false).
Proof.
  intros Hjunk Hfile Hload. split.
  - destruct (open_after_failed_load OPENCC_DICHEADER o filename w junk bs Hjunk Hfile
                w_fail Hload (failed_load_closable _ _ _ _ _ Hload))
      as (w' & Hrun & Hdead & _).
    exists w'. by repeat split.
  - clear. intros o filename w res.
    destruct (malloc_dict o) as [junk|] eqn:Hjunk; cycle 1.
    { by rewrite open_undefined by (by left). }
    destruct (files o filename) as [bs|] eqn:Hfile; cycle 1.
    { by rewrite open_undefined by (by right). }
    rewrite (dict_datrie_open_split _ o filename w junk (Some bs) Hjunk Hfile).
    unfold bind.
    destruct (load_dict o _ _ _) as [[r w1]| |]; [|done..].
    destruct (r =? -1).
    + destruct (dict_datrie_close o _ w1) as [[? w2]| |]; [|done..].
      by intros [= <-].
    + destruct (fclose _ w1) as [[? w2]| |]; [|done..].
      by intros [= <-].
Qed.

End Claims.

Section Extras.

Variable OPENCC_DICHEADER : list byte.

Local Abbreviation dict_datrie_open := (dict_datrie_open OPENCC_DICHEADER).
Local Abbreviation header_matches := (header_matches OPENCC_DICHEADER).


(** X2. On the failure path [dict_datrie_open] does not call [fclose]: the
    stream it opened is still open when it returns [(dict_ptr) -1], while a
    successful call leaves as many streams open as it found. *)
Theorem failed_open_leaves_stream_open o filename w junk bs :
  malloc_dict o = Some junk → files o filename = Some bs →
  Z.of_nat (length bs) ≤ PTRDIFF_MAX →
  strlen OPENCC_DICHEADER + 16 ≤ Z.of_nat (length bs) →
  ∃ dp w',
    dict_datrie_open o filename w = Ret (dp, w')
    ∧ streams w' = if ptr_eqb dp (Pint (to_size_t (-1))) then S (streams w)
                   else streams w.
Proof.
  intros Hjunk Hfile Hmax Hlen.
  pose proof (open_fails OPENCC_DICHEADER o filename w junk bs Hjunk Hfile Hmax Hlen)
    as Hfails.
  pose proof (open_succeeds OPENCC_DICHEADER o filename w junk bs Hjunk Hfile Hmax Hlen)
    as Hok.
  destruct (acquire o bs) as [[r content]|].
  - destruct (decide (header_matches content)) as [Hm | Hm].
    + eexists _, _. split; [exact (Hok r content eq_refl Hm) | done].
    + destruct (Hfails Hm) as (w_fail & w' & _ & Hrun & _ & Hs).
      exists (Pint (to_size_t (-1))), w'. split; [exact Hrun | exact Hs].
  - destruct (Hfails I) as (w_fail & w' & _ & Hrun & _ & Hs).
    exists (Pint (to_size_t (-1))), w'. split; [exact Hrun | exact Hs].
Qed.

End Extras.

(** ** The end of the word *)

Section Terminator.

Variable DATRIE_UNUSED : Z.

Local Abbreviation datrie_match_from := (datrie_match_from DATRIE_UNUSED).
Local Abbreviation datrie_match := (datrie_match DATRIE_UNUSED).
Local Abbreviation node_of := (node_of DATRIE_UNUSED).
Local Abbreviation entry := (entry DATRIE_UNUSED).
Local Abbreviation match_longest_loop := (match_longest_loop DATRIE_UNUSED).
Local Abbreviation match_longest_with := (match_longest_with DATRIE_UNUSED).
Local Abbreviation dict_datrie_match_longest := (dict_datrie_match_longest DATRIE_UNUSED).
Local Abbreviation all_match_lengths_from := (all_match_lengths_from DATRIE_UNUSED).
Local Abbreviation dict_datrie_get_all_match_lengths :=
  (dict_datrie_get_all_match_lengths DATRIE_UNUSED).

Lemma datrie_match_from_terminator w dd limit pre post : ∀ i p,
  datrie_match_from w dd limit (pre ++ 0 :: post) i p
  = datrie_match_from w dd limit pre i p.
Proof.
  induction pre as [|c pre IH]; intros i p; [done|].
  simpl. loop_cases; try done; apply IH.
Qed.

Lemma match_longest_loop_terminator w dd pre post : ∀ (fuel : nat) pos item,
  match_longest_loop fuel w dd (pre ++ 0 :: post) pos item
  = match_longest_loop fuel w dd pre pos item.
Proof.
  induction fuel as [|fuel IH]; intros pos item; simpl; [done|].
  destruct (item_at w dd item) as [it|]; simpl; [|done].
  destruct ((word it =? -1) && (pos >? 1)); [|done].
  unfold datrie_match. rewrite datrie_match_from_terminator.
  destruct (datrie_match_from _ _ _ _ _ _) as [r| |]; simpl; [|done..].
  apply IH.
Qed.

Lemma all_match_lengths_from_terminator w dd pre post : ∀ i p buf r,
  all_match_lengths_from w dd (pre ++ 0 :: post) i p buf r
  = all_match_lengths_from w dd pre i p buf r.
Proof.
  induction pre as [|c pre IH]; intros i p buf r; [done|].
  simpl. loop_cases; try done; apply IH.
Qed.

(** The result of longest match for a budget that covers the first
    walk. *)
Lemma match_longest_with_budget w dp input limit (fuel fuel' : nat) :
  (length input ≤ fuel)%nat → (length input ≤ fuel')%nat →
  match_longest_with fuel w dp input limit
  = match_longest_with fuel' w dp input limit.
Proof.
  intros Hf Hf'. unfold match_longest_with.
  destruct (datrie_match w dp input limit) as [r| |] eqn:Hr; simpl; [|done..].
  apply datrie_match_from_bounds in Hr.
  rewrite (match_longest_loop_budget _ w dp input fuel fuel') by lia.
  done.
Qed.

(** X3. The walks read the word up to its first 0 and no further: what
    follows the terminator changes nothing in the result of
    [datrie_match], of [dict_datrie_match_longest] or of
    [dict_datrie_get_all_match_lengths]. *)
Theorem nothing_read_after_terminator w dp pre post limit buf :
  datrie_match w dp (pre ++ 0 :: post) limit = datrie_match w dp pre limit
  ∧ dict_datrie_match_longest w dp (pre ++ 0 :: post) limit
    = dict_datrie_match_longest w dp pre limit
  ∧ dict_datrie_get_all_match_lengths w dp (pre ++ 0 :: post) buf
    = dict_datrie_get_all_match_lengths w dp pre buf.
Proof.
  assert (E : datrie_match w dp (pre ++ 0 :: post) limit = datrie_match w dp pre limit).
  { unfold datrie_match. apply datrie_match_from_terminator. }
  split; [done|]. split.
  - unfold dict_datrie_match_longest.
    rewrite (match_longest_with_budget w dp pre limit (length pre)
               (length (pre ++ 0 :: post)))
      by (rewrite ?length_app; lia).
    unfold match_longest_with. rewrite E.
    destruct (datrie_match w dp pre limit) as [r| |]; simpl; [|done..].
    by rewrite match_longest_loop_terminator.
  - unfold dict_datrie_get_all_match_lengths.
    apply all_match_lengths_from_terminator.
Qed.

(** X4. The empty word matches nothing, whatever the table holds (the
    [word] of the root is never returned): for a word that is empty or
    starts with the terminator, longest match returns [NULL] and the
    enumeration returns 0 and leaves the buffer alone. *)
Theorem empty_word_matches_nothing w dd limit rest (buf : list Z) :
  is_Some (item_at w dd 0) →
  dict_datrie_match_longest w dd [] limit = Ret NULL
  ∧ dict_datrie_match_longest w dd (0 :: rest) limit = Ret NULL
  ∧ dict_datrie_get_all_match_lengths w dd [] buf = Ret (0, buf)
  ∧ dict_datrie_get_all_match_lengths w dd (0 :: rest) buf = Ret (0, buf).
Proof.
  intros [it Hit].
  assert (E : ∀ fuel input, datrie_match w dd input limit = Ret (0, 0) →
              match_longest_with fuel w dd input limit = Ret NULL).
  { intros fuel input Hrun. unfold match_longest_with. rewrite Hrun. simpl.
    destruct fuel; simpl; rewrite Hit; simpl;
      by rewrite andb_false_r. }
  repeat split; try done; by apply E.
Qed.

End Terminator.

(** ** The limit *)

Section Truncation.

Variable DATRIE_UNUSED : Z.
Local Abbreviation datrie_match_from := (datrie_match_from DATRIE_UNUSED).
Local Abbreviation datrie_match := (datrie_match DATRIE_UNUSED).
Local Abbreviation match_longest_loop := (match_longest_loop DATRIE_UNUSED).
Local Abbreviation match_longest_with := (match_longest_with DATRIE_UNUSED).
Local Abbreviation dict_datrie_match_longest := (dict_datrie_match_longest DATRIE_UNUSED).

(** A limit cuts the input: the walk with a limit is the walk without
    one on the characters before the limit. *)
Lemma datrie_match_from_limit_cut w dd limit rest : ∀ i p,
  0 < limit → p ≤ limit →
  datrie_match_from w dd limit rest i p
  = datrie_match_from w dd 0 (take (Z.to_nat (limit - p)) rest) i p.
Proof.
  induction rest as [|c rest IH]; intros i p Hl Hp.
  { by rewrite take_nil. }
  destruct (decide (p = limit)) as [-> | Hne].
  { rewrite Z.sub_diag. simpl. destruct (c =? 0); [done|].
    destruct (Z.eqb_spec limit 0); [lia|].
    by destruct (Z.ltb_spec limit limit); [lia|]. }
  replace (Z.to_nat (limit - p)) with (S (Z.to_nat (limit - (p + 1)))) by lia.
  simpl. destruct (c =? 0); [done|].
  destruct (Z.eqb_spec limit 0); [lia|].
  destruct (Z.ltb_spec p limit); [|lia]. simpl.
  destruct (item_at w dd i) as [it|]; simpl; [|done].
  destruct (base it =? DATRIE_UNUSED); [done|].
  destruct (int_add (base it) (encode_char c) <? 0); [done|].
  destruct (count_at w dd) as [n'|]; simpl; [|done].
  destruct (to_size_t _ >=? n'); [done|].
  destruct (item_at w dd (int_add _ _)) as [itj|]; simpl; [|done].
  destruct (negb _); [done|].
  apply IH; lia.
Qed.

Lemma datrie_match_limit_cut w dd input limit :
  0 < limit →
  datrie_match w dd input limit = datrie_match w dd (take (Z.to_nat limit) input) 0.
Proof.
  intros Hl. unfold datrie_match.
  rewrite datrie_match_from_limit_cut by lia. by rewrite Z.sub_0_r.
Qed.

(** The retries of longest match look at the input inside the position
    they start from only. *)
Lemma match_longest_loop_cut w dd input (k : nat) : ∀ (fuel : nat) pos item,
  pos ≤ Z.of_nat k →
  match_longest_loop fuel w dd (take k input) pos item
  = match_longest_loop fuel w dd input pos item.
Proof.
  induction fuel as [|fuel IH]; intros pos item Hpos; simpl; [done|].
  destruct (item_at w dd item) as [it|]; simpl; [|done].
  destruct ((word it =? -1) && (pos >? 1)) eqn:Hc; [|done].
  apply andb_true_iff in Hc. destruct Hc as [_ Hgt]. apply Z.gtb_lt in Hgt.
  rewrite (datrie_match_limit_cut w dd input (pos - 1)) by lia.
  rewrite (datrie_match_limit_cut w dd (take k input) (pos - 1)) by lia.
  rewrite take_take.
  replace (Z.to_nat (pos - 1) `min` k)%nat with (Z.to_nat (pos - 1)) by lia.
  destruct (datrie_match w dd (take (Z.to_nat (pos - 1)) input) 0) as [r| |] eqn:Hr;
    simpl; [|done..].
  apply IH. apply datrie_match_from_bounds in Hr.
  rewrite length_take in Hr. lia.
Qed.

(** X5. A length limit above 0 cuts the word: [datrie_match] and
    [dict_datrie_match_longest] with the limit [L] return what they return
    without a limit on the first [L] characters of the word. So a limit
    that is at least the length of the word is the same as the limit 0. *)
Theorem limit_is_truncation w dp input limit :
  0 < limit →
  datrie_match w dp input limit
  = datrie_match w dp (take (Z.to_nat limit) input) 0
  ∧ dict_datrie_match_longest w dp input limit
    = dict_datrie_match_longest w dp (take (Z.to_nat limit) input) 0
  ∧ (Z.of_nat (length input) ≤ limit →
     dict_datrie_match_longest w dp input limit
     = dict_datrie_match_longest w dp input 0).
Proof.
  intros Hl.
  pose proof (datrie_match_limit_cut w dp input limit Hl) as E.
  assert (Hcut : dict_datrie_match_longest w dp input limit
                 = dict_datrie_match_longest w dp (take (Z.to_nat limit) input) 0).
  { unfold dict_datrie_match_longest.
    rewrite (match_longest_with_budget _ w dp input limit (length input)
               (length input + length (take (Z.to_nat limit) input))) by lia.
    rewrite (match_longest_with_budget _ w dp (take (Z.to_nat limit) input) 0
               (length (take (Z.to_nat limit) input))
               (length input + length (take (Z.to_nat limit) input))) by lia.
    unfold match_longest_with. rewrite E.
    destruct (datrie_match w dp (take (Z.to_nat limit) input) 0) as [r| |] eqn:Hr;
      simpl; [|done..].
    rewrite match_longest_loop_cut; [done|].
    apply datrie_match_from_bounds in Hr. rewrite length_take in Hr. lia. }
  split; [done|]. split; [done|].
  intros Hlen. rewrite Hcut. by rewrite take_ge by lia.
Qed.

End Truncation.

(** ** The enumeration and its buffer *)

Section Room.

Variable DATRIE_UNUSED : Z.

Local Abbreviation datrie_match_from := (datrie_match_from DATRIE_UNUSED).
Local Abbreviation datrie_match := (datrie_match DATRIE_UNUSED).
Local Abbreviation node_of := (node_of DATRIE_UNUSED).
Local Abbreviation entry := (entry DATRIE_UNUSED).
Local Abbreviation terminal_after := (terminal_after DATRIE_UNUSED).
Local Abbreviation match_longest_loop := (match_longest_loop DATRIE_UNUSED).
Local Abbreviation match_longest_with := (match_longest_with DATRIE_UNUSED).
Local Abbreviation dict_datrie_match_longest := (dict_datrie_match_longest DATRIE_UNUSED).
Local Abbreviation all_match_lengths_from := (all_match_lengths_from DATRIE_UNUSED).
Local Abbreviation dict_datrie_get_all_match_lengths :=
  (dict_datrie_get_all_match_lengths DATRIE_UNUSED).
Local Abbreviation walk_step := (walk_step DATRIE_UNUSED).

(** One iteration of the enumeration. *)
Lemma all_match_lengths_from_cons w dd c rest i p buf r :
  all_match_lengths_from w dd (c :: rest) i p buf r
  = (o ← walk_step w dd c i;
     match o with
     | None => Ret (r, buf)
     | Some j =>
       iti ← defined (item_at w dd j);
       if negb (word iti =? -1) then
         buf' ← defined (store buf r (p + 1));
         all_match_lengths_from w dd rest j (p + 1) buf' (r + 1)
       else all_match_lengths_from w dd rest j (p + 1) buf r
     end).
Proof.
  unfold walk_step. simpl.
  destruct (c =? 0); [done|].
  destruct (item_at w dd i) as [it|]; simpl; [|done].
  destruct (base it =? DATRIE_UNUSED); [done|].
  destruct (int_add (base it) (encode_char c) <? 0); [done|].
  destruct (count_at w dd) as [n|]; simpl; [|done].
  destruct (to_size_t _ >=? n); [done|].
  destruct (item_at w dd (int_add _ _)) as [itj|]; simpl; [|done].
  by destruct (to_size_t (parent itj) =? i).
Qed.

Lemma store_Some buf r v buf' :
  store buf r v = Some buf' →
  0 ≤ r < Z.of_nat (length buf) ∧ buf' = <[Z.to_nat r := v]> buf.
Proof.
  unfold store.
  destruct (Z.leb_spec 0 r); simpl; [|done].
  destruct (Z.ltb_spec r (Z.of_nat (length buf))); [|done].
  intros [= <-]. split; [lia | done].
Qed.

Lemma store_None buf r v :
  0 ≤ r → store buf r v = None → Z.of_nat (length buf) ≤ r.
Proof.
  unfold store. intros Hr.
  destruct (Z.leb_spec 0 r); simpl; [|lia].
  destruct (Z.ltb_spec r (Z.of_nat (length buf))); [done|]. lia.
Qed.

(** The count only grows, and the buffer keeps its size. *)
Lemma all_match_lengths_from_count w dd rest : ∀ i p buf r n out,
  all_match_lengths_from w dd rest i p buf r = Ret (n, out) →
  r ≤ n ∧ length out = length buf.
Proof.
  induction rest as [|c rest IH]; intros i p buf r n out.
  { intros [= <- <-]. lia. }
  rewrite all_match_lengths_from_cons.
  destruct (walk_step w dd c i) as [[j|]| |]; simpl; [| |done..]; cycle 1.
  { intros [= <- <-]. lia. }
  destruct (item_at w dd j) as [iti|]; simpl; [|done].
  destruct (negb _); [|apply IH].
  destruct (store buf r (p + 1)) as [buf'|] eqn:Hst; simpl; [|done].
  apply store_Some in Hst. destruct Hst as [_ ->].
  intros Hr. apply IH in Hr. rewrite length_insert in Hr. lia.
Qed.

(** The same walk with a buffer cut short: the same count and the same
    lengths when they fit, and a write past the end when they do not. *)
Lemma all_match_lengths_from_cut w dd rest : ∀ i p buf pad r n out,
  0 ≤ r ≤ Z.of_nat (length buf) →
  all_match_lengths_from w dd rest i p (buf ++ pad) r = Ret (n, out) →
  all_match_lengths_from w dd rest i p buf r
  = if decide (n ≤ Z.of_nat (length buf)) then Ret (n, take (length buf) out)
    else Undefined.
Proof.
  induction rest as [|c rest IH]; intros i p buf pad r n out Hr.
  { intros [= <- <-]. simpl. rewrite decide_True by lia.
    by rewrite take_app_length. }
  rewrite !all_match_lengths_from_cons.
  destruct (walk_step w dd c i) as [[j|]| |]; simpl; [| |done..]; cycle 1.
  { intros [= <- <-]. rewrite decide_True by lia. by rewrite take_app_length. }
  destruct (item_at w dd j) as [iti|]; simpl; [|done].
  destruct (negb _); [|by apply IH].
  destruct (store (buf ++ pad) r (p + 1)) as [big|] eqn:Hbig; simpl; [|done].
  apply store_Some in Hbig. destruct Hbig as [Hrb ->].
  intros Hrun.
  destruct (store buf r (p + 1)) as [buf'|] eqn:Hst; simpl.
  - apply store_Some in Hst. destruct Hst as [Hr' ->].
    rewrite insert_app_l in Hrun by lia.
    apply IH in Hrun; [|rewrite length_insert; lia].
    by rewrite length_insert in Hrun.
  - apply store_None in Hst; [|lia].
    apply all_match_lengths_from_count in Hrun.
    rewrite decide_False; [done | lia].
Qed.


(** Two increasing lists with the same members are the same list. *)
Lemma increasing_unique (l1 : list Z) : ∀ l2,
  StronglySorted Z.lt l1 → StronglySorted Z.lt l2 →
  (∀ x, x ∈ l1 ↔ x ∈ l2) → l1 = l2.
Proof.
  induction l1 as [|x1 l1 IH]; intros [|x2 l2] H1 H2 Hm.
  - done.
  - exfalso. eapply not_elem_of_nil. apply Hm. by left.
  - exfalso. eapply not_elem_of_nil. apply Hm. by left.
  - apply StronglySorted_cons in H1. destruct H1 as [Hx1 H1].
    apply StronglySorted_cons in H2. destruct H2 as [Hx2 H2].
    rewrite Forall_forall in Hx1, Hx2.
    assert (x1 = x2) as <-.
    { pose proof (proj1 (Hm x1) ltac:(by left)) as Ha.
      pose proof (proj2 (Hm x2) ltac:(by left)) as Hb.
      apply elem_of_cons in Ha. apply elem_of_cons in Hb.
      destruct Ha as [? | Ha]; [done|]. destruct Hb as [? | Hb]; [done|].
      apply Hx2 in Ha. apply Hx1 in Hb. lia. }
    f_equal. apply IH; [done | done |]. intros x. split.
    + intros Hx. pose proof (proj1 (Hm x) ltac:(by right)) as Ha.
      apply elem_of_cons in Ha. destruct Ha as [-> | ?]; [|done].
      apply Hx1 in Hx. lia.
    + intros Hx. pose proof (proj2 (Hm x) ltac:(by right)) as Ha.
      apply elem_of_cons in Ha. destruct Ha as [-> | ?]; [|done].
      apply Hx2 in Hx. lia.
Qed.

(** The lengths the enumeration writes when it has room for one length
    for every character of the input: they do not depend on what the buffer
    held. *)
Lemma all_match_lengths_lens w dd input :
  table_in_memory w dd →
  ∃ lens : list Z,
    (length lens ≤ length input)%nat
    ∧ StronglySorted Z.lt lens
    ∧ (∀ L, L ∈ lens ↔
            ∃ q : nat, L = Z.of_nat q ∧ (0 < q ≤ length input)%nat
                       ∧ ∃ off, entry w dd (take q input) off)
    ∧ ∀ buf : list Z, (length input ≤ length buf)%nat →
        dict_datrie_get_all_match_lengths w dd input buf
        = Ret (Z.of_nat (length lens), lens ++ drop (length lens) buf).
Proof.
  intros (d & Hdict & Hroot & Hsize & Hread).
  assert (Hwalk : ∀ buf : list Z, (length input ≤ length buf)%nat →
    ∃ lens : list Z,
      dict_datrie_get_all_match_lengths w dd input buf
      = Ret (Z.of_nat (length lens), lens ++ drop (length lens) buf)
      ∧ (length lens ≤ length input)%nat
      ∧ StronglySorted Z.lt lens
      ∧ ∀ L, L ∈ lens ↔
             ∃ q : nat, L = Z.of_nat q ∧ (0 < q ≤ length input)%nat
                        ∧ ∃ off, entry w dd (take q input) off).
  { intros buf Hcap.
    destruct (all_match_lengths_from_walk DATRIE_UNUSED w dd d Hdict Hsize Hread
                input 0 0 buf 0 (root_in_table d Hroot) ltac:(simpl; lia))
      as (lens & Hrun & Hlen & Hsorted & Hmem).
    exists lens. split; [exact Hrun|]. split; [done|]. split; [done|].
    intros L. rewrite Hmem. split.
    - intros (m & -> & Hm & i' & it & Hn & Hit & Ht).
      exists m. repeat split; [lia.. |]. exists (word it), i', it. by repeat split.
    - intros (q & -> & Hq & off & i' & it & Hn & Hit & Ht & _).
      exists q. repeat split; [lia.. |]. by exists i', it. }
  destruct (Hwalk (replicate (length input) 0) ltac:(by rewrite length_replicate))
    as (lens & _ & Hlen & Hsorted & Hmem).
  exists lens. split; [done|]. split; [done|]. split; [done|].
  intros buf Hcap. destruct (Hwalk buf Hcap) as (lens' & Hrun & _ & Hsorted' & Hmem').
  assert (lens' = lens) as ->; [|done].
  apply increasing_unique; [done..|]. intros x. by rewrite Hmem, Hmem'.
Qed.

(** X6. [dict_datrie_get_all_match_lengths] is given no bound for the
    buffer it writes. The lengths it has to write are those of the
    prefixes that are entries, in increasing order. With a buffer that has
    a slot for each of them the call returns their number and leaves them
    at the start of the buffer, the rest untouched; with a shorter buffer
    it writes past the end, which is undefined. *)
Theorem all_match_lengths_room w dd input :
  table_in_memory w dd →
  ∃ lens : list Z,
    StronglySorted Z.lt lens
    ∧ (∀ L, L ∈ lens ↔
            ∃ q : nat, L = Z.of_nat q ∧ (0 < q ≤ length input)%nat
                       ∧ ∃ off, entry w dd (take q input) off)
    ∧ ∀ buf : list Z,
        dict_datrie_get_all_match_lengths w dd input buf
        = if decide (length lens ≤ length buf)%nat
          then Ret (Z.of_nat (length lens), lens ++ drop (length lens) buf)
          else Undefined.
Proof.
  intros Htable.
  destruct (all_match_lengths_lens w dd input Htable)
    as (lens & Hlen & Hsorted & Hmem & Hrun).
  exists lens. split; [done|]. split; [done|]. intros buf.
  pose proof (Hrun (buf ++ replicate (length input) 0)
                ltac:(rewrite length_app, length_replicate; lia)) as Hbig.
  unfold dict_datrie_get_all_match_lengths in *.
  rewrite (all_match_lengths_from_cut w dd input 0 0 buf _ 0 _ _ ltac:(lia) Hbig).
  destruct (decide (length lens ≤ length buf)%nat) as [Hfit | Hfit].
  - rewrite decide_True by lia. do 2 f_equal.
    rewrite drop_app_le by done.
    rewrite app_assoc, take_app_length'; [done|].
    rewrite length_app, length_drop. lia.
  - rewrite decide_False; [done | lia].
Qed.

(** X7. The two queries agree. Longest match with the limit [limit]
    returns the entry of the largest length that the enumeration writes
    and that is within the limit, and [NULL] when there is no such length.
    Without a limit this is the last length written. *)
Theorem longest_match_is_last_length w dd d input limit (buf : list Z) :
  table_in_memory w dd → dict_at w dd = Some d →
  (length input ≤ length buf)%nat →
  ∃ lens : list Z,
    dict_datrie_get_all_match_lengths w dd input buf
    = Ret (Z.of_nat (length lens), lens ++ drop (length lens) buf)
    ∧ (∀ L, L ∈ lens → limit = 0 ∨ L ≤ limit →
         (∀ L', L' ∈ lens → limit = 0 ∨ L' ≤ limit → L' ≤ L) →
         ∃ off, entry w dd (take (Z.to_nat L) input) off
                ∧ dict_datrie_match_longest w dd input limit
                  = Ret (ptr_add (lexicon d) (sizeof_wchar_t * off)))
    ∧ ((∀ L, L ∈ lens → ¬ (limit = 0 ∨ L ≤ limit)) →
       dict_datrie_match_longest w dd input limit = Ret NULL)
    ∧ (limit = 0 → last lens = None →
       dict_datrie_match_longest w dd input limit = Ret NULL)
    ∧ (∀ L, limit = 0 → last lens = Some L →
         ∃ off, entry w dd (take (Z.to_nat L) input) off
                ∧ dict_datrie_match_longest w dd input limit
                  = Ret (ptr_add (lexicon d) (sizeof_wchar_t * off))).
Proof.
  intros Htable Hd Hcap.
  destruct (all_match_lengths_lens w dd input Htable)
    as (lens & Hlen & Hsorted & Hmem & Hrun).
  exists lens. split; [by apply Hrun|].
  destruct (match_longest_finds DATRIE_UNUSED w dd d input limit Htable Hd)
    as (n & i0 & _ & Hn & Hlim & Hmax & _ & Hres).
  assert (Hin : ∀ q off, (0 < q ≤ n)%nat → entry w dd (take q input) off →
                Z.of_nat q ∈ lens ∧ (limit = 0 ∨ Z.of_nat q ≤ limit)).
  { intros q off Hq He. split.
    - apply Hmem. exists q. split; [done|]. split; [lia|]. by exists off.
    - destruct Hlim as [-> | [? | ?]]; [lia | by left | right; lia]. }
  assert (Hle : ∀ L, L ∈ lens → limit = 0 ∨ L ≤ limit →
                ∃ q off, L = Z.of_nat q ∧ (0 < q ≤ n)%nat
                         ∧ entry w dd (take q input) off).
  { intros L HL Hl. apply Hmem in HL. destruct HL as (q & -> & Hq & off & He).
    exists q, off. split; [done|]. split; [|done]. split; [lia|].
    destruct He as (i & it & Hnode & _).
    apply (Hmax q i); [lia | done | done]. }
  assert (Hbest : ∀ L, L ∈ lens → limit = 0 ∨ L ≤ limit →
            (∀ L', L' ∈ lens → limit = 0 ∨ L' ≤ limit → L' ≤ L) →
            ∃ off, entry w dd (take (Z.to_nat L) input) off
                   ∧ dict_datrie_match_longest w dd input limit
                     = Ret (ptr_add (lexicon d) (sizeof_wchar_t * off))).
  { intros L HL Hl Hbest.
    destruct (Hle L HL Hl) as (qL & offL & -> & HqL & HeL).
    destruct Hres as [(q & off & Hq & He & Hno & Hret) | [Hno _]].
    - destruct (Hin q off Hq He) as [Hq1 Hq2].
      pose proof (Hbest _ Hq1 Hq2) as Hqle.
      destruct (decide (q = qL)) as [-> | Hne].
      + exists off. by rewrite Nat2Z.id.
      + exfalso. apply (Hno qL offL); [lia | done].
    - exfalso. by apply (Hno qL offL). }
  assert (Hnone : (∀ L, L ∈ lens → ¬ (limit = 0 ∨ L ≤ limit)) →
                  dict_datrie_match_longest w dd input limit = Ret NULL).
  { intros Hnone.
    destruct Hres as [(q & off & Hq & He & _ & _) | [_ Hret]]; [|done].
    exfalso. destruct (Hin q off Hq He) as [Hq1 Hq2]. by apply (Hnone _ Hq1). }
  split; [exact Hbest|]. split; [exact Hnone|]. split.
  - intros -> Hlast. apply Hnone. apply last_None in Hlast. subst lens.
    by intros L ?%elem_of_nil.
  - intros L -> Hlast. apply last_Some in Hlast. destruct Hlast as [l' ->].
    apply Hbest; [apply elem_of_app; right; by left | by left |].
    intros L' HL' _. apply elem_of_app in HL'. destruct HL' as [HL' | HL'].
    + apply StronglySorted_app in Hsorted. destruct Hsorted as [Hlt _].
      specialize (Hlt L' L HL' ltac:(by left)). lia.
    + apply list_elem_of_singleton in HL'. lia.
Qed.

End Room.

(** ** Closing a handle of known shape *)

Section Closing.

Variables (h : list (option (origin * cell))) (b : nat).
Hypothesis Hb : (b < length h)%nat.

(** Closing a handle whose region is the block handed out after it. *)
Lemma close_loaded_run o d r content s :
  dic_memory d = Pblk (length h) 0 → dic_memory_type d = memory_type_of r →
  dict_datrie_close o (Pblk b 0)
    (shape h b (Some (ByMalloc, Dict d)) [Some (r, Bytes content)] s)
  = match r with
    | ByMmap =>
      if munmap_ok o then Ret (0, shape h b None [None] s)
      else Ret (-1, shape h b None [Some (ByMmap, Bytes content)] s)
    | ByMalloc => Ret (0, shape h b None [None] s)
    end.
Proof.
  intros Hmem Hty. unfold dict_datrie_close, unload_dict.
  unfold bind at 1. unfold bind at 1. rewrite shape_get_dict by done.
  rewrite Hmem, Hty. simpl ptr_eqb. cbn [negb].
  destruct r; simpl.
  - unfold bind at 1. rewrite shape_free_first by done.
    unfold ret at 1. simpl. by run_step.
  - rewrite shape_munmap_first by done.
    destruct (munmap_ok o); simpl; by run_step.
Qed.

(** Closing a handle that has no region. *)
Lemma close_unloaded_run o d s :
  dic_memory d = NULL →
  dict_datrie_close o (Pblk b 0) (shape h b (Some (ByMalloc, Dict d)) [] s)
  = Ret (0, shape h b None [] s).
Proof.
  intros Hmem. unfold dict_datrie_close, unload_dict.
  unfold bind at 1. unfold bind at 1. rewrite shape_get_dict by done.
  rewrite Hmem. simpl. unfold ret at 1. simpl. by run_step.
Qed.

End Closing.

(** Blocks that are dead are as good as blocks never handed out. *)
Lemma live_dead_tail w (n : nat) s b' :
  live {| heap := heap w ++ replicate n None; streams := s |} b' = live w b'.
Proof.
  unfold live. simpl.
  destruct (decide (b' < length (heap w))%nat) as [Hlt | Hge].
  - by rewrite lookup_app_l by done.
  - rewrite lookup_app_r by lia.
    rewrite (lookup_ge_None_2 (heap w)) by lia.
    destruct (replicate n None !! _) as [x|] eqn:Hx; [|done].
    by apply lookup_replicate in Hx as [-> _].
Qed.

Lemma live_older w extra s (b' : nat) :
  (b' < length (heap w))%nat →
  live {| heap := heap w ++ extra; streams := s |} b' = live w b'.
Proof. intros Hlt. unfold live. simpl. by rewrite lookup_app_l. Qed.

(** ** Opening, then closing *)

Section LifeCycle.

Variable OPENCC_DICHEADER : list byte.
Variable DATRIE_UNUSED : Z.

Local Abbreviation dict_datrie_open := (dict_datrie_open OPENCC_DICHEADER).
Local Abbreviation load_dict := (load_dict OPENCC_DICHEADER).
Local Abbreviation header_matches := (header_matches OPENCC_DICHEADER).
Local Abbreviation dict_datrie_match_longest := (dict_datrie_match_longest DATRIE_UNUSED).
Local Abbreviation dict_datrie_get_all_match_lengths :=
  (dict_datrie_get_all_match_lengths DATRIE_UNUSED).

(** X8. [dict_datrie_open] tests neither the result of [malloc] nor that
    of [fopen]. For files that hold the header and the two counts, the
    call is undefined exactly when [malloc] returns [NULL] for the
    structure (the next statement writes [dd->dat]) or the file cannot be
    opened ([load_dict] hands [NULL] to [fileno]). *)
Theorem open_undefined_exactly o filename w :
  (∀ bs, files o filename = Some bs →
         strlen OPENCC_DICHEADER + 16 ≤ Z.of_nat (length bs) ≤ PTRDIFF_MAX) →
  dict_datrie_open o filename w = Undefined
  ↔ malloc_dict o = None ∨ files o filename = None.
Proof.
  intros Hsize. split; [|apply open_undefined].
  destruct (malloc_dict o) as [junk|] eqn:Hjunk; [|by left].
  destruct (files o filename) as [bs|] eqn:Hfile; [|by right].
  destruct (Hsize bs eq_refl) as [Hlen Hmax].
  pose proof (open_fails OPENCC_DICHEADER o filename w junk bs Hjunk Hfile Hmax Hlen)
    as Hfails.
  pose proof (open_succeeds OPENCC_DICHEADER o filename w junk bs Hjunk Hfile Hmax Hlen)
    as Hok.
  destruct (acquire o bs) as [[r content]|].
  - destruct (decide (header_matches content)) as [Hm | Hm].
    + by rewrite (Hok r content eq_refl Hm).
    + destruct (Hfails Hm) as (w_fail & w' & _ & Hrun & _). by rewrite Hrun.
  - destruct (Hfails I) as (w_fail & w' & _ & Hrun & _). by rewrite Hrun.
Qed.

(** X9. A successful [dict_datrie_open] followed by [dict_datrie_close]:
    the streams are as before, the handle leads nowhere, and the blocks
    that were there are untouched. The close returns -1 exactly when the
    region was mapped and [munmap] fails, and the mapping then stays;
    otherwise it returns 0 and every block is as before the open: nothing
    is leaked. *)
Theorem open_then_close_restores o o' filename w junk bs r content :
  malloc_dict o = Some junk → files o filename = Some bs →
  Z.of_nat (length bs) ≤ PTRDIFF_MAX →
  strlen OPENCC_DICHEADER + 16 ≤ Z.of_nat (length bs) →
  acquire o bs = Some (r, content) → header_matches content →
  ∃ dp w1 res w2,
    dict_datrie_open o filename w = Ret (dp, w1)
    ∧ dict_datrie_close o' dp w1 = Ret (res, w2)
    ∧ streams w2 = streams w
    ∧ dict_at w2 dp = None
    ∧ (∀ b' : nat, (b' < length (heap w))%nat → live w2 b' = live w b')
    ∧ (res = -1 ↔ r = ByMmap ∧ munmap_ok o' = false)
    ∧ (res = -1 → live w2 (S (length (heap w))) = Some (ByMmap, Bytes content))
    ∧ (res ≠ -1 → res = 0 ∧ ∀ b' : nat, live w2 b' = live w b').
Proof.
  intros Hjunk Hfile Hmax Hlen Hacq Hm.
  set (b := length (heap w)).
  set (h := heap w ++ [Some (ByMalloc, Dict junk)]).
  assert (Hb : (b < length h)%nat) by (unfold h, b; rewrite length_app; simpl; lia).
  assert (Hh : length h = S b) by (unfold h, b; rewrite length_app; simpl; lia).
  exists (Pblk b 0), (opened_world OPENCC_DICHEADER w r content (Z.of_nat (length bs))).
  assert (Hclose :
    dict_datrie_close o' (Pblk b 0)
      (opened_world OPENCC_DICHEADER w r content (Z.of_nat (length bs)))
    = match r with
      | ByMmap =>
        if munmap_ok o'
        then Ret (0, {| heap := heap w ++ [None; None]; streams := streams w |})
        else Ret (-1, {| heap := heap w ++ [None; Some (ByMmap, Bytes content)];
                         streams := streams w |})
      | ByMalloc => Ret (0, {| heap := heap w ++ [None; None]; streams := streams w |})
      end).
  { unfold opened_world.
    rewrite <- (shape_fresh (heap w) (Some (ByMalloc, Dict junk))).
    rewrite (close_loaded_run h b Hb o' _ r content);
      [| by (simpl; rewrite Hh) | done].
    unfold h, b. destruct r; [|destruct (munmap_ok o')]; by rewrite shape_fresh. }
  assert (Hdead : ∀ x s,
    dict_at {| heap := heap w ++ [None; x]; streams := s |} (Pblk b 0) = None).
  { intros x s. unfold dict_at, live. simpl.
    by rewrite (list_lookup_middle (heap w) [x] None). }
  destruct r; [|destruct (munmap_ok o') eqn:Hmun].
  - eexists 0, _. split; [by eapply open_succeeds|]. split; [exact Hclose|].
    split; [done|]. split; [apply Hdead|].
    split; [intros b' Hb'; by apply live_older|].
    split; [split; [done | by intros [? _]]|]. split; [done|].
    intros _. split; [done|]. intros b'. apply (live_dead_tail w 2).
  - eexists 0, _. split; [by eapply open_succeeds|]. split; [exact Hclose|].
    split; [done|]. split; [apply Hdead|].
    split; [intros b' Hb'; by apply live_older|].
    split; [split; [done | by intros [_ ?]]|]. split; [done|].
    intros _. split; [done|]. intros b'. apply (live_dead_tail w 2).
  - eexists (-1), _. split; [by eapply open_succeeds|]. split; [exact Hclose|].
    split; [done|]. split; [apply Hdead|].
    split; [intros b' Hb'; by apply live_older|].
    split; [done|]. split; [|done].
    intros _. unfold live. simpl.
    rewrite (lookup_app_r (heap w)) by lia.
    by replace (S b - length (heap w))%nat with 1%nat by (unfold b; lia).
Qed.

End LifeCycle.

(** ** Handles that lead nowhere *)

Section DeadHandle.

Variable DATRIE_UNUSED : Z.
Local Abbreviation datrie_match_from := (datrie_match_from DATRIE_UNUSED).
Local Abbreviation datrie_match := (datrie_match DATRIE_UNUSED).
Local Abbreviation match_longest_loop := (match_longest_loop DATRIE_UNUSED).
Local Abbreviation match_longest_with := (match_longest_with DATRIE_UNUSED).
Local Abbreviation dict_datrie_match_longest := (dict_datrie_match_longest DATRIE_UNUSED).
Local Abbreviation all_match_lengths_from := (all_match_lengths_from DATRIE_UNUSED).
Local Abbreviation dict_datrie_get_all_match_lengths :=
  (dict_datrie_get_all_match_lengths DATRIE_UNUSED).

(** Both queries read the root of the table: longest match for every
    input, the enumeration as soon as the input has a character. *)
Lemma unreadable_root_undefined w dp :
  item_at w dp 0 = None →
  (∀ input limit, dict_datrie_match_longest w dp input limit = Undefined)
  ∧ (∀ c rest buf, c ≠ 0 →
       dict_datrie_get_all_match_lengths w dp (c :: rest) buf = Undefined).
Proof.
  intros Hroot. split.
  - intros input limit.
    assert (Hfirst : datrie_match w dp input limit = Ret (0, 0)
                     ∨ datrie_match w dp input limit = Undefined).
    { unfold datrie_match. destruct input as [|c rest]; simpl; [by left|].
      destruct (c =? 0); [by left|]. destruct (negb _); [by left|].
      rewrite Hroot. by right. }
    unfold dict_datrie_match_longest, match_longest_with.
    destruct Hfirst as [-> | ->]; [|done]. simpl.
    destruct (length input); simpl; by rewrite Hroot.
  - intros c rest buf Hc. unfold dict_datrie_get_all_match_lengths. simpl.
    destruct (Z.eqb_spec c 0); [done|]. by rewrite Hroot.
Qed.

Lemma no_structure_undefined w dp :
  dict_at w dp = None →
  (∀ o, dict_datrie_close o dp w = Undefined)
  ∧ (∀ input limit, dict_datrie_match_longest w dp input limit = Undefined)
  ∧ (∀ c rest buf, c ≠ 0 →
       dict_datrie_get_all_match_lengths w dp (c :: rest) buf = Undefined).
Proof.
  intros Hnone. split.
  - intros o. unfold dict_datrie_close, unload_dict, bind, get_dict.
    by rewrite Hnone.
  - apply unreadable_root_undefined. unfold item_at. by rewrite Hnone.
Qed.

(** X10. After [dict_datrie_close] the handle is dangling: closing it
    again, a longest match, and an enumeration on a word that has a
    character are all undefined. *)
Theorem closed_handle_is_dead o w dp d :
  closable w dp d →
  ∃ res w',
    dict_datrie_close o dp w = Ret (res, w')
    ∧ (∀ o', dict_datrie_close o' dp w' = Undefined)
    ∧ (∀ input limit, dict_datrie_match_longest w' dp input limit = Undefined)
    ∧ (∀ c rest buf, c ≠ 0 →
         dict_datrie_get_all_match_lengths w' dp (c :: rest) buf = Undefined).
Proof.
  intros Hc. pose proof Hc as (hb & -> & _).
  destruct (dict_datrie_close_run o w hb d Hc) as (w' & Hrun & Hdead & _).
  eexists _, w'. split; [exact Hrun|].
  apply no_structure_undefined. unfold dict_at. by rewrite Hdead.
Qed.

(** X11. No entry point tests its handle. On [NULL], on [(dict_ptr) -1]
    (the value a failed [dict_datrie_open] returns) and on any other
    integer, [dict_datrie_close], [dict_datrie_match_longest] and, for a
    word that has a character, [dict_datrie_get_all_match_lengths] are
    undefined. *)
Theorem integer_is_no_handle o w n input limit c rest buf :
  c ≠ 0 →
  dict_datrie_close o (Pint n) w = Undefined
  ∧ dict_datrie_match_longest w (Pint n) input limit = Undefined
  ∧ dict_datrie_get_all_match_lengths w (Pint n) (c :: rest) buf = Undefined.
Proof.
  intros Hc.
  destruct (no_structure_undefined w (Pint n) eq_refl) as (H1 & H2 & H3).
  split; [apply H1|]. split; [apply H2 | by apply H3].
Qed.

End DeadHandle.

(** ** What a failed open leaves *)

Section FailedOpen.

Variable OPENCC_DICHEADER : list byte.

Local Abbreviation dict_datrie_open := (dict_datrie_open OPENCC_DICHEADER).
Local Abbreviation load_dict := (load_dict OPENCC_DICHEADER).
Local Abbreviation header_matches := (header_matches OPENCC_DICHEADER).

(** The world a failed [dict_datrie_open] leaves. *)
Lemma open_fails_world o filename w junk bs :
  malloc_dict o = Some junk → files o filename = Some bs →
  Z.of_nat (length bs) ≤ PTRDIFF_MAX →
  strlen OPENCC_DICHEADER + 16 ≤ Z.of_nat (length bs) →
  match acquire o bs with
  | Some (r, content) => ¬ header_matches content
  | None => True
  end →
  dict_datrie_open o filename w
  = Ret (Pint (to_size_t (-1)),
         {| heap := heap w
                    ++ None :: match acquire o bs with
                               | Some (ByMalloc, _) => [None]
                               | Some (ByMmap, content) =>
                                 if munmap_ok o then [None]
                                 else [Some (ByMmap, Bytes content)]
                               | None => []
                               end;
            streams := S (streams w) |}).
Proof.
  intros Hjunk Hfile Hmax Hlen Hwhy.
  rewrite (dict_datrie_open_split _ o filename w junk (Some bs) Hjunk Hfile).
  unfold bind at 1.
  rewrite (load_dict_at_open OPENCC_DICHEADER o w junk bs Hmax Hlen).
  destruct (world_at_load_shape w junk) as (_ & Hb & Hh).
  destruct (acquire o bs) as [[r content]|]; simpl.
  - rewrite decide_False by done. simpl. unfold bind at 1.
    rewrite (close_loaded_run _ _ Hb o _ r content);
      [| by (simpl; rewrite Hh) | done].
    destruct r; [|destruct (munmap_ok o)]; unfold ret; by rewrite shape_fresh.
  - unfold bind at 1. rewrite close_unloaded_run by done.
    unfold ret. by rewrite shape_fresh.
Qed.

(** X12. A failed [dict_datrie_open] leaves the blocks that were there
    untouched and releases what it obtained, the structure and the region:
    every block is as before the call, unless the region was mapped and
    [munmap] fails, in which case the mapping stays. *)
Theorem failed_open_releases_memory o filename w junk bs :
  malloc_dict o = Some junk → files o filename = Some bs →
  Z.of_nat (length bs) ≤ PTRDIFF_MAX →
  strlen OPENCC_DICHEADER + 16 ≤ Z.of_nat (length bs) →
  match acquire o bs with
  | Some (r, content) => ¬ header_matches content
  | None => True
  end →
  ∃ w',
    dict_datrie_open o filename w = Ret (Pint (to_size_t (-1)), w')
    ∧ (∀ b' : nat, (b' < length (heap w))%nat → live w' b' = live w b')
    ∧ (mmap_ok o = true → munmap_ok o = false →
       live w' (S (length (heap w))) = Some (ByMmap, Bytes bs))
    ∧ (mmap_ok o = false ∨ munmap_ok o = true → ∀ b' : nat, live w' b' = live w b').
Proof.
  intros Hjunk Hfile Hmax Hlen Hwhy.
  eexists. split; [by apply (open_fails_world o filename w junk bs)|].
  split; [intros b' Hb'; by apply live_older|].
  unfold acquire. split.
  - intros -> ->. unfold live. simpl.
    rewrite (lookup_app_r (heap w)) by lia.
    by replace (S (length (heap w)) - length (heap w))%nat with 1%nat by lia.
  - intros Hrel b'.
    destruct (mmap_ok o).
    + destruct Hrel as [? | ->]; [done|]. apply (live_dead_tail w 2).
    + destruct (malloc_ok o).
      * apply (live_dead_tail w 2).
      * apply (live_dead_tail w 1).
Qed.

End FailedOpen.

(** ** Regions that end too early *)

(** [strncmp] over [n] characters when the block ends before them: the
    call runs off the block unless the two strings differ before that. *)
Lemma strncmp_short w blk og bs (n : nat) : ∀ (s2 : list byte) (ofs : nat),
  live w blk = Some (og, Bytes bs) →
  (ofs ≤ length bs)%nat → (length bs - ofs < n)%nat →
  (n ≤ length s2)%nat → Forall (λ c, byte_val c ≠ 0) (take n s2) →
  if decide (drop ofs bs = take (length bs - ofs) s2)
  then strncmp w (Pblk blk (Z.of_nat ofs)) s2 n = Undefined
  else ∃ z, strncmp w (Pblk blk (Z.of_nat ofs)) s2 n = Ret z ∧ z ≠ 0.
Proof.
  induction n as [|n IH]; intros s2 ofs Hlive Hofs Hn Hs2 Hnz; [lia|].
  destruct s2 as [|c2 s2]; [simpl in Hs2; lia|].
  destruct (decide (ofs = length bs)) as [-> | Hne].
  { rewrite drop_all, Nat.sub_diag, decide_True by done.
    simpl. unfold load_byte, load_bytes. rewrite Hlive.
    destruct (Z.leb_spec 0 (Z.of_nat (length bs))); [|lia].
    destruct (Z.leb_spec (Z.of_nat (length bs) + Z.of_nat 1) (Z.of_nat (length bs)));
      [lia | done]. }
  destruct (lookup_lt_is_Some_2 bs ofs ltac:(lia)) as [c1 Hc1].
  assert (Hload : load_byte w (Pblk blk (Z.of_nat ofs)) = Some c1).
  { unfold load_byte, load_bytes. rewrite Hlive.
    destruct (Z.leb_spec 0 (Z.of_nat ofs)); [|lia].
    destruct (Z.leb_spec (Z.of_nat ofs + Z.of_nat 1) (Z.of_nat (length bs))); [|lia].
    simpl. by rewrite Nat2Z.id, (drop_S _ _ _ Hc1). }
  simpl strncmp. rewrite Hload. simpl.
  rewrite (drop_S _ _ _ Hc1).
  replace (length bs - ofs)%nat with (S (length bs - S ofs)) by lia.
  simpl take.
  change (take (S n) (c2 :: s2)) with (c2 :: take n s2) in Hnz.
  inversion Hnz as [|? ? Hc2 Hnz']; subst. clear Hnz. rename Hnz' into Hnz.
  destruct (Z.eqb_spec (byte_val c1) (byte_val c2)) as [He | Hne']; simpl.
  - apply byte_val_inj in He. subst c2.
    destruct (Z.eqb_spec (byte_val c1) 0) as [|_]; [done|].
    specialize (IH s2 (S ofs) Hlive ltac:(lia) ltac:(lia)
                  ltac:(simpl in Hs2; lia) Hnz).
    replace (Z.of_nat ofs + 1) with (Z.of_nat (S ofs)) by lia.
    destruct (decide (drop (S ofs) bs = take (length bs - S ofs) s2)) as [Hd | Hd].
    + rewrite decide_True; [done | by rewrite Hd].
    + rewrite decide_False; [done | by intros [= ?]].
  - rewrite decide_False by (intros [= ->]; done).
    exists (byte_val c1 - byte_val c2). split; [done | lia].
Qed.

Section ShortRegion.

Variables (h : list (option (origin * cell))) (b : nat).
Hypothesis Hb : (b < length h)%nat.
Variable OPENCC_DICHEADER : list byte.

(** The parser on a region that cannot hold the header and the two
    counts. *)
Lemma load_dict_parse_short og d r bs s :
  dic_memory d = Pblk (length h) 0 →
  Z.of_nat (length bs) ≤ PTRDIFF_MAX →
  Z.of_nat (length bs) < strlen OPENCC_DICHEADER + 16 →
  let m := Nat.min (Z.to_nat (strlen OPENCC_DICHEADER)) (length bs) in
  load_dict_parse OPENCC_DICHEADER (Pblk b 0)
    (shape h b (Some (og, Dict d)) [Some (r, Bytes bs)] s)
  = if decide (take m bs = take m OPENCC_DICHEADER) then Undefined
    else Ret (-1, shape h b (Some (og, Dict d)) [Some (r, Bytes bs)] s).
Proof.
  intros Hmem Hmax Hlen m. pose proof (strlen_bounds OPENCC_DICHEADER) as Hhl.
  set (W := shape h b (Some (og, Dict d)) [Some (r, Bytes bs)] s).
  assert (Hlive : live W (length h) = Some (r, Bytes bs))
    by (by apply shape_live_first).
  unfold load_dict_parse. unfold bind at 1. unfold W at 1.
  rewrite shape_get_dict by done. fold W. rewrite Hmem.
  unfold bind at 1, reading.
  destruct (decide (length bs < Z.to_nat (strlen OPENCC_DICHEADER))%nat)
    as [Hshort | Hlong].
  - pose proof (strncmp_short W (length h) r bs
                  (Z.to_nat (strlen OPENCC_DICHEADER)) OPENCC_DICHEADER 0 Hlive
                  ltac:(lia) ltac:(lia) ltac:(lia) (strlen_nonzero _)) as Hcmp.
    rewrite Nat.sub_0_r in Hcmp. simpl drop in Hcmp. change (Z.of_nat 0) with 0 in Hcmp.
    assert (Em : m = length bs) by (unfold m; lia).
    rewrite Em, firstn_all.
    destruct (decide (bs = take (length bs) OPENCC_DICHEADER)) as [He | He].
    + rewrite decide_True in Hcmp by done. by rewrite Hcmp.
    + rewrite decide_False in Hcmp by done. destruct Hcmp as (z & -> & Hz).
      by destruct (Z.eqb_spec z 0).
  - assert (Em : m = Z.to_nat (strlen OPENCC_DICHEADER)) by (unfold m; lia).
    rewrite Em.
    destruct (strncmp_block W (length h) r bs (Z.to_nat (strlen OPENCC_DICHEADER))
                OPENCC_DICHEADER 0 Hlive
                ltac:(lia) ltac:(lia) ltac:(lia) (strlen_nonzero _))
      as (z & Hrun & Hz).
    rewrite Hrun. simpl drop in Hz.
    destruct (Z.eqb_spec z 0) as [Hz0 | Hz0]; simpl.
    2:{ rewrite decide_False; [done|]. by rewrite <- Hz. }
    rewrite decide_True by (by rewrite <- Hz).
    assert (Eoff : size_add 0 (size_mul (strlen OPENCC_DICHEADER) sizeof_char)
                   = strlen OPENCC_DICHEADER).
    { unfold size_add, size_mul, sizeof_char, PTRDIFF_MAX in *.
      rewrite Z.mul_1_r, Z.add_0_l, !to_size_t_id; [done | lia |].
      rewrite to_size_t_id; lia. }
    rewrite Eoff.
    assert (Eoff8 : size_add (strlen OPENCC_DICHEADER) sizeof_size_t
                    = strlen OPENCC_DICHEADER + 8).
    { unfold size_add, sizeof_size_t, PTRDIFF_MAX in *. apply to_size_t_id. lia. }
    rewrite Eoff8.
    assert (Hout : ∀ W' ofs, live W' (length h) = Some (r, Bytes bs) →
              Z.of_nat (length bs) < ofs + 8 →
              load_size_t W' (Pblk (length h) ofs) = None).
    { intros W' ofs HW' Hofs. unfold load_size_t, load_bytes. rewrite HW'.
      destruct (Z.leb_spec 0 ofs); simpl; [|done].
      by destruct (Z.leb_spec (ofs + Z.of_nat 8) (Z.of_nat (length bs))); [lia|]. }
    unfold bind at 1, reading. simpl ptr_add.
    destruct (decide (strlen OPENCC_DICHEADER + 8 ≤ Z.of_nat (length bs)))
      as [Hfirst | Hfirst].
    + unfold load_size_t at 1. unfold W at 1.
      rewrite shape_load_bytes_first by (done || lia). simpl.
      unfold W. run_step.
      unfold bind at 1, reading.
      rewrite Hout; [done | by apply shape_live_first | lia].
    + rewrite Hout; [done | done | lia].
Qed.

End ShortRegion.

(** ** What an open dictionary holds *)

Lemma opened_world_dict header w r content size :
  dict_at (opened_world header w r content size) (Pblk (length (heap w)) 0)
  = Some (opened_dict header (S (length (heap w))) r content size).
Proof.
  unfold dict_at, live, opened_world. simpl.
  by rewrite list_lookup_middle.
Qed.

Lemma opened_world_region header w r content size :
  live (opened_world header w r content size) (S (length (heap w)))
  = Some (r, Bytes content).
Proof.
  unfold live, opened_world. simpl.
  rewrite lookup_app_r by lia.
  by replace (S (length (heap w)) - length (heap w))%nat with 1%nat by lia.
Qed.

Lemma le_unsigned_nonneg bs : 0 ≤ le_unsigned bs.
Proof.
  induction bs as [|c bs IH]; simpl; [lia|].
  unfold byte_val. lia.
Qed.

Section Opened.

Variable OPENCC_DICHEADER : list byte.
Variable DATRIE_UNUSED : Z.

Local Abbreviation dict_datrie_open := (dict_datrie_open OPENCC_DICHEADER).
Local Abbreviation load_dict := (load_dict OPENCC_DICHEADER).
Local Abbreviation header_matches := (header_matches OPENCC_DICHEADER).
Local Abbreviation dict_datrie_match_longest := (dict_datrie_match_longest DATRIE_UNUSED).
Local Abbreviation dict_datrie_get_all_match_lengths :=
  (dict_datrie_get_all_match_lengths DATRIE_UNUSED).

(** [load_dict], as [dict_datrie_open] calls it, on a file that cannot
    hold the header and the two counts. *)
Lemma load_dict_short o w junk bs r content :
  Z.of_nat (length bs) ≤ PTRDIFF_MAX →
  Z.of_nat (length bs) < strlen OPENCC_DICHEADER + 16 →
  acquire o bs = Some (r, content) →
  let b := length (heap w) in
  let h := heap w ++ [Some (ByMalloc, Dict junk)] in
  let d1 := acquired_dict (Pblk (S b) 0) (memory_type_of r) (Z.of_nat (length bs))
              (set_lexicon NULL (set_dat NULL junk)) in
  let m := Nat.min (Z.to_nat (strlen OPENCC_DICHEADER)) (length content) in
  load_dict o (Pblk b 0) (Some bs) (world_at_load w junk)
  = if decide (take m content = take m OPENCC_DICHEADER) then Undefined
    else Ret (-1, shape h b (Some (ByMalloc, Dict d1)) [Some (r, Bytes content)]
                    (S (streams w))).
Proof.
  intros Hmax Hlen Hacq b h d1 m.
  destruct (world_at_load_shape w junk) as (-> & Hb & Hh).
  pose proof (acquire_length _ _ _ _ Hacq) as Hcl.
  rewrite load_dict_split. unfold bind at 1.
  rewrite load_dict_acquire_run by done. rewrite Hacq. simpl.
  rewrite load_dict_parse_short; [| done | done | lia | lia].
  rewrite Hh. done.
Qed.

(** X13. A file too short for the header and the two counts, copied into
    a buffer from [malloc]: [load_dict] does not look at the size. The
    open fails with [(dict_ptr) -1] when the buffer differs from the
    header within the bytes that both have. When it does not, [strncmp] or
    the reads of the two counts run past the end of the buffer, and the
    call is undefined. *)
Theorem short_file_copied o filename w junk bs content :
  malloc_dict o = Some junk → files o filename = Some bs →
  Z.of_nat (length bs) ≤ PTRDIFF_MAX →
  Z.of_nat (length bs) < strlen OPENCC_DICHEADER + 16 →
  acquire o bs = Some (ByMalloc, content) →
  let m := Nat.min (Z.to_nat (strlen OPENCC_DICHEADER)) (length content) in
  (take m content = take m OPENCC_DICHEADER →
   dict_datrie_open o filename w = Undefined)
  ∧ (take m content ≠ take m OPENCC_DICHEADER →
     ∃ w', dict_datrie_open o filename w = Ret (Pint (to_size_t (-1)), w')).
Proof.
  intros Hjunk Hfile Hmax Hlen Hacq m.
  pose proof (load_dict_short o w junk bs ByMalloc content Hmax Hlen Hacq) as Hload.
  cbv zeta in Hload. fold m in Hload.
  destruct (world_at_load_shape w junk) as (_ & Hb & Hh).
  pose proof (dict_datrie_open_split OPENCC_DICHEADER o filename w junk (Some bs)
                Hjunk Hfile) as Hopen.
  unfold bind at 1 in Hopen. rewrite Hload in Hopen.
  destruct (decide (take m content = take m OPENCC_DICHEADER)) as [He | He].
  { split; [done | by intros ?]. }
  split; [by intros ?|]. intros _.
  simpl in Hopen. unfold bind at 1 in Hopen.
  rewrite (close_loaded_run _ _ Hb o _ ByMalloc content) in Hopen;
    [| by (simpl; rewrite Hh) | done].
  by eexists.
Qed.

(** X14. The counts of a file are not checked against its size. When the
    file was copied into a buffer from [malloc], [dict_datrie_open]
    succeeds wherever the table that the counts declare starts. Every
    longest match is then undefined when the 12 bytes of the root do not
    all lie inside the buffer: the [word] of the node the walk ends at is
    read outside. Every enumeration on a word that has a character is
    undefined when the 4 bytes of the [base] of the root do not lie inside
    the buffer. *)
Theorem truncated_table_queries_undefined o filename w junk bs content :
  malloc_dict o = Some junk → files o filename = Some bs →
  Z.of_nat (length bs) ≤ PTRDIFF_MAX →
  strlen OPENCC_DICHEADER + 16 ≤ Z.of_nat (length bs) →
  acquire o bs = Some (ByMalloc, content) → header_matches content →
  let hl := strlen OPENCC_DICHEADER in
  let n := decode_size_t (take 8 (drop (Z.to_nat hl) content)) in
  let table := size_add (hl + 16) (size_mul n sizeof_wchar_t) in
  ∃ dp w1,
    dict_datrie_open o filename w = Ret (dp, w1)
    ∧ is_Some (dict_at w1 dp)
    ∧ (Z.of_nat (length content) < table + sizeof_item →
       ∀ input limit, dict_datrie_match_longest w1 dp input limit = Undefined)
    ∧ (Z.of_nat (length content) < table + sizeof_int →
       ∀ c rest buf, c ≠ 0 →
         dict_datrie_get_all_match_lengths w1 dp (c :: rest) buf = Undefined).
Proof.
  intros Hjunk Hfile Hmax Hlen Hacq Hm hl n table.
  eexists _, _. split; [by eapply open_succeeds|].
  split; [by rewrite opened_world_dict|].
  assert (Hroot : Z.of_nat (length content) < table + sizeof_item →
    item_at (opened_world OPENCC_DICHEADER w ByMalloc content (Z.of_nat (length bs)))
      (Pblk (length (heap w)) 0) 0 = None).
  { intros Hcut. unfold item_at. rewrite opened_world_dict. simpl.
    unfold load_bytes. rewrite opened_world_region.
    fold hl n. fold table. unfold sizeof_item, sizeof_int in *.
    destruct (Z.leb_spec 0 (0 + table + 3 * 4 * 0)); simpl; [|done].
    by destruct (Z.leb_spec (0 + table + 3 * 4 * 0 + Z.of_nat 12)
                   (Z.of_nat (length content))); [lia|]. }
  split.
  - intros Hcut. by apply unreadable_root_undefined, Hroot.
  - intros Hcut. apply unreadable_root_undefined, Hroot.
    unfold sizeof_item, sizeof_int in *. lia.
Qed.

(** X15. When the lexicon and the table that the counts declare do fit in
    the region, an open dictionary has its table in memory, which is what
    the theorems about the queries assume. Item [j] is the 12 bytes at
    offset [header + 16 + 4 * lexicon_length + 12 * j] of the region, and
    character [k] of the lexicon the 4 bytes at offset
    [header + 16 + 4 * k]. *)
Theorem declared_table_in_memory o filename w junk bs r content :
  malloc_dict o = Some junk → files o filename = Some bs →
  Z.of_nat (length bs) ≤ PTRDIFF_MAX →
  strlen OPENCC_DICHEADER + 16 ≤ Z.of_nat (length bs) →
  acquire o bs = Some (r, content) → header_matches content →
  let hl := strlen OPENCC_DICHEADER in
  let n := decode_size_t (take 8 (drop (Z.to_nat hl) content)) in
  let c := decode_size_t (take 8 (drop (Z.to_nat (hl + 8)) content)) in
  0 < c →
  hl + 16 + sizeof_wchar_t * n + sizeof_item * c ≤ Z.of_nat (length content) →
  ∃ dp w1 d,
    dict_datrie_open o filename w = Ret (dp, w1)
    ∧ dict_at w1 dp = Some d
    ∧ lexicon_length d = n ∧ dat_item_count d = c
    ∧ table_in_memory w1 dp
    ∧ (∀ j, 0 ≤ j < c →
         item_at w1 dp j
         = Some (decode_item
                   (take 12 (drop (Z.to_nat (hl + 16 + sizeof_wchar_t * n
                                             + sizeof_item * j)) content))))
    ∧ (∀ k, 0 ≤ k < n →
         load_bytes w1 (ptr_add (lexicon d) (sizeof_wchar_t * k)) 4
         = Some (take 4 (drop (Z.to_nat (hl + 16 + sizeof_wchar_t * k)) content))).
Proof.
  intros Hjunk Hfile Hmax Hlen Hacq Hm hl n c Hc Hfit.
  pose proof (acquire_length _ _ _ _ Hacq) as Hcl.
  pose proof (strlen_bounds OPENCC_DICHEADER) as Hhl. fold hl in Hhl.
  assert (Hn : 0 ≤ n) by apply le_unsigned_nonneg.
  unfold sizeof_wchar_t, sizeof_item, sizeof_int in *.
  assert (Eoff : size_add (hl + 16) (size_mul n 4) = hl + 16 + 4 * n).
  { unfold size_add, size_mul, PTRDIFF_MAX in *.
    rewrite (to_size_t_id (n * 4)) by lia.
    rewrite to_size_t_id; lia. }
  set (w1 := opened_world OPENCC_DICHEADER w r content (Z.of_nat (length bs))).
  assert (Hitem : ∀ j, 0 ≤ j < c →
    item_at w1 (Pblk (length (heap w)) 0) j
    = Some (decode_item (take 12 (drop (Z.to_nat (hl + 16 + 4 * n + 3 * 4 * j)) content)))).
  { intros j Hj. unfold item_at, w1. rewrite opened_world_dict. simpl.
    unfold load_bytes. rewrite opened_world_region.
    fold hl n. unfold sizeof_item, sizeof_int, sizeof_wchar_t. rewrite Eoff.
    destruct (Z.leb_spec 0 (0 + (hl + 16 + 4 * n) + 3 * 4 * j)); [|lia].
    destruct (Z.leb_spec (0 + (hl + 16 + 4 * n) + 3 * 4 * j + Z.of_nat 12)
                (Z.of_nat (length content))); [|lia].
    simpl. do 4 f_equal; lia. }
  eexists (Pblk (length (heap w)) 0), w1, _.
  split; [by eapply open_succeeds|].
  split; [apply opened_world_dict|].
  split; [done|]. split; [done|]. split; [|split].
  - eexists. split; [apply opened_world_dict|]. simpl. fold hl c.
    split; [done|]. split; [unfold sizeof_item, sizeof_int, PTRDIFF_MAX in *; lia|].
    intros j Hj. rewrite Hitem by done. by eexists.
  - exact Hitem.
  - intros k Hk. simpl. unfold load_bytes, w1. rewrite opened_world_region.
    fold hl. unfold sizeof_wchar_t.
    destruct (Z.leb_spec 0 (0 + (hl + 16) + 4 * k)); [|lia].
    destruct (Z.leb_spec (0 + (hl + 16) + 4 * k + Z.of_nat 4)
                (Z.of_nat (length content))); [|lia].
    simpl. do 3 f_equal; lia.
Qed.

End Opened.

(** ** Handles do not interfere *)

Section Agree.

Variable DATRIE_UNUSED : Z.
Variables (w1 w2 : world) (dd : ptr).
Hypothesis Hitem : ∀ i, item_at w1 dd i = item_at w2 dd i.
Hypothesis Hcount : count_at w1 dd = count_at w2 dd.
Hypothesis Hlex : lexicon_at w1 dd = lexicon_at w2 dd.

Lemma datrie_match_from_agree limit rest : ∀ i p,
  datrie_match_from DATRIE_UNUSED w1 dd limit rest i p
  = datrie_match_from DATRIE_UNUSED w2 dd limit rest i p.
Proof.
  induction rest as [|c rest IH]; intros i p; simpl; [done|].
  rewrite Hcount. rewrite !Hitem.
  destruct (c =? 0); [done|].
  destruct (negb _); [done|].
  destruct (item_at w2 dd i) as [it|]; simpl; [|done].
  destruct (base it =? DATRIE_UNUSED); [done|].
  destruct (_ <? 0); [done|].
  destruct (count_at w2 dd) as [n|]; simpl; [|done].
  destruct (_ >=? n); [done|].
  rewrite Hitem.
  destruct (item_at w2 dd _) as [itj|]; simpl; [|done].
  destruct (negb _); [done|]. apply IH.
Qed.

Lemma match_longest_loop_agree input : ∀ (fuel : nat) pos item,
  match_longest_loop DATRIE_UNUSED fuel w1 dd input pos item
  = match_longest_loop DATRIE_UNUSED fuel w2 dd input pos item.
Proof.
  induction fuel as [|fuel IH]; intros pos item; simpl;
    rewrite Hitem; [done|].
  destruct (item_at w2 dd item) as [it|]; simpl; [|done].
  destruct (_ && _); [|done].
  unfold datrie_match. rewrite datrie_match_from_agree.
  destruct (datrie_match_from DATRIE_UNUSED w2 dd (pos - 1) input 0 0) as [r| |];
    simpl; done.
Qed.

Lemma dict_datrie_match_longest_agree input limit :
  dict_datrie_match_longest DATRIE_UNUSED w1 dd input limit
  = dict_datrie_match_longest DATRIE_UNUSED w2 dd input limit.
Proof.
  unfold dict_datrie_match_longest, match_longest_with, datrie_match.
  rewrite datrie_match_from_agree.
  destruct (datrie_match_from DATRIE_UNUSED w2 dd limit input 0 0) as [r| |];
    simpl; try done.
  rewrite match_longest_loop_agree.
  destruct (match_longest_loop DATRIE_UNUSED _ w2 dd input r.1 r.2) as [r'| |];
    simpl; try done.
  destruct (r'.1 =? 0); [done|]. rewrite Hitem.
  destruct (item_at w2 dd r'.2) as [it|]; simpl; [|done].
  destruct (word it =? -1); [done|]. by rewrite Hlex.
Qed.

Lemma all_match_lengths_from_agree rest : ∀ i p buf rscnt,
  all_match_lengths_from DATRIE_UNUSED w1 dd rest i p buf rscnt
  = all_match_lengths_from DATRIE_UNUSED w2 dd rest i p buf rscnt.
Proof.
  induction rest as [|c rest IH]; intros i p buf rscnt; simpl; [done|].
  rewrite Hcount. rewrite !Hitem.
  destruct (c =? 0); [done|].
  destruct (item_at w2 dd i) as [it|]; simpl; [|done].
  destruct (base it =? DATRIE_UNUSED); [done|].
  destruct (_ <? 0); [done|].
  destruct (count_at w2 dd) as [n|]; simpl; [|done].
  destruct (_ >=? n); [done|].
  rewrite !Hitem.
  destruct (item_at w2 dd (int_add _ _)) as [itj|]; simpl; [|done].
  destruct (negb (to_size_t _ =? i)); [done|].
  destruct (item_at w2 dd (to_size_t _)) as [iti|]; simpl; [|done].
  destruct (negb _); [|apply IH].
  destruct (store buf rscnt (p + 1)); simpl; [apply IH | done].
Qed.

End Agree.

(** A handle whose table is in memory answers the same in every world
    that keeps its structure and the block of its table. *)
Lemma kept_blocks_keep_answers unused w w' dp d :
  dict_at w dp = Some d →
  (∀ hb : nat, dp = Pblk hb 0 → live w' hb = live w hb) →
  (∀ (rb : nat) ofs, dat d = Pblk rb ofs → live w' rb = live w rb) →
  table_in_memory w dp →
  table_in_memory w' dp
  ∧ (∀ input limit,
       dict_datrie_match_longest unused w' dp input limit
       = dict_datrie_match_longest unused w dp input limit)
  ∧ (∀ input buf,
       dict_datrie_get_all_match_lengths unused w' dp input buf
       = dict_datrie_get_all_match_lengths unused w dp input buf).
Proof.
  intros Hdict Hhandle Hregion (d' & Hdict' & Hroot & Hsize & Hread).
  rewrite Hdict in Hdict'. injection Hdict' as <-.
  assert (Hdict' : dict_at w' dp = Some d).
  { unfold dict_at in *. destruct dp as [n | hb ofs]; [done|].
    destruct ofs; try done. by rewrite Hhandle. }
  assert (Hitem : ∀ i, item_at w' dp i = item_at w dp i).
  { intros i. unfold item_at. rewrite Hdict, Hdict'. simpl.
    unfold load_bytes.
    destruct (dat d) as [n | rb ofs] eqn:Hdat; simpl; [done|].
    by rewrite (Hregion rb ofs). }
  assert (Hcount : count_at w' dp = count_at w dp)
    by (unfold count_at; by rewrite Hdict, Hdict').
  assert (Hlex : lexicon_at w' dp = lexicon_at w dp)
    by (unfold lexicon_at; by rewrite Hdict, Hdict').
  split; [|split].
  - exists d. split; [done|]. split; [done|]. split; [done|].
    intros j Hj. rewrite Hitem. by apply Hread.
  - intros input limit. by apply dict_datrie_match_longest_agree.
  - intros input buf. by apply all_match_lengths_from_agree.
Qed.

(** What [unload_dict] leaves alone. *)
Lemma unload_dict_frame o w hb d :
  closable w (Pblk hb 0) d →
  ∃ w', unload_dict o (Pblk hb 0) w = Ret (unload_result o d, w')
        ∧ live w' hb = Some (ByMalloc, Dict d)
        ∧ (∀ b' : nat, dic_memory d ≠ Pblk b' 0 → live w' b' = live w b').
Proof.
  intros (hb' & [= <-] & Hlive & Hregion).
  unfold unload_dict, bind, get_dict, dict_at. rewrite Hlive.
  unfold unload_result.
  destruct (ptr_eqb (dic_memory d) NULL) eqn:Hnull; cbn [negb].
  { exists w. repeat split; done. }
  assert (Hnn : dic_memory d ≠ NULL).
  { intros E. apply ptr_eqb_NULL in E. congruence. }
  destruct (Z.eqb_spec MEMORY_TYPE_MMAP (dic_memory_type d)) as [Ht | Ht].
  { unfold munmap.
    destruct (munmap_ok o); [|by (exists w; repeat split)].
    destruct (dic_memory d) as [n | rb ofs]; [by (exists w; repeat split)|].
    destruct ofs; try (by (exists w; repeat split)).
    destruct (live w rb) as [[[] c]|] eqn:Hrb; try (by (exists w; repeat split)).
    eexists. split; [done|]. split.
    - rewrite live_release, decide_False; [done|]. intros ->. congruence.
    - intros b' Hb'. rewrite live_release, decide_False; [done|].
      intros ->. done. }
  destruct (Z.eqb_spec MEMORY_TYPE_ALLOCATE (dic_memory_type d)) as [Ha | Ha].
  { destruct (Hregion Hnn ltac:(done)) as (rb & bs & Hmem & Hrb).
    rewrite Hmem. rewrite (free_live _ _ _ Hrb). unfold ret.
    eexists. split; [done|]. split.
    - rewrite live_release, decide_False; [done|]. intros ->. congruence.
    - intros b' Hb'. rewrite live_release, decide_False; [done|].
      by intros ->. }
  by exists w.
Qed.

Lemma dict_datrie_close_frame o w hb d :
  closable w (Pblk hb 0) d →
  ∃ res w', dict_datrie_close o (Pblk hb 0) w = Ret (res, w')
        ∧ (∀ b' : nat, b' ≠ hb → dic_memory d ≠ Pblk b' 0 →
             live w' b' = live w b').
Proof.
  intros Hc. destruct (unload_dict_frame o w hb d Hc) as (w1 & Hrun & Hlive & Hframe).
  unfold dict_datrie_close, bind. rewrite Hrun.
  destruct (unload_result o d =? -1);
    rewrite (free_live _ _ _ Hlive); unfold ret;
    (eexists _, _; split; [done|]);
    intros b' Hb' Hmem; rewrite live_release, decide_False by done;
    by apply Hframe.
Qed.

Section Interference.

Variable OPENCC_DICHEADER : list byte.
Variable DATRIE_UNUSED : Z.

Local Abbreviation dict_datrie_open := (dict_datrie_open OPENCC_DICHEADER).
Local Abbreviation header_matches := (header_matches OPENCC_DICHEADER).
Local Abbreviation dict_datrie_match_longest := (dict_datrie_match_longest DATRIE_UNUSED).
Local Abbreviation dict_datrie_get_all_match_lengths :=
  (dict_datrie_get_all_match_lengths DATRIE_UNUSED).



(** X17. Closing a handle changes nothing for another handle that
    shares neither the structure nor the region with it: its table is
    still in memory and the two queries return on it what they returned
    before. *)
Theorem close_leaves_other_handles_alone o w dp1 d1 dp d :
  closable w dp1 d1 →
  table_in_memory w dp → dict_at w dp = Some d →
  dp ≠ dp1 → dic_memory d1 ≠ dp →
  (∀ rb ofs, dat d = Pblk rb ofs → dic_memory d1 ≠ Pblk rb 0) →
  ∃ res w',
    dict_datrie_close o dp1 w = Ret (res, w')
    ∧ table_in_memory w' dp
    ∧ (∀ input limit,
         dict_datrie_match_longest w' dp input limit
         = dict_datrie_match_longest w dp input limit)
    ∧ (∀ input buf,
         dict_datrie_get_all_match_lengths w' dp input buf
         = dict_datrie_get_all_match_lengths w dp input buf).
Proof.
  intros Hc Htable Hdict Hne Hmem Hregion. pose proof Hc as (hb & -> & Hlive1 & _).
  destruct (dict_datrie_close_frame o w hb d1 Hc) as (res & w' & Hrun & Hframe).
  exists res, w'. split; [exact Hrun|].
  apply (kept_blocks_keep_answers _ w w' dp d Hdict); [| |done].
  - intros hb' ->. apply Hframe; [congruence | done].
  - intros rb ofs Hdat. apply Hframe; [|by eapply Hregion].
    intros ->. destruct Htable as (d' & Hdict' & Hroot & _ & Hread).
    rewrite Hdict in Hdict'. injection Hdict' as <-.
    destruct (Hread 0 ltac:(lia)) as [it0 Hit0].
    unfold item_at in Hit0. rewrite Hdict in Hit0. simpl in Hit0.
    rewrite Hdat in Hit0. unfold load_bytes in Hit0. simpl in Hit0.
    by rewrite Hlive1 in Hit0.
Qed.

End Interference.

(** ** What [malloc] left in the blocks *)

(** A file that is mapped, or read in full, is the region. *)
Lemma acquire_whole_file o bs :
  (length bs ≤ read_limit o)%nat →
  acquire o bs
  = if mmap_ok o then Some (ByMmap, bs)
    else if malloc_ok o then Some (ByMalloc, bs) else None.
Proof.
  intros Hread. unfold acquire.
  destruct (mmap_ok o); [done|]. destruct (malloc_ok o); [|done].
  rewrite Nat.min_l by done.
  rewrite firstn_all, drop_ge by (rewrite length_map, length_seq; lia).
  by rewrite app_nil_r.
Qed.

Section Initialised.

Variable OPENCC_DICHEADER : list byte.

Local Abbreviation dict_datrie_open := (dict_datrie_open OPENCC_DICHEADER).
Local Abbreviation load_dict := (load_dict OPENCC_DICHEADER).
Local Abbreviation header_matches := (header_matches OPENCC_DICHEADER).

(** [dict_datrie_open], for a file that holds the header and the two
    counts, in terms of what the memory provider obtains. *)
Lemma open_run o filename w junk bs :
  malloc_dict o = Some junk → files o filename = Some bs →
  Z.of_nat (length bs) ≤ PTRDIFF_MAX →
  strlen OPENCC_DICHEADER + 16 ≤ Z.of_nat (length bs) →
  dict_datrie_open o filename w
  = match acquire o bs with
    | Some (r, content) =>
      if decide (header_matches content) then
        Ret (Pblk (length (heap w)) 0,
             opened_world OPENCC_DICHEADER w r content (Z.of_nat (length bs)))
      else
        Ret (Pint (to_size_t (-1)),
             {| heap := heap w
                        ++ [None; match r with
                                  | ByMalloc => None
                                  | ByMmap => if munmap_ok o then None
                                              else Some (ByMmap, Bytes content)
                                  end];
                streams := S (streams w) |})
    | None =>
      Ret (Pint (to_size_t (-1)),
           {| heap := heap w ++ [None]; streams := S (streams w) |})
    end.
Proof.
  intros Hjunk Hfile Hmax Hlen.
  pose proof (open_fails_world OPENCC_DICHEADER o filename w junk bs
                Hjunk Hfile Hmax Hlen) as Hfails.
  pose proof (open_succeeds OPENCC_DICHEADER o filename w junk bs Hjunk Hfile Hmax Hlen)
    as Hok.
  destruct (acquire o bs) as [[r content]|].
  - destruct (decide (header_matches content)) as [Hm | Hm].
    + exact (Hok r content eq_refl Hm).
    + rewrite (Hfails Hm). destruct r; [done|]. by destruct (munmap_ok o).
  - exact (Hfails I).
Qed.

(** X18. The result of [dict_datrie_open], the handle and the world,
    does not depend on what the storage from [malloc] held: every field of
    the structure is assigned before it is read, and so is every byte of
    the buffer when [read] transfers the whole file. *)
Theorem open_ignores_what_malloc_left o o' filename w junk junk' bs :
  malloc_dict o = Some junk → malloc_dict o' = Some junk' →
  files o filename = Some bs → files o' filename = Some bs →
  mmap_ok o' = mmap_ok o → malloc_ok o' = malloc_ok o →
  munmap_ok o' = munmap_ok o →
  (length bs ≤ read_limit o)%nat → (length bs ≤ read_limit o')%nat →
  Z.of_nat (length bs) ≤ PTRDIFF_MAX →
  strlen OPENCC_DICHEADER + 16 ≤ Z.of_nat (length bs) →
  dict_datrie_open o' filename w = dict_datrie_open o filename w.
Proof.
  intros Hjunk Hjunk' Hfile Hfile' Hmmap Hmalloc Hmunmap Hread Hread' Hmax Hlen.
  rewrite (open_run o filename w junk bs), (open_run o' filename w junk' bs) by done.
  rewrite !acquire_whole_file by done.
  by rewrite Hmmap, Hmalloc, Hmunmap.
Qed.

(** X19. When neither [mmap] nor [malloc] delivers, [load_dict] returns
    -1 with [dic_memory] set to [NULL] ([load_mmap] overwrites the
    [MAP_FAILED] it stored), the strategy [MEMORY_TYPE_ALLOCATE] and
    [dic_size] the size of the file. No block is added, and none but the
    structure is changed; [unload_dict] then releases nothing and returns
    0. *)
Theorem load_without_memory o w dd d bs :
  dict_at w dd = Some d →
  mmap_ok o = false → malloc_ok o = false →
  ∃ w',
    load_dict o dd (Some bs) w = Ret (-1, w')
    ∧ dict_at w' dd
      = Some (acquired_dict NULL MEMORY_TYPE_ALLOCATE (Z.of_nat (length bs)) d)
    ∧ length (heap w') = length (heap w)
    ∧ (∀ b' : nat, Pblk b' 0 ≠ dd → live w' b' = live w b')
    ∧ unload_dict o dd w' = Ret (0, w').
Proof.
  intros Hdict Hmmap Hmalloc.
  destruct dd as [n | b ofs]; [done|]. unfold dict_at in Hdict.
  destruct ofs; try done.
  destruct (live w b) as [[og [bs0 | d0]]|] eqn:Hlive; try done.
  injection Hdict as ->.
  destruct (shape_of_world w b og d Hlive) as [Hw Hb].
  assert (Hrun : load_dict o (Pblk b 0) (Some bs) w
                 = Ret (-1, shape (heap w) b
                              (Some (og, Dict (acquired_dict NULL MEMORY_TYPE_ALLOCATE
                                                 (Z.of_nat (length bs)) d)))
                              [] (streams w))).
  { replace (load_dict o (Pblk b 0) (Some bs) w)
      with (load_dict o (Pblk b 0) (Some bs)
              (shape (heap w) b (Some (og, Dict d)) [] (streams w)))
      by (by rewrite <- Hw).
    rewrite load_dict_split. unfold bind at 1.
    rewrite load_dict_acquire_run by done.
    unfold acquire. by rewrite Hmmap, Hmalloc. }
  eexists. split; [exact Hrun|]. split; [by apply shape_dict_at|].
  split; [|split].
  - unfold shape. simpl. by rewrite app_nil_r, length_insert.
  - intros b' Hne. unfold live, shape. simpl. rewrite app_nil_r.
    rewrite list_lookup_insert_ne; [done|]. by intros ->.
  - unfold unload_dict, bind. by rewrite shape_get_dict.
Qed.

End Initialised.

(** ** Keys and nodes *)

Lemma item_at_base_range w dd i it :
  item_at w dd i = Some it → INT_MIN ≤ base it ≤ INT_MAX.
Proof.
  unfold item_at. destruct (dict_at w dd) as [d|]; simpl; [|done].
  destruct (load_bytes _ _ _); simpl; [|done].
  intros [= <-]. apply decode_int_range.
Qed.

(** Two [int] sums with the same first summand that wrap to the same
    [int] have the same second summand. *)
Lemma int_add_cancel b c1 c2 :
  INT_MIN ≤ c1 ≤ INT_MAX → INT_MIN ≤ c2 ≤ INT_MAX →
  int_add b c1 = int_add b c2 → c1 = c2.
Proof.
  unfold int_add, to_int, INT_MIN, INT_MAX. intros H1 H2 E.
  assert (E' : (b + c1 + 2 ^ 31) mod 2 ^ 32 = (b + c2 + 2 ^ 31) mod 2 ^ 32) by lia.
  pose proof (Z.div_mod (b + c1 + 2 ^ 31) (2 ^ 32) ltac:(lia)) as D1.
  pose proof (Z.div_mod (b + c2 + 2 ^ 31) (2 ^ 32) ltac:(lia)) as D2.
  rewrite E' in D1. lia.
Qed.

Section Paths.

Variable DATRIE_UNUSED : Z.
Local Abbreviation node_of := (node_of DATRIE_UNUSED).
Local Abbreviation entry := (entry DATRIE_UNUSED).

(** A transition leads to a node of the table whose parent is the node it
    starts from. *)
Lemma transition_Some w dd i c j :
  transition w dd i c = Some j →
  ∃ it itj, item_at w dd i = Some it ∧ item_at w dd j = Some itj
            ∧ parent itj = i ∧ j = int_add (base it) (encode_char c) ∧ 0 ≤ j.
Proof.
  unfold transition.
  destruct (item_at w dd i) as [it|]; simpl; [|done].
  destruct (count_at w dd) as [n|]; simpl; [|done].
  case_decide as Hj; [|done].
  destruct (item_at w dd _) as [itj|] eqn:Hitj; simpl; [|done].
  case_decide; [|done]. intros [= <-].
  exists it, itj. repeat split; [done.. | lia].
Qed.

(** The last step of a key that leads somewhere. *)
Lemma node_of_snoc w dd key c j :
  node_of w dd (key ++ [c]) 0 = Some j →
  ∃ i, node_of w dd key 0 = Some i ∧ transition w dd i c = Some j.
Proof.
  rewrite node_of_app.
  destruct (node_of w dd key 0) as [i|]; simpl; [|done].
  case_decide; [done|].
  destruct (item_at w dd i) as [it|]; simpl; [|done].
  case_decide; [done|].
  destruct (transition w dd i c) as [j'|] eqn:Hj; simpl; [|done].
  intros [= <-]. by exists i.
Qed.

Lemma node_of_nonneg w dd key : ∀ j,
  node_of w dd key 0 = Some j → 0 ≤ j.
Proof.
  induction key as [|c key IH] using rev_ind; intros j.
  - by intros [= <-].
  - intros Hj. apply node_of_snoc in Hj. destruct Hj as (i & _ & Ht).
    apply transition_Some in Ht. by destruct Ht as (_ & _ & _ & _ & _ & _ & ?).
Qed.

(** Two keys that lead to the same node are the same key, when no
    transition leads to the root. *)
Lemma node_of_inj w dd it0 key1 key2 j :
  item_at w dd 0 = Some it0 → parent it0 < 0 →
  Forall (λ c, INT_MIN ≤ c ≤ INT_MAX) key1 →
  Forall (λ c, INT_MIN ≤ c ≤ INT_MAX) key2 →
  node_of w dd key1 0 = Some j → node_of w dd key2 0 = Some j →
  key1 = key2.
Proof.
  intros Hroot Hparent. revert key2 j.
  assert (Hno : ∀ key c, node_of w dd (key ++ [c]) 0 ≠ Some 0).
  { intros key c Hj. apply node_of_snoc in Hj. destruct Hj as (i & Hi & Ht).
    apply node_of_nonneg in Hi. apply transition_Some in Ht.
    destruct Ht as (_ & itj & _ & Hitj & Hp & _). rewrite Hroot in Hitj.
    injection Hitj as <-. lia. }
  induction key1 as [|c1 key1 IH] using rev_ind; intros key2 j Hr1 Hr2 H1 H2.
  - injection H1 as <-.
    destruct key2 as [|c2 key2 _] using rev_ind; [done|].
    by apply Hno in H2.
  - destruct key2 as [|c2 key2 _] using rev_ind.
    { injection H2 as <-. by apply Hno in H1. }
    apply Forall_app in Hr1. destruct Hr1 as [Hr1 Hc1].
    apply Forall_app in Hr2. destruct Hr2 as [Hr2 Hc2].
    rewrite Forall_singleton in Hc1. rewrite Forall_singleton in Hc2.
    apply node_of_snoc in H1. destruct H1 as (i1 & Hi1 & Ht1).
    apply node_of_snoc in H2. destruct H2 as (i2 & Hi2 & Ht2).
    apply transition_Some in Ht1.
    destruct Ht1 as (it1 & itj1 & Hit1 & Hitj1 & Hp1 & Hj1 & _).
    apply transition_Some in Ht2.
    destruct Ht2 as (it2 & itj2 & Hit2 & Hitj2 & Hp2 & Hj2 & _).
    rewrite Hitj1 in Hitj2. injection Hitj2 as <-.
    assert (i1 = i2) as <- by congruence.
    rewrite Hit1 in Hit2. injection Hit2 as <-.
    assert (c1 = c2) as <-.
    { unfold encode_char in Hj1, Hj2.
      rewrite (to_int_id c1) in Hj1 by done. rewrite (to_int_id c2) in Hj2 by done.
      apply (int_add_cancel (base it1)); [done | done | congruence]. }
    f_equal. by apply (IH key2 i1).
Qed.

Local Abbreviation datrie_match := (datrie_match DATRIE_UNUSED).
Local Abbreviation dict_datrie_get_all_match_lengths :=
  (dict_datrie_get_all_match_lengths DATRIE_UNUSED).

(** X20. The walk tells words apart. When no transition leads to the
    root (its [parent] is negative), two words of [wchar_t] characters
    that [datrie_match] follows to their ends, and that end at the same
    node, are the same word: an index of the table stands for one key. *)
Theorem same_node_same_word w dd it0 key1 key2 j :
  table_in_memory w dd →
  item_at w dd 0 = Some it0 → parent it0 < 0 →
  Forall (λ c, INT_MIN ≤ c ≤ INT_MAX) key1 →
  Forall (λ c, INT_MIN ≤ c ≤ INT_MAX) key2 →
  datrie_match w dd key1 0 = Ret (Z.of_nat (length key1), j) →
  datrie_match w dd key2 0 = Ret (Z.of_nat (length key2), j) →
  key1 = key2.
Proof.
  intros (d & Hdict & Hroot & Hsize & Hread) Hit0 Hparent Hr1 Hr2 H1 H2.
  assert (Hnode : ∀ key, datrie_match w dd key 0 = Ret (Z.of_nat (length key), j) →
                  node_of w dd key 0 = Some j).
  { intros key Hrun.
    destruct (datrie_match_from_walk DATRIE_UNUSED w dd d Hdict Hsize Hread 0 key 0 0
                (root_in_table d Hroot))
      as (n & i' & Hwalk & _ & Hn & _).
    unfold datrie_match in Hrun. rewrite Hwalk in Hrun.
    injection Hrun as Hlen ->. assert (n = length key) as -> by lia.
    by rewrite firstn_all in Hn. }
  by apply (node_of_inj w dd it0 key1 key2 j); auto.
Qed.

(** An increasing list stays increasing when members are left out. *)
Lemma increasing_filter (P : Z → Prop) `{!∀ x, Decision (P x)} (l : list Z) :
  StronglySorted Z.lt l → StronglySorted Z.lt (filter P l).
Proof.
  induction 1 as [|x l Hl IH Hx]; [constructor|].
  rewrite filter_cons. case_decide; [|done].
  constructor; [done|].
  rewrite Forall_forall in *. intros y Hy.
  apply list_elem_of_filter in Hy. apply Hx. by destruct Hy.
Qed.

(** X21. The enumeration on a prefix of a word writes a prefix of what it
    writes on the word: the lengths for [pre] are those for [pre ++ post]
    that do not exceed the length of [pre]. *)
Theorem enumeration_of_a_prefix w dd pre post :
  table_in_memory w dd →
  ∃ lens : list Z,
    (∀ buf : list Z, (length (pre ++ post) ≤ length buf)%nat →
       dict_datrie_get_all_match_lengths w dd (pre ++ post) buf
       = Ret (Z.of_nat (length lens), lens ++ drop (length lens) buf))
    ∧ let lens' := filter (λ L, L ≤ Z.of_nat (length pre)) lens in
      ∀ buf : list Z, (length pre ≤ length buf)%nat →
        dict_datrie_get_all_match_lengths w dd pre buf
        = Ret (Z.of_nat (length lens'), lens' ++ drop (length lens') buf).
Proof.
  intros Htable.
  destruct (all_match_lengths_lens DATRIE_UNUSED w dd (pre ++ post) Htable)
    as (lens & _ & Hsorted & Hmem & Hrun).
  destruct (all_match_lengths_lens DATRIE_UNUSED w dd pre Htable)
    as (lens' & _ & Hsorted' & Hmem' & Hrun').
  exists lens. split; [exact Hrun|]. intros lens0.
  assert (lens' = lens0) as <-; [|exact Hrun'].
  apply increasing_unique; [done | by apply increasing_filter |].
  intros L. unfold lens0. rewrite list_elem_of_filter, Hmem, Hmem'. split.
  - intros (q & -> & Hq & off & He). split; [lia|].
    exists q. split; [done|]. split; [rewrite length_app; lia|].
    exists off. by rewrite take_app_le by lia.
  - intros (HL & q & -> & Hq & off & He).
    exists q. split; [done|]. split; [lia|].
    exists off. by rewrite take_app_le in He by lia.
Qed.

End Paths.

(** ** The two strategies *)

(** The table of an open dictionary whose declared lexicon and table lie
    inside the region. *)
Lemma opened_world_table header w r content size :
  let hl := strlen header in
  let n := decode_size_t (take 8 (drop (Z.to_nat hl) content)) in
  let c := decode_size_t (take 8 (drop (Z.to_nat (hl + 8)) content)) in
  Z.of_nat (length content) ≤ PTRDIFF_MAX →
  0 < c →
  hl + 16 + sizeof_wchar_t * n + sizeof_item * c ≤ Z.of_nat (length content) →
  table_in_memory (opened_world header w r content size) (Pblk (length (heap w)) 0)
  ∧ ∀ j, 0 ≤ j < c →
      item_at (opened_world header w r content size) (Pblk (length (heap w)) 0) j
      = Some (decode_item
                (take 12 (drop (Z.to_nat (hl + 16 + sizeof_wchar_t * n
                                          + sizeof_item * j)) content))).
Proof.
  intros hl n c Hmax Hc Hfit.
  pose proof (strlen_bounds header) as Hhl. fold hl in Hhl.
  assert (Hn : 0 ≤ n) by apply le_unsigned_nonneg.
  unfold sizeof_wchar_t, sizeof_item, sizeof_int in *.
  assert (Eoff : size_add (hl + 16) (size_mul n 4) = hl + 16 + 4 * n).
  { unfold size_add, size_mul, PTRDIFF_MAX in *.
    rewrite (to_size_t_id (n * 4)) by lia.
    rewrite to_size_t_id; lia. }
  assert (Hitem : ∀ j, 0 ≤ j < c →
    item_at (opened_world header w r content size) (Pblk (length (heap w)) 0) j
    = Some (decode_item (take 12 (drop (Z.to_nat (hl + 16 + 4 * n + 3 * 4 * j)) content)))).
  { intros j Hj. unfold item_at. rewrite opened_world_dict. simpl.
    unfold load_bytes. rewrite opened_world_region.
    fold hl n. unfold sizeof_item, sizeof_int, sizeof_wchar_t. rewrite Eoff.
    destruct (Z.leb_spec 0 (0 + (hl + 16 + 4 * n) + 3 * 4 * j)); [|lia].
    destruct (Z.leb_spec (0 + (hl + 16 + 4 * n) + 3 * 4 * j + Z.of_nat 12)
                (Z.of_nat (length content))); [|lia].
    simpl. do 4 f_equal; lia. }
  split; [|exact Hitem].
  eexists. split; [apply opened_world_dict|]. simpl. fold hl c.
  split; [done|]. split; [unfold sizeof_item, sizeof_int, PTRDIFF_MAX in *; lia|].
  intros j Hj. rewrite Hitem by done. by eexists.
Qed.

Section TwoStrategies.

Variable OPENCC_DICHEADER : list byte.
Variable DATRIE_UNUSED : Z.

Local Abbreviation dict_datrie_open := (dict_datrie_open OPENCC_DICHEADER).
Local Abbreviation header_matches := (header_matches OPENCC_DICHEADER).
Local Abbreviation dict_datrie_match_longest := (dict_datrie_match_longest DATRIE_UNUSED).
Local Abbreviation dict_datrie_get_all_match_lengths :=
  (dict_datrie_get_all_match_lengths DATRIE_UNUSED).

(** C7. The same bytes, mapped or copied. For a file whose header matches
    and whose declared lexicon and table, of at least one item, lie inside
    the file, the handle loaded by mapping and the handle loaded by the
    fallback (a buffer of the size of the file, the whole file read into
    it) are the same pointer, with the same views and the same table in
    memory: every item is the one that the bytes of the file give. Longest
    match returns on both, and returns the same pointer. The enumeration
    returns on both, with the same count and the same lengths, whenever
    the buffer has a slot for every character of the word, and does the
    same on both with any buffer. Every read that the copy allows sees the
    same bytes in the mapping. The two differ in the strategy they
    record. *)
Theorem mapped_and_copied_handles_agree o1 o2 filename w j1 j2 bs :
  malloc_dict o1 = Some j1 → malloc_dict o2 = Some j2 →
  files o1 filename = Some bs → files o2 filename = Some bs →
  mmap_ok o1 = true →
  mmap_ok o2 = false → malloc_ok o2 = true → (length bs ≤ read_limit o2)%nat →
  Z.of_nat (length bs) ≤ PTRDIFF_MAX →
  strlen OPENCC_DICHEADER + 16 ≤ Z.of_nat (length bs) →
  header_matches bs →
  let hl := strlen OPENCC_DICHEADER in
  let n := decode_size_t (take 8 (drop (Z.to_nat hl) bs)) in
  let c := decode_size_t (take 8 (drop (Z.to_nat (hl + 8)) bs)) in
  0 < c →
  hl + 16 + sizeof_wchar_t * n + sizeof_item * c ≤ Z.of_nat (length bs) →
  ∃ dp w1 w2 d1 d2,
    dict_datrie_open o1 filename w = Ret (dp, w1)
    ∧ dict_datrie_open o2 filename w = Ret (dp, w2)
    ∧ dict_at w1 dp = Some d1 ∧ dic_memory_type d1 = MEMORY_TYPE_MMAP
    ∧ dict_at w2 dp = Some d2 ∧ dic_memory_type d2 = MEMORY_TYPE_ALLOCATE
    ∧ views d1 = views d2
    ∧ table_in_memory w1 dp ∧ table_in_memory w2 dp
    ∧ (∀ j, 0 ≤ j < c →
         let it := decode_item
                     (take 12 (drop (Z.to_nat (hl + 16 + sizeof_wchar_t * n
                                               + sizeof_item * j)) bs)) in
         item_at w1 dp j = Some it ∧ item_at w2 dp j = Some it)
    ∧ (∀ input limit,
         ∃ p, dict_datrie_match_longest w1 dp input limit = Ret p
              ∧ dict_datrie_match_longest w2 dp input limit = Ret p)
    ∧ (∀ input (match_length : list Z),
         (length input ≤ length match_length)%nat →
         ∃ out, dict_datrie_get_all_match_lengths w1 dp input match_length = Ret out
                ∧ dict_datrie_get_all_match_lengths w2 dp input match_length = Ret out)
    ∧ (∀ input (match_length : list Z),
         dict_datrie_get_all_match_lengths w1 dp input match_length
         = dict_datrie_get_all_match_lengths w2 dp input match_length)
    ∧ (∀ p k bytes, load_bytes w2 p k = Some bytes → load_bytes w1 p k = Some bytes).
Proof.
  intros Hj1 Hj2 Hf1 Hf2 Hmap1 Hmap2 Hmalloc Hread Hmax Hlen Hhdr hl n c Hc Hfit.
  assert (Ha1 : acquire o1 bs = Some (ByMmap, bs)).
  { unfold acquire. by rewrite Hmap1. }
  assert (Ha2 : acquire o2 bs = Some (ByMalloc, bs)).
  { rewrite acquire_whole_file by done. by rewrite Hmap2, Hmalloc. }
  pose proof (open_succeeds OPENCC_DICHEADER o1 filename w j1 bs Hj1 Hf1 Hmax Hlen
                _ _ Ha1 Hhdr) as Ho1.
  pose proof (open_succeeds OPENCC_DICHEADER o2 filename w j2 bs Hj2 Hf2 Hmax Hlen
                _ _ Ha2 Hhdr) as Ho2.
  pose proof (opened_world_same OPENCC_DICHEADER w bs (Z.of_nat (length bs)))
    as Hsame.
  destruct (opened_world_table OPENCC_DICHEADER w ByMmap bs (Z.of_nat (length bs))
              Hmax Hc Hfit) as [Ht1 Hi1].
  destruct (opened_world_table OPENCC_DICHEADER w ByMalloc bs (Z.of_nat (length bs))
              Hmax Hc Hfit) as [Ht2 Hi2].
  set (dp := Pblk (length (heap w)) 0) in *.
  set (w1 := opened_world OPENCC_DICHEADER w ByMmap bs (Z.of_nat (length bs))) in *.
  set (w2 := opened_world OPENCC_DICHEADER w ByMalloc bs (Z.of_nat (length bs))) in *.
  assert (Hlongest : ∀ input limit,
            dict_datrie_match_longest w1 dp input limit
            = dict_datrie_match_longest w2 dp input limit).
  { intros input limit. by apply dict_datrie_match_longest_same. }
  assert (Hall : ∀ input buf,
            dict_datrie_get_all_match_lengths w1 dp input buf
            = dict_datrie_get_all_match_lengths w2 dp input buf).
  { intros input buf. by apply all_match_lengths_from_same. }
  eexists dp, w1, w2, _, _. split; [exact Ho1|]. split; [exact Ho2|].
  split; [apply opened_world_dict|]. split; [done|].
  split; [apply opened_world_dict|]. split; [done|].
  split; [done|]. split; [exact Ht1|]. split; [exact Ht2|].
  split; [|split; [|split; [|split]]].
  - intros j Hj it. split; [by apply Hi1 | by apply Hi2].
  - intros input limit. rewrite <- Hlongest.
    destruct (match_longest_finds DATRIE_UNUSED w1 dp _ input limit Ht1
                (opened_world_dict _ _ _ _ _))
      as (m & i0 & _ & _ & _ & _ & _ & Hres).
    destruct Hres as [(q & off & _ & _ & _ & Hret) | [_ Hret]];
      rewrite Hret; by eexists.
  - intros input buf Hroom. rewrite <- Hall.
    destruct (all_match_lengths_lens DATRIE_UNUSED w1 dp input Ht1)
      as (lens & _ & _ & _ & Hrun).
    rewrite (Hrun buf Hroom). by eexists.
  - exact Hall.
  - intros p k bytes Hb. destruct Hsame as [Hbytes _]. by rewrite Hbytes.
Qed.

End TwoStrategies.

(** * The claims on the test dictionary *)

Lemma ab_abc_dict_at : dict_at ab_abc_world ab_abc_handle = Some ab_abc_dict.
Proof. vm_compute. reflexivity. Qed.

Lemma ab_abc_items_at (j : nat) it :
  ab_abc_items !! j = Some it →
  item_at ab_abc_world ab_abc_handle (Z.of_nat j) = Some it.
Proof.
  destruct j as [|[|[|[|j]]]]; simpl; intros [= <-]; vm_compute; reflexivity.
Qed.

Lemma ab_abc_table_in_memory : table_in_memory ab_abc_world ab_abc_handle.
Proof.
  exists ab_abc_dict. split; [exact ab_abc_dict_at|].
  split; [reflexivity|]. split; [vm_compute; discriminate|].
  intros j Hj. simpl in Hj.
  assert (E : j = 0 ∨ j = 1 ∨ j = 2 ∨ j = 3) by lia.
  destruct E as [-> | [-> | [-> | ->]]].
  - exists (item (1 - chr "A") (-1) (-1)). by apply (ab_abc_items_at 0).
  - exists (item (2 - chr "B") 0 (-1)). by apply (ab_abc_items_at 1).
  - exists (item (3 - chr "C") 1 0). by apply (ab_abc_items_at 2).
  - exists (item test_unused 2 3). by apply (ab_abc_items_at 3).
Qed.

Lemma ab_abc_entry_ab : entry test_unused ab_abc_world ab_abc_handle (wide "AB") 0.
Proof.
  exists 2, (item (3 - chr "C") 1 0).
  split; [vm_compute; reflexivity|]. split; [by apply (ab_abc_items_at 2)|].
  split; [vm_compute; discriminate | reflexivity].
Qed.

Lemma ab_abc_entry_abc : entry test_unused ab_abc_world ab_abc_handle (wide "ABC") 3.
Proof.
  exists 3, (item test_unused 2 3).
  split; [vm_compute; reflexivity|]. split; [by apply (ab_abc_items_at 3)|].
  split; [vm_compute; discriminate | reflexivity].
Qed.

(** C5. The file does not exist: [fopen] returns [NULL], [load_dict] hands
    it to [fileno], and the call is undefined instead of failing. *)
Theorem open_missing_file_is_undefined :
  dict_datrie_open test_header (test_os "ab_abc.ocd" ab_abc_file true)
    "missing.ocd" empty_world = Undefined.
Proof. vm_compute. reflexivity. Qed.

Lemma transition_followed_iff_valid_witness :
  datrie_match_from test_unused ab_abc_world ab_abc_handle 0 (wide "BCD") 1 1
  = datrie_match_from test_unused ab_abc_world ab_abc_handle 0 (wide "CD") 2 2
  ∧ datrie_match_from test_unused ab_abc_world ab_abc_handle 0 (wide "XCD") 1 1
    = Ret (1, 1).
Proof.
  assert (Hcount : count_at ab_abc_world ab_abc_handle = Some 4)
    by (vm_compute; reflexivity).
  assert (Hit : item_at ab_abc_world ab_abc_handle 1 = Some (item (2 - chr "B") 0 (-1)))
    by (vm_compute; reflexivity).
  split.
  - apply (transition_followed_iff_valid test_unused ab_abc_world ab_abc_handle
             4 0 (chr "B") (wide "CD") 1 1 (item (2 - chr "B") 0 (-1))
             ab_abc_table_in_memory Hcount ltac:(lia) Hit
             ltac:(vm_compute; discriminate) ltac:(left; reflexivity)
             ltac:(vm_compute; discriminate)).
    split; [vm_compute; split; [intros H; discriminate H | reflexivity]|].
    exists (item (3 - chr "C") 1 0). split; vm_compute; reflexivity.
  - apply (transition_followed_iff_valid test_unused ab_abc_world ab_abc_handle
             4 0 (chr "X") (wide "CD") 1 1 (item (2 - chr "B") 0 (-1))
             ab_abc_table_in_memory Hcount ltac:(lia) Hit
             ltac:(vm_compute; discriminate) ltac:(left; reflexivity)
             ltac:(vm_compute; discriminate)).
    intros [[_ H] _]. vm_compute in H. discriminate H.
Defined.

Lemma match_longest_correct_witness :
  dict_datrie_match_longest test_unused ab_abc_world ab_abc_handle (wide "ABCD") 0
  = Ret (Pblk 1 40)
  ∧ wide_string_at 8 ab_abc_world (Pblk 1 40) = Ret (wide "ABC")
  ∧ dict_datrie_match_longest test_unused ab_abc_world ab_abc_handle (wide "ABX") 0
    = Ret (Pblk 1 28)
  ∧ wide_string_at 8 ab_abc_world (Pblk 1 28) = Ret (wide "AB")
  ∧ dict_datrie_match_longest test_unused ab_abc_world ab_abc_handle (wide "XY") 0
    = Ret NULL.
Proof.
  split; [|split; [vm_compute; reflexivity
                  |split; [|split; [vm_compute; reflexivity|]]]].
  - apply (proj1 (proj2 (match_longest_correct test_unused ab_abc_world ab_abc_handle
                           ab_abc_dict (wide "ABCD") 0 ab_abc_table_in_memory
                           ab_abc_dict_at)) 3%nat 3).
    + vm_compute. lia.
    + left. reflexivity.
    + exact ab_abc_entry_abc.
    + intros q' off' Hq' _ (i & it & Hn & _).
      assert (q' = 4%nat) as -> by (vm_compute in Hq'; lia).
      vm_compute in Hn. discriminate Hn.
  - apply (proj1 (proj2 (match_longest_correct test_unused ab_abc_world ab_abc_handle
                           ab_abc_dict (wide "ABX") 0 ab_abc_table_in_memory
                           ab_abc_dict_at)) 2%nat 0).
    + vm_compute. lia.
    + left. reflexivity.
    + exact ab_abc_entry_ab.
    + intros q' off' Hq' _ (i & it & Hn & _).
      assert (q' = 3%nat) as -> by (vm_compute in Hq'; lia).
      vm_compute in Hn. discriminate Hn.
  - apply (proj2 (proj2 (match_longest_correct test_unused ab_abc_world ab_abc_handle
                           ab_abc_dict (wide "XY") 0 ab_abc_table_in_memory
                           ab_abc_dict_at))).
    intros q off Hq _ (i & it & Hn & _).
    assert (E : q = 1%nat ∨ q = 2%nat) by (vm_compute in Hq; lia).
    destruct E as [-> | ->]; vm_compute in Hn; discriminate Hn.
Defined.

Lemma datrie_match_bounded_walk_witness :
  ∃ (p : nat) (i : Z),
    datrie_match test_unused ab_abc_world ab_abc_handle (wide "ABCD") 2
    = Ret (Z.of_nat p, i)
    ∧ node_of test_unused ab_abc_world ab_abc_handle (take p (wide "ABCD")) 0 = Some i.
Proof.
  destruct (datrie_match_bounded_walk test_unused ab_abc_world ab_abc_handle
              (wide "ABCD") 2 ab_abc_table_in_memory ltac:(lia))
    as (p & i & Hrun & _ & Hnode & _).
  exists p, i. split; [exact Hrun | exact Hnode].
Defined.

Lemma all_match_lengths_increasing_witness :
  ∃ lens : list Z,
    dict_datrie_get_all_match_lengths test_unused ab_abc_world ab_abc_handle
      (wide "ABCD") [0; 0; 0; 0]
    = Ret (Z.of_nat (length lens), lens ++ drop (length lens) [0; 0; 0; 0])
    ∧ StronglySorted Z.lt lens.
Proof.
  destruct (all_match_lengths_increasing test_unused ab_abc_world ab_abc_handle
              (wide "ABCD") [0; 0; 0; 0] ab_abc_table_in_memory
              ltac:(vm_compute; lia))
    as (lens & Hrun & Hsorted & _).
  exists lens. split; [exact Hrun | exact Hsorted].
Defined.

Lemma truncated_file_header : header_matches test_header truncated_file.
Proof. vm_compute. reflexivity. Qed.

Lemma load_dict_checks_header_only_witness :
  ∃ w' d',
    load_dict test_header (test_os "t.ocd" truncated_file true) (Pblk 0 0)
      (Some truncated_file) (world_at_load empty_world junk_dict)
    = Ret (0, w')
    ∧ dict_at w' (Pblk 0 0) = Some d'
    ∧ dat_item_count d'
      = decode_size_t (take 8 (drop (Z.to_nat (strlen test_header + 8)) truncated_file))
    ∧ lexicon_length d'
      = decode_size_t (take 8 (drop (Z.to_nat (strlen test_header)) truncated_file)).
Proof.
  destruct (load_dict_checks_header_only test_header
              (test_os "t.ocd" truncated_file true)
              (world_at_load empty_world junk_dict) (Pblk 0 0)
              (set_lexicon NULL (set_dat NULL junk_dict))
              truncated_file ByMmap truncated_file
              ltac:(vm_compute; reflexivity)
              ltac:(vm_compute; intros H; discriminate H)
              ltac:(vm_compute; intros H; discriminate H)
              ltac:(vm_compute; reflexivity))
    as (res & w' & Hrun & _ & Hok).
  destruct (Hok truncated_file_header)
    as (-> & d' & rb & Hd' & _ & _ & Hlen & Hcount & _).
  exists w', d'. split; [exact Hrun|]. split; [exact Hd'|].
  split; [exact Hcount | exact Hlen].
Defined.

Lemma ab_abc_file_header : header_matches test_header ab_abc_file.
Proof. vm_compute. reflexivity. Qed.

Lemma mapped_and_copied_handles_agree_witness :
  ∃ dp w1 w2,
    ab_abc_open true = Ret (dp, w1) ∧ ab_abc_open false = Ret (dp, w2)
    ∧ table_in_memory w1 dp ∧ table_in_memory w2 dp
    ∧ ∀ input limit,
        ∃ p, dict_datrie_match_longest test_unused w1 dp input limit = Ret p
             ∧ dict_datrie_match_longest test_unused w2 dp input limit = Ret p.
Proof.
  destruct (mapped_and_copied_handles_agree test_header test_unused
              (test_os "ab_abc.ocd" ab_abc_file true)
              (test_os "ab_abc.ocd" ab_abc_file false)
              "ab_abc.ocd" empty_world junk_dict junk_dict ab_abc_file
              ltac:(reflexivity) ltac:(reflexivity)
              ltac:(vm_compute; reflexivity) ltac:(vm_compute; reflexivity)
              ltac:(reflexivity) ltac:(reflexivity) ltac:(reflexivity)
              ltac:(vm_compute; lia)
              ltac:(vm_compute; intros H; discriminate H)
              ltac:(vm_compute; intros H; discriminate H)
              ab_abc_file_header
              ltac:(vm_compute; reflexivity)
              ltac:(vm_compute; intros H; discriminate H))
    as (dp & w1 & w2 & d1 & d2 & H1 & H2 & _ & _ & _ & _ & _ & Ht1 & Ht2 & _ & Hq & _).
  exists dp, w1, w2. split; [exact H1|]. split; [exact H2|].
  split; [exact Ht1|]. split; [exact Ht2 | exact Hq].
Defined.

(** The root of the table that [truncated_file] declares lies outside the
    copy of the file. *)
Lemma truncated_copy_root :
  item_at (world_of (dict_datrie_open test_header (test_os "t.ocd" truncated_file false)
                       "t.ocd" empty_world)) (Pblk 0 0) 0 = None.
Proof. vm_compute. reflexivity. Qed.

(** C7, without the condition on the counts. For a file that holds the
    header and two counts of 1000 and nothing else, both opens succeed,
    and every longest match on the copy reads the root outside the buffer:
    the two handles do not return the same, as the copy does not
    return. *)
Lemma mapped_and_copied_handles_agree_counterexample :
  ∃ dp w1 w2,
    dict_datrie_open test_header (test_os "t.ocd" truncated_file true) "t.ocd"
      empty_world = Ret (dp, w1)
    ∧ dict_datrie_open test_header (test_os "t.ocd" truncated_file false) "t.ocd"
        empty_world = Ret (dp, w2)
    ∧ (∀ input limit,
         dict_datrie_match_longest test_unused w2 dp input limit = Undefined)
    ∧ ¬ ∃ p, dict_datrie_match_longest test_unused w1 dp (wide "AB") 0 = Ret p
             ∧ dict_datrie_match_longest test_unused w2 dp (wide "AB") 0 = Ret p.
Proof.
  exists (Pblk 0 0),
    (world_of (dict_datrie_open test_header (test_os "t.ocd" truncated_file true)
                 "t.ocd" empty_world)),
    (world_of (dict_datrie_open test_header (test_os "t.ocd" truncated_file false)
                 "t.ocd" empty_world)).
  split; [vm_compute; reflexivity|]. split; [vm_compute; reflexivity|].
  pose proof (proj1 (unreadable_root_undefined test_unused _ _ truncated_copy_root))
    as Hundef.
  split; [exact Hundef|].
  intros (p & _ & H2). rewrite Hundef in H2. discriminate H2.
Defined.

Lemma ab_abc_closable : closable ab_abc_world ab_abc_handle ab_abc_dict.
Proof.
  exists 0%nat. split; [reflexivity|]. split; [vm_compute; reflexivity|].
  intros _ H. vm_compute in H. discriminate H.
Qed.

Lemma close_frees_handle_witness :
  ∃ res w',
    dict_datrie_close (test_os "ab_abc.ocd" ab_abc_file true) ab_abc_handle
      ab_abc_world = Ret (res, w')
    ∧ dict_at w' ab_abc_handle = None ∧ (res = -1 ∨ res = 0).
Proof.
  destruct (close_frees_handle (test_os "ab_abc.ocd" ab_abc_file true)
              ab_abc_world ab_abc_handle ab_abc_dict ab_abc_closable)
    as (_ & res & w' & hb & Hrun & _ & _ & Hgone & Hres & _).
  exists res, w'. split; [exact Hrun|]. split; [exact Hgone | exact Hres].
Defined.

Lemma bad_file_load_fails :
  load_dict test_header (test_os "bad.ocd" bad_file true) (Pblk 0 0) (Some bad_file)
    (world_at_load empty_world junk_dict)
  = Ret (-1, world_of (load_dict test_header (test_os "bad.ocd" bad_file true)
                         (Pblk 0 0) (Some bad_file)
                         (world_at_load empty_world junk_dict))).
Proof. vm_compute. reflexivity. Qed.

Lemma failed_open_returns_minus_one_witness :
  ∃ w', dict_datrie_open test_header (test_os "bad.ocd" bad_file true) "bad.ocd"
          empty_world = Ret (Pint (to_size_t (-1)), w')
        ∧ is_null (Pint (to_size_t (-1))) = false.
Proof.
  destruct (proj1 (failed_open_returns_minus_one test_header
                     (test_os "bad.ocd" bad_file true) "bad.ocd" empty_world
                     junk_dict bad_file _
                     ltac:(reflexivity) ltac:(vm_compute; reflexivity)
                     bad_file_load_fails))
    as (w' & Hrun & _ & Hnull & _).
  exists w'. split; [exact Hrun | exact Hnull].
Defined.


Lemma failed_open_leaves_stream_open_witness :
  ∃ dp w', dict_datrie_open test_header (test_os "bad.ocd" bad_file true) "bad.ocd"
             empty_world = Ret (dp, w')
           ∧ streams w' = if ptr_eqb dp (Pint (to_size_t (-1))) then 1%nat else 0%nat.
Proof.
  exact (failed_open_leaves_stream_open test_header
           (test_os "bad.ocd" bad_file true) "bad.ocd" empty_world junk_dict bad_file
           ltac:(reflexivity) ltac:(vm_compute; reflexivity)
           ltac:(vm_compute; intros H; discriminate H)
           ltac:(vm_compute; intros H; discriminate H)).
Defined.

(** ** Further properties on the test dictionary *)

Lemma limit_is_truncation_witness :
  dict_datrie_match_longest test_unused ab_abc_world ab_abc_handle (wide "ABCD") 2
  = dict_datrie_match_longest test_unused ab_abc_world ab_abc_handle (wide "AB") 0.
Proof.
  exact (proj1 (proj2 (limit_is_truncation test_unused ab_abc_world ab_abc_handle
                         (wide "ABCD") 2 ltac:(lia)))).
Defined.

Lemma all_match_lengths_room_witness :
  ∃ lens : list Z,
    StronglySorted Z.lt lens
    ∧ dict_datrie_get_all_match_lengths test_unused ab_abc_world ab_abc_handle
        (wide "ABCD") [0]
      = if decide (length lens ≤ 1)%nat
        then Ret (Z.of_nat (length lens), lens ++ drop (length lens) [0])
        else Undefined.
Proof.
  destruct (all_match_lengths_room test_unused ab_abc_world ab_abc_handle
              (wide "ABCD") ab_abc_table_in_memory)
    as (lens & Hsorted & _ & Hrun).
  exists lens. split; [exact Hsorted | exact (Hrun [0])].
Defined.

Lemma longest_match_is_last_length_witness :
  ∃ lens : list Z,
    dict_datrie_get_all_match_lengths test_unused ab_abc_world ab_abc_handle
      (wide "ABCD") [0; 0; 0; 0]
    = Ret (Z.of_nat (length lens), lens ++ drop (length lens) [0; 0; 0; 0])
    ∧ ∀ L, last lens = Some L →
        ∃ off, entry test_unused ab_abc_world ab_abc_handle
                 (take (Z.to_nat L) (wide "ABCD")) off
               ∧ dict_datrie_match_longest test_unused ab_abc_world ab_abc_handle
                   (wide "ABCD") 0
                 = Ret (ptr_add (lexicon ab_abc_dict) (sizeof_wchar_t * off)).
Proof.
  destruct (longest_match_is_last_length test_unused ab_abc_world ab_abc_handle
              ab_abc_dict (wide "ABCD") 0 [0; 0; 0; 0]
              ab_abc_table_in_memory ab_abc_dict_at ltac:(vm_compute; lia))
    as (lens & Hrun & _ & _ & _ & Hlast).
  exists lens. split; [exact Hrun|]. intros L. exact (Hlast L eq_refl).
Defined.

Lemma empty_word_matches_nothing_witness :
  dict_datrie_match_longest test_unused ab_abc_world ab_abc_handle [] 0 = Ret NULL
  ∧ dict_datrie_get_all_match_lengths test_unused ab_abc_world ab_abc_handle [] [7]
    = Ret (0, [7]).
Proof.
  destruct (empty_word_matches_nothing test_unused ab_abc_world ab_abc_handle 0
              [] [7]
              (ex_intro _ _ (ab_abc_items_at 0 _ eq_refl)))
    as (H1 & _ & H2 & _).
  split; [exact H1 | exact H2].
Defined.

Lemma open_undefined_exactly_witness :
  dict_datrie_open test_header (test_os "ab_abc.ocd" ab_abc_file true)
    "ab_abc.ocd" empty_world = Undefined
  ↔ malloc_dict (test_os "ab_abc.ocd" ab_abc_file true) = None
    ∨ files (test_os "ab_abc.ocd" ab_abc_file true) "ab_abc.ocd" = None.
Proof.
  apply (open_undefined_exactly test_header (test_os "ab_abc.ocd" ab_abc_file true)
           "ab_abc.ocd" empty_world).
  intros bs H. vm_compute in H. injection H as <-.
  vm_compute. split; intros H; discriminate H.
Defined.

Lemma open_then_close_restores_witness :
  ∃ dp w1 res w2,
    ab_abc_open false = Ret (dp, w1)
    ∧ dict_datrie_close (test_os "ab_abc.ocd" ab_abc_file false) dp w1 = Ret (res, w2)
    ∧ streams w2 = 0%nat
    ∧ (res ≠ -1 → res = 0 ∧ ∀ b' : nat, live w2 b' = live empty_world b').
Proof.
  destruct (open_then_close_restores test_header
              (test_os "ab_abc.ocd" ab_abc_file false)
              (test_os "ab_abc.ocd" ab_abc_file false)
              "ab_abc.ocd" empty_world junk_dict ab_abc_file ByMalloc ab_abc_file
              ltac:(reflexivity) ltac:(vm_compute; reflexivity)
              ltac:(vm_compute; intros H; discriminate H)
              ltac:(vm_compute; intros H; discriminate H)
              ltac:(vm_compute; reflexivity) ab_abc_file_header)
    as (dp & w1 & res & w2 & Hopen & Hclose & Hs & _ & _ & _ & _ & Hall).
  exists dp, w1, res, w2.
  split; [exact Hopen|]. split; [exact Hclose|]. split; [exact Hs | exact Hall].
Defined.

Lemma closed_handle_is_dead_witness :
  ∃ res w',
    dict_datrie_close (test_os "ab_abc.ocd" ab_abc_file true) ab_abc_handle
      ab_abc_world = Ret (res, w')
    ∧ dict_datrie_close (test_os "ab_abc.ocd" ab_abc_file true) ab_abc_handle w'
      = Undefined
    ∧ dict_datrie_match_longest test_unused w' ab_abc_handle (wide "AB") 0
      = Undefined.
Proof.
  destruct (closed_handle_is_dead test_unused (test_os "ab_abc.ocd" ab_abc_file true)
              ab_abc_world ab_abc_handle ab_abc_dict ab_abc_closable)
    as (res & w' & Hrun & Hclose & Hmatch & _).
  exists res, w'. split; [exact Hrun|].
  split; [exact (Hclose _) | exact (Hmatch _ _)].
Defined.

Lemma integer_is_no_handle_witness :
  dict_datrie_close (test_os "ab_abc.ocd" ab_abc_file true) (Pint (to_size_t (-1)))
    ab_abc_world = Undefined
  ∧ dict_datrie_match_longest test_unused ab_abc_world NULL (wide "AB") 0 = Undefined.
Proof.
  split.
  - exact (proj1 (integer_is_no_handle test_unused
                    (test_os "ab_abc.ocd" ab_abc_file true) ab_abc_world
                    (to_size_t (-1)) [] 0 (chr "A") [] []
                    ltac:(vm_compute; intros H; discriminate H))).
  - exact (proj1 (proj2 (integer_is_no_handle test_unused
                           (test_os "ab_abc.ocd" ab_abc_file true) ab_abc_world
                           0 (wide "AB") 0 (chr "A") [] []
                           ltac:(vm_compute; intros H; discriminate H)))).
Defined.

Lemma failed_open_releases_memory_witness :
  ∃ w',
    dict_datrie_open test_header (test_os "bad.ocd" bad_file true) "bad.ocd"
      ab_abc_world = Ret (Pint (to_size_t (-1)), w')
    ∧ ∀ b' : nat, live w' b' = live ab_abc_world b'.
Proof.
  destruct (failed_open_releases_memory test_header
              (test_os "bad.ocd" bad_file true) "bad.ocd" ab_abc_world
              junk_dict bad_file
              ltac:(reflexivity) ltac:(vm_compute; reflexivity)
              ltac:(vm_compute; intros H; discriminate H)
              ltac:(vm_compute; intros H; discriminate H)
              ltac:(vm_compute; intros H; discriminate H))
    as (w' & Hrun & _ & _ & Hall).
  exists w'. split; [exact Hrun|]. apply Hall. right. reflexivity.
Defined.

Lemma short_file_copied_witness :
  dict_datrie_open test_header (test_os "short.ocd" short_file false) "short.ocd"
    empty_world = Undefined.
Proof.
  apply (short_file_copied test_header (test_os "short.ocd" short_file false)
           "short.ocd" empty_world junk_dict short_file short_file
           ltac:(reflexivity) ltac:(vm_compute; reflexivity)
           ltac:(vm_compute; intros H; discriminate H)
           ltac:(vm_compute; reflexivity)
           ltac:(vm_compute; reflexivity)).
  vm_compute. reflexivity.
Defined.

Lemma truncated_table_queries_undefined_witness :
  ∃ dp w1,
    dict_datrie_open test_header (test_os "t.ocd" truncated_file false) "t.ocd"
      empty_world = Ret (dp, w1)
    ∧ is_Some (dict_at w1 dp)
    ∧ dict_datrie_match_longest test_unused w1 dp (wide "AB") 0 = Undefined
    ∧ dict_datrie_get_all_match_lengths test_unused w1 dp (wide "AB") [0; 0]
      = Undefined.
Proof.
  destruct (truncated_table_queries_undefined test_header test_unused
              (test_os "t.ocd" truncated_file false) "t.ocd" empty_world
              junk_dict truncated_file truncated_file
              ltac:(reflexivity) ltac:(vm_compute; reflexivity)
              ltac:(vm_compute; intros H; discriminate H)
              ltac:(vm_compute; intros H; discriminate H)
              ltac:(vm_compute; reflexivity) truncated_file_header)
    as (dp & w1 & Hrun & Hdict & Hmatch & Hall).
  exists dp, w1. split; [exact Hrun|]. split; [exact Hdict|]. split.
  - apply Hmatch. vm_compute. reflexivity.
  - apply Hall; [vm_compute; reflexivity|]. vm_compute. intros H. discriminate H.
Defined.

Lemma declared_table_in_memory_witness :
  ∃ dp w1,
    ab_abc_open true = Ret (dp, w1) ∧ table_in_memory w1 dp.
Proof.
  destruct (declared_table_in_memory test_header
              (test_os "ab_abc.ocd" ab_abc_file true) "ab_abc.ocd" empty_world
              junk_dict ab_abc_file ByMmap ab_abc_file
              ltac:(reflexivity) ltac:(vm_compute; reflexivity)
              ltac:(vm_compute; intros H; discriminate H)
              ltac:(vm_compute; intros H; discriminate H)
              ltac:(vm_compute; reflexivity) ab_abc_file_header
              ltac:(vm_compute; reflexivity)
              ltac:(vm_compute; intros H; discriminate H))
    as (dp & w1 & d & Hrun & _ & _ & _ & Htable & _).
  exists dp, w1. split; [exact Hrun | exact Htable].
Defined.


Lemma two_handles_first : dict_at two_handles_world ab_abc_handle = Some ab_abc_dict.
Proof. vm_compute. reflexivity. Qed.

Lemma two_handles_table : table_in_memory two_handles_world ab_abc_handle.
Proof.
  exists ab_abc_dict. split; [exact two_handles_first|].
  split; [reflexivity|]. split; [vm_compute; discriminate|].
  intros j Hj. simpl in Hj.
  assert (E : j = 0 ∨ j = 1 ∨ j = 2 ∨ j = 3) by lia.
  destruct E as [-> | [-> | [-> | ->]]]; vm_compute; by eexists.
Qed.

Lemma two_handles_closable : closable two_handles_world second_handle second_dict.
Proof.
  exists 2%nat. split; [reflexivity|]. split; [vm_compute; reflexivity|].
  intros _ H. vm_compute in H. discriminate H.
Qed.

Lemma close_leaves_other_handles_alone_witness :
  ∃ res w',
    dict_datrie_close (test_os "ab_abc.ocd" ab_abc_file true) second_handle
      two_handles_world = Ret (res, w')
    ∧ table_in_memory w' ab_abc_handle
    ∧ dict_datrie_match_longest test_unused w' ab_abc_handle (wide "ABCD") 0
      = dict_datrie_match_longest test_unused two_handles_world ab_abc_handle
          (wide "ABCD") 0.
Proof.
  destruct (close_leaves_other_handles_alone test_unused
              (test_os "ab_abc.ocd" ab_abc_file true) two_handles_world
              second_handle second_dict ab_abc_handle ab_abc_dict
              two_handles_closable two_handles_table two_handles_first
              ltac:(intros H; discriminate H)
              ltac:(intros H; discriminate H)
              ltac:(intros rb ofs H1 H2; simpl in H1, H2;
                    injection H1 as <- _; discriminate H2))
    as (res & w' & Hrun & Htable & Hmatch & _).
  exists res, w'. split; [exact Hrun|]. split; [exact Htable | exact (Hmatch _ _)].
Defined.

Lemma open_ignores_what_malloc_left_witness :
  dict_datrie_open test_header
    {| files := files (test_os "ab_abc.ocd" ab_abc_file false);
       malloc_dict := Some ab_abc_dict;
       mmap_ok := false; malloc_ok := true;
       malloc_junk := fun _ => "V"%byte;
       read_limit := 1000; munmap_ok := true |}
    "ab_abc.ocd" empty_world
  = ab_abc_open false.
Proof.
  apply (open_ignores_what_malloc_left test_header
           (test_os "ab_abc.ocd" ab_abc_file false) _ "ab_abc.ocd" empty_world
           junk_dict ab_abc_dict ab_abc_file);
    try reflexivity;
    try (vm_compute; reflexivity);
    try (vm_compute; lia);
    vm_compute; intros H; discriminate H.
Defined.

Lemma load_without_memory_witness :
  ∃ w',
    load_dict test_header
      {| files := fun _ => None; malloc_dict := None; mmap_ok := false;
         malloc_ok := false; malloc_junk := fun _ => x00; read_limit := 0;
         munmap_ok := true |}
      ab_abc_handle (Some ab_abc_file) ab_abc_world = Ret (-1, w')
    ∧ length (heap w') = length (heap ab_abc_world).
Proof.
  destruct (load_without_memory test_header
              {| files := fun _ => None; malloc_dict := None; mmap_ok := false;
                 malloc_ok := false; malloc_junk := fun _ => x00; read_limit := 0;
                 munmap_ok := true |}
              ab_abc_world ab_abc_handle ab_abc_dict ab_abc_file
              ab_abc_dict_at ltac:(reflexivity) ltac:(reflexivity))
    as (w' & Hrun & _ & Hlen & _).
  exists w'. split; [exact Hrun | exact Hlen].
Defined.

Lemma wide_ab_in_range : Forall (λ c, INT_MIN ≤ c ≤ INT_MAX) (wide "AB").
Proof. repeat constructor; vm_compute; intros H; discriminate H. Qed.

Lemma same_node_same_word_witness : wide "AB" = [chr "A"; chr "B"].
Proof.
  apply (same_node_same_word test_unused ab_abc_world ab_abc_handle
           (item (1 - chr "A") (-1) (-1)) (wide "AB") [chr "A"; chr "B"] 2
           ab_abc_table_in_memory (ab_abc_items_at 0 _ eq_refl)
           ltac:(reflexivity) wide_ab_in_range wide_ab_in_range
           ltac:(vm_compute; reflexivity) ltac:(vm_compute; reflexivity)).
Defined.

Lemma enumeration_of_a_prefix_witness :
  ∃ lens : list Z,
    dict_datrie_get_all_match_lengths test_unused ab_abc_world ab_abc_handle
      (wide "AB" ++ wide "CD") [0; 0; 0; 0]
    = Ret (Z.of_nat (length lens), lens ++ drop (length lens) [0; 0; 0; 0])
    ∧ let lens' := filter (λ L, L ≤ 2) lens in
      dict_datrie_get_all_match_lengths test_unused ab_abc_world ab_abc_handle
        (wide "AB") [0; 0]
      = Ret (Z.of_nat (length lens'), lens' ++ drop (length lens') [0; 0]).
Proof.
  destruct (enumeration_of_a_prefix test_unused ab_abc_world ab_abc_handle
              (wide "AB") (wide "CD") ab_abc_table_in_memory)
    as (lens & Hall & Hpre).
  exists lens. split.
  - apply Hall. vm_compute. lia.
  - apply (Hpre [0; 0]). vm_compute. lia.
Defined.
